(** * SnapSaver: decoder, layout extractor and download workflow

    A shallow embedding of [src/utils.ts] (the URL helpers) and of the
    [Download] module that follows it in the same file (classes
    [SnapSaveDecoder], [MediaExtractor], [SnapSaverService]), together with
    the properties of the specification that can be stated about them.

    Conventions.
    - A JavaScript string is the list of its UTF-16 code units ([jsstring]).
    - [undefined] is [None]; a string-or-undefined value is [option jsstring].
    - A JavaScript number is modelled by the integer it denotes, as long as
      that integer has magnitude at most 2^53 (every such integer is a
      double, and [+], [*], [%], [/] are exact on them when the result is
      again in range).  NaN is modelled where [decodeSnapApp] meets it for
      an argument that is [undefined] ([num]).  A computation that would
      leave this fragment (a string that is no integer literal, fractions,
      larger magnitudes) ends in the outcome [Unmodelled]: the embedding
      makes no statement about it.
    - A string has at most [MAX_STRING_LENGTH] code units; the one loop of
      the program that can grow a string beyond its input, the segment
      scan of [decodeSnapApp], concatenates with [concat], which throws
      [RangeError] past the limit as the engine does.
    - A computation ends in an [outcome]: a value, a thrown exception, or
      exhaustion of the loop budget ([Diverge]); a loop that exhausts every
      budget does not terminate. *)

From Stdlib Require Import ZArith NArith String Ascii Bool Lia DecimalString List.
Import ListNotations.

Set Implicit Arguments.

(* ================================================================== *)
(** * The JavaScript runtime fragment used by the program *)
(* ================================================================== *)

Module JS.

Definition jsstring := list N.

(** A string literal of the source (ASCII only). *)
Definition lit (s : string) : jsstring :=
  map N_of_ascii (list_ascii_of_string s).

Fixpoint str_eqb (s t : jsstring) : bool :=
  match s, t with
  | [], [] => true
  | a :: s', b :: t' => (a =? b)%N && str_eqb s' t'
  | _, _ => false
  end.

(** [x === y] on values that are a one-unit string or [undefined]. *)
Definition strict_eq_unit (x y : option N) : bool :=
  match x, y with
  | Some a, Some b => (a =? b)%N
  | None, None => true
  | _, _ => false
  end.

(** String concatenation with a string-or-undefined right operand:
    [undefined] is converted to the text ["undefined"]. *)
Definition to_string_unit (x : option N) : jsstring :=
  match x with
  | Some a => [a]
  | None => lit "undefined"
  end.

Definition to_string_opt (x : option jsstring) : jsstring :=
  match x with
  | Some s => s
  | None => lit "undefined"
  end.

(** Truthiness of a string-or-undefined value, and [a || b]. *)
Definition truthy (x : option jsstring) : bool :=
  match x with
  | Some (_ :: _) => true
  | _ => false
  end.

Definition or_else (a b : option jsstring) : option jsstring :=
  if truthy a then a else b.

(** Exceptions the program can meet. [Rejected] is a rejected promise of
    the transport layer. *)
Inductive exn : Type :=
| TypeError
| SyntaxError
| RangeError
| URIError
| Rejected (reason : jsstring).

Inductive outcome (A : Type) : Type :=
| Ret (a : A)
| Throw (e : exn)
| Diverge
| Unmodelled.

Arguments Ret {A} a.
Arguments Throw {A} e.
Arguments Diverge {A}.
Arguments Unmodelled {A}.

Definition bind {A B : Type} (m : outcome A) (k : A -> outcome B) : outcome B :=
  match m with
  | Ret a => k a
  | Throw e => Throw e
  | Diverge => Diverge
  | Unmodelled => Unmodelled
  end.

(** [try { m } catch (error) { h }] *)
Definition try_catch {A : Type} (m : outcome A) (h : exn -> outcome A) : outcome A :=
  match m with
  | Throw e => h e
  | other => other
  end.

(** ** The length limit of strings *)

(** The longest string of the engine: 2^29 - 24 code units in V8, the
    engine of Node.js, on a 64-bit machine.  The properties below use the
    number only as a bound. *)
Definition MAX_STRING_LENGTH : N := 536870888.

(** [a + b] on strings: past the limit the engine throws [RangeError:
    Invalid string length]. *)
Definition concat (a b : jsstring) : outcome jsstring :=
  if (MAX_STRING_LENGTH <? N.of_nat (length a) + N.of_nat (length b))%N
  then Throw RangeError
  else Ret (a ++ b).

(** ** Numbers *)

Definition MAX_EXACT : Z := 2 ^ 53.

(** A number where it can be NaN: an integer that a double holds
    exactly, or NaN. *)
Inductive num : Type :=
| Int (z : Z)
| NaN.

Definition exact (z : Z) : outcome Z :=
  if (Z.abs z <=? MAX_EXACT)%Z then Ret z else Unmodelled.

(** ** Strings: searching, replacing, splitting, trimming *)

Fixpoint starts_with (p s : jsstring) : bool :=
  match p, s with
  | [], _ => true
  | a :: p', b :: s' => (a =? b)%N && starts_with p' s'
  | _ :: _, [] => false
  end.

(** [s.includes(p)] *)
Fixpoint includes (p s : jsstring) : bool :=
  starts_with p s ||
  match s with
  | [] => false
  | _ :: s' => includes p s'
  end.

(** [s.replace(p, e)] with a string pattern [p] and the empty replacement
    [e]: the first occurrence only. *)
Fixpoint remove_first (p s : jsstring) : jsstring :=
  if starts_with p s then skipn (length p) s
  else match s with
       | [] => []
       | a :: s' => a :: remove_first p s'
       end.

(** [s.split(sep)] for a non-empty separator: the pieces between the
    occurrences of [sep], scanned left to right without overlap.
    [cur] holds the piece being read, reversed. *)
Fixpoint split_go (fuel : nat) (sep : jsstring) (cur : jsstring) (s : jsstring)
  : list jsstring :=
  match fuel with
  | O => [rev cur ++ s]
  | S fuel' =>
      match s with
      | [] => [rev cur]
      | a :: s' =>
          if starts_with sep s
          then rev cur :: split_go fuel' sep [] (skipn (length sep) s)
          else split_go fuel' sep (a :: cur) s'
      end
  end.

Definition split (sep s : jsstring) : list jsstring :=
  split_go (S (length s)) sep [] s.

(** White space and line terminators, as [String.prototype.trim] sees
    them. *)
Definition is_line_terminator (c : N) : bool :=
  ((c =? 10) || (c =? 13) || (c =? 8232) || (c =? 8233))%N.

Definition is_white_space (c : N) : bool :=
  ((c =? 9) || (c =? 11) || (c =? 12) || (c =? 32) || (c =? 160)
   || (c =? 5760) || ((8192 <=? c) && (c <=? 8202)) || (c =? 8239)
   || (c =? 8287) || (c =? 12288) || (c =? 65279))%N
  || is_line_terminator c.

Fixpoint trim_start (s : jsstring) : jsstring :=
  match s with
  | c :: s' => if is_white_space c then trim_start s' else s
  | [] => []
  end.

Definition trim (s : jsstring) : jsstring :=
  rev (trim_start (rev (trim_start s))).

(** [n.toString()] for a non-negative integer. *)
Definition nat_to_string (n : nat) : jsstring :=
  lit (NilZero.string_of_uint (Nat.to_uint n)).

(** ** [ToNumber] on a string, restricted to integer literals

    Accepted: the empty string (0) and an optional sign followed by
    decimal digits; surrounding white space is ignored as in the language.
    Other texts (fractions, exponents, [0x..], [Infinity], non-numeric text
    giving NaN) are outside the fragment. *)

Definition digit_value (c : N) : option Z :=
  if ((48 <=? c) && (c <=? 57))%N then Some (Z.of_N c - 48)%Z else None.

Fixpoint parse_digits (acc : Z) (s : jsstring) : option Z :=
  match s with
  | [] => Some acc
  | c :: s' =>
      match digit_value c with
      | Some d => parse_digits (10 * acc + d)%Z s'
      | None => None
      end
  end.

Definition parse_unsigned (s : jsstring) : option Z :=
  match s with
  | [] => None
  | _ :: _ => parse_digits 0%Z s
  end.

Definition ToNumber (s : jsstring) : outcome Z :=
  match trim s with
  | [] => Ret 0%Z
  | c :: s' =>
      if (c =? 43)%N then
        match parse_unsigned s' with Some z => exact z | None => Unmodelled end
      else if (c =? 45)%N then
        match parse_unsigned s' with Some z => exact (- z)%Z | None => Unmodelled end
      else
        match parse_unsigned (c :: s') with Some z => exact z | None => Unmodelled end
  end.

(** [String.fromCharCode(x)]: [ToUint16] of an integer. *)
Definition fromCharCode (x : Z) : N := Z.to_N (x mod 65536)%Z.

(** [a.slice(0, e)] for an integer [e]. *)
Definition slice0 {A : Type} (a : list A) (e : Z) : list A :=
  let len := Z.of_nat (length a) in
  let final := if (e <? 0)%Z then Z.max (len + e) 0 else Z.min e len in
  firstn (Z.to_nat final) a.

(** [a.indexOf(c)]: [None] stands for -1. *)
Fixpoint indexOf (c : N) (a : list N) : option nat :=
  match a with
  | [] => None
  | x :: a' => if (x =? c)%N then Some O
               else match indexOf c a' with
                    | Some i => Some (S i)
                    | None => None
                    end
  end.

End JS.

Import JS.

Declare Scope outcome_scope.
Delimit Scope outcome_scope with outcome.
Notation "x <- m ;; k" := (bind m (fun x => k))
  (at level 61, m at next level, right associativity) : outcome_scope.
Notation "' ( x , y ) <- m ;; k" := (bind m (fun '(x, y) => k))
  (at level 61, x name, y name, m at next level, right associativity) : outcome_scope.
Local Open Scope outcome_scope.

(* ================================================================== *)
(** * Platform text codecs: [TextDecoder("utf-8")] and [decodeURIComponent] *)
(* ================================================================== *)

Module Codec.

(** State of the UTF-8 decoder of the Encoding Standard. *)
Record utf8_state : Type := {
  code_point : N;
  bytes_seen : nat;
  bytes_needed : nat;
  lower_boundary : N;
  upper_boundary : N
}.

Definition idle : utf8_state :=
  {| code_point := 0; bytes_seen := 0; bytes_needed := 0;
     lower_boundary := 128; upper_boundary := 191 |}.

Definition REPLACEMENT : N := 65533.

Definition emit (c : N) (m : outcome (list N)) : outcome (list N) :=
  cps <- m ;; Ret (c :: cps).

(** Error mode of the decoder: [fatal] throws, otherwise U+FFFD is
    emitted and decoding goes on. *)
Definition on_error (fatal : bool) (m : outcome (list N)) : outcome (list N) :=
  if fatal then Throw TypeError else emit REPLACEMENT m.

(** One byte read with no pending sequence; [rest] decodes the bytes that
    follow from the state it is given. *)
Definition lead_step (fatal : bool) (b : N)
  (rest : utf8_state -> outcome (list N)) : outcome (list N) :=
  if (b <=? 127)%N then emit b (rest idle)
  else if ((194 <=? b) && (b <=? 223))%N then
    rest {| code_point := N.land b 31; bytes_seen := 0; bytes_needed := 1;
            lower_boundary := 128; upper_boundary := 191 |}
  else if ((224 <=? b) && (b <=? 239))%N then
    rest {| code_point := N.land b 15; bytes_seen := 0; bytes_needed := 2;
            lower_boundary := if (b =? 224)%N then 160 else 128;
            upper_boundary := if (b =? 237)%N then 159 else 191 |}
  else if ((240 <=? b) && (b <=? 244))%N then
    rest {| code_point := N.land b 7; bytes_seen := 0; bytes_needed := 3;
            lower_boundary := if (b =? 240)%N then 144 else 128;
            upper_boundary := if (b =? 244)%N then 143 else 191 |}
  else on_error fatal (rest idle).

Fixpoint utf8_decode (fatal : bool) (st : utf8_state) (bytes : list N)
  : outcome (list N) :=
  match bytes with
  | [] =>
      if Nat.eqb (bytes_needed st) 0 then Ret []
      else on_error fatal (Ret [])
  | b :: bs =>
      if Nat.eqb (bytes_needed st) 0 then
        lead_step fatal b (fun st' => utf8_decode fatal st' bs)
      else if ((b <? lower_boundary st) || (upper_boundary st <? b))%N then
        (* the byte is put back and read again with no pending sequence *)
        on_error fatal (lead_step fatal b (fun st' => utf8_decode fatal st' bs))
      else
        let cp := N.lor (N.shiftl (code_point st) 6) (N.land b 63) in
        let seen := S (bytes_seen st) in
        if Nat.eqb seen (bytes_needed st)
        then emit cp (utf8_decode fatal idle bs)
        else utf8_decode fatal
               {| code_point := cp; bytes_seen := seen;
                  bytes_needed := bytes_needed st;
                  lower_boundary := 128; upper_boundary := 191 |} bs
  end.

(** A byte sequence is valid UTF-8 when the decoder reads it to the end
    without meeting an error. *)
Definition valid_utf8 (bytes : list N) : bool :=
  match utf8_decode true idle bytes with
  | Ret _ => true
  | _ => false
  end.

(** A code point as UTF-16 code units. *)
Definition utf16_encode (cp : N) : jsstring :=
  if (cp <? 65536)%N then [cp]
  else let c := (cp - 65536)%N in
       [(55296 + c / 1024)%N; (56320 + c mod 1024)%N].

Definition strip_bom (ignoreBOM : bool) (cps : list N) : list N :=
  if ignoreBOM then cps
  else match cps with
       | c :: cps' => if (c =? 65279)%N then cps' else cps
       | [] => []
       end.

(** [new TextDecoder("utf-8", { fatal, ignoreBOM }).decode(bytes)] *)
Definition TextDecoder_decode (fatal ignoreBOM : bool) (bytes : list N)
  : outcome jsstring :=
  cps <- utf8_decode fatal idle bytes ;;
  Ret (flat_map utf16_encode (strip_bom ignoreBOM cps)).

(** ** [decodeURIComponent] *)

Definition hex_value (c : N) : option N :=
  if ((48 <=? c) && (c <=? 57))%N then Some (c - 48)%N
  else if ((65 <=? c) && (c <=? 70))%N then Some (c - 55)%N
  else if ((97 <=? c) && (c <=? 102))%N then Some (c - 87)%N
  else None.

(** The two hexadecimal digits after a ["%"]. *)
Definition read_octet (s : jsstring) : option (N * jsstring) :=
  match s with
  | h1 :: h2 :: rest =>
      match hex_value h1, hex_value h2 with
      | Some a, Some b => Some (16 * a + b, rest)%N
      | _, _ => None
      end
  | _ => None
  end.

(** [n] further escapes ["%XX"]. *)
Fixpoint read_continuations (n : nat) (s : jsstring)
  : option (list N * jsstring) :=
  match n with
  | O => Some ([], s)
  | S n' =>
      match s with
      | c :: s1 =>
          if (c =? 37)%N then
            match read_octet s1 with
            | Some (b, s2) =>
                match read_continuations n' s2 with
                | Some (bs, s3) => Some (b :: bs, s3)
                | None => None
                end
            | None => None
            end
          else None
      | [] => None
      end
  end.

(** Number of leading 1 bits of an octet, capped at 5. *)
Definition leading_ones (b : N) : nat :=
  if (b <? 128)%N then 0
  else if (b <? 192)%N then 1
  else if (b <? 224)%N then 2
  else if (b <? 240)%N then 3
  else if (b <? 248)%N then 4
  else 5.

Fixpoint decode_uri_go (fuel : nat) (s : jsstring) : outcome jsstring :=
  match fuel with
  | O => Diverge
  | S fuel' =>
      match s with
      | [] => Ret []
      | c :: s1 =>
          if (c =? 37)%N then
            match read_octet s1 with
            | None => Throw URIError
            | Some (b, s2) =>
                match leading_ones b with
                | O => r <- decode_uri_go fuel' s2 ;; Ret (b :: r)
                | 1%nat => Throw URIError
                | S (S (S (S (S _)))) => Throw URIError
                | S n' =>
                    match read_continuations n' s2 with
                    | None => Throw URIError
                    | Some (bs, s3) =>
                        match utf8_decode true idle (b :: bs) with
                        | Ret [v] =>
                            r <- decode_uri_go fuel' s3 ;; Ret (utf16_encode v ++ r)
                        | _ => Throw URIError
                        end
                    end
                end
            end
          else r <- decode_uri_go fuel' s1 ;; Ret (c :: r)
      end
  end.

Definition decodeURIComponent (s : jsstring) : outcome jsstring :=
  decode_uri_go (S (length s)) s.

End Codec.

Import Codec.

(* ================================================================== *)
(** * utils.ts *)
(* ================================================================== *)

Definition fixThumbnail (url : jsstring) : outcome jsstring :=
  let toReplace := lit "https://snapinsta.app/photo.php?photo=" in
  if includes toReplace url
  then decodeURIComponent (remove_first toReplace url)
  else Ret url.

(* ================================================================== *)
(** * class SnapSaveDecoder *)
(* ================================================================== *)

Module SnapSaveDecoder.

Definition charset : jsstring :=
  lit "0123456789abcdefghijklmnopqrstuvwxyzABCDEFGHIJKLMNOPQRSTUVWXYZ+/".

(** The callback of [reduce] in [decodeNumber]. *)
Definition reduce_step (fromCharset : jsstring) (fromBase : Z)
  (sum : Z) (char : N) (index : nat) : outcome Z :=
  match indexOf char fromCharset with
  | Some k =>
      p <- exact (fromBase ^ Z.of_nat index) ;;
      t <- exact (Z.of_nat k * p) ;;
      exact (sum + t)
  | None => Ret sum
  end.

Fixpoint reduce (fromCharset : jsstring) (fromBase : Z)
  (sum : Z) (index : nat) (chars : list N) : outcome Z :=
  match chars with
  | [] => Ret sum
  | char :: chars' =>
      sum' <- reduce_step fromCharset fromBase sum char index ;;
      reduce fromCharset fromBase sum' (S index) chars'
  end.

(** The code units of [value], reversed and folded by [reduce] from 0. *)
Definition toDecimal (value : jsstring) (fromBase : Z) : outcome Z :=
  reduce (slice0 charset fromBase) fromBase 0 0 (rev value).

(** [while (decimal > 0) { ... }] *)
Fixpoint encode_loop (fuel : nat) (toCharset : jsstring) (toBase : Z)
  (decimal : Z) (result : jsstring) : outcome jsstring :=
  match fuel with
  | O => Diverge
  | S fuel' =>
      if (decimal >? 0)%Z then
        if (toBase =? 0)%Z then Unmodelled
        else
          let r := Z.rem decimal toBase in
          encode_loop fuel' toCharset toBase (Z.quot (decimal - r) toBase)
            (to_string_unit (nth_error toCharset (Z.to_nat r)) ++ result)
      else Ret result
  end.

(** The second half of [decodeNumber]: [decimal] written with the first
    [toBase] symbols, ["0"] when the loop produced nothing. *)
Definition reencode (fuel : nat) (decimal toBase : Z) : outcome jsstring :=
  result <- encode_loop fuel (slice0 charset toBase) toBase decimal [] ;;
  Ret (match result with [] => lit "0" | _ :: _ => result end).

Definition decodeNumber (fuel : nat) (value : jsstring) (fromBase toBase : Z)
  : outcome jsstring :=
  decimal <- toDecimal value fromBase ;;
  reencode fuel decimal toBase.

(** Vocabulary for the converter: the symbol of digit value [d], the
    value of a digit list (least significant digit first), and the digit
    lists the re-encoding loop produces (every digit below the base, every
    remaining value positive). *)
Definition digit (d : Z) : N := nth (Z.to_nat d) charset 0%N.

Fixpoint value (b : Z) (ds : list Z) : Z :=
  match ds with
  | [] => 0
  | d :: ds' => d + b * value b ds'
  end.

Fixpoint produced (b : Z) (ds : list Z) : Prop :=
  match ds with
  | [] => True
  | d :: ds' => (0 <= d < b)%Z /\ (0 < value b (d :: ds'))%Z /\ produced b ds'
  end.

Fixpoint distinct (l : list N) : bool :=
  match l with
  | [] => true
  | x :: l' => negb (existsb (N.eqb x) l') && distinct l'
  end.

(** What the one-character regular expression [new RegExp(c, "g")]
    matches. *)
Inductive unit_pattern : Type :=
| PLiteral (c : N)   (* the character itself *)
| PAny               (* "." : any character but a line terminator *)
| PStart             (* "^" : the empty string at the start *)
| PEnd               (* "$" : the empty string at the end *)
| PEmpty.            (* "|" : the empty string, everywhere *)

Definition compile_unit (c : N) : outcome unit_pattern :=
  if (c =? 94)%N then Ret PStart
  else if (c =? 36)%N then Ret PEnd
  else if (c =? 46)%N then Ret PAny
  else if (c =? 124)%N then Ret PEmpty
  else if ((c =? 92) || (c =? 42) || (c =? 43) || (c =? 63)
           || (c =? 40) || (c =? 41) || (c =? 91))%N then Throw SyntaxError
  else Ret (PLiteral c).

(** [segment.replace(pattern, rep)] with the global flag; [rep] holds no
    ["$"]. *)
Definition replace_all (p : unit_pattern) (rep s : jsstring) : jsstring :=
  match p with
  | PLiteral c => flat_map (fun x => if (x =? c)%N then rep else [x]) s
  | PAny => flat_map (fun x => if is_line_terminator x then [x] else rep) s
  | PStart => rep ++ s
  | PEnd => s ++ rep
  | PEmpty => fold_right (fun x acc => rep ++ x :: acc) rep s
  end.

(** [for (let j = 0; j < charMap.length; j++) segment = segment.replace(...)],
    from index [j] on; [rest] is [charMap] from [j]. *)
Fixpoint substitute_from (j : nat) (rest : jsstring) (segment : jsstring)
  : outcome jsstring :=
  match rest with
  | [] => Ret segment
  | c :: rest' =>
      p <- compile_unit c ;;
      substitute_from (S j) rest' (replace_all p (nat_to_string j) segment)
  end.

Definition substitute (charMap segment : jsstring) : outcome jsstring :=
  substitute_from 0 charMap segment.

(** [while (encodedContent[i] !== charMap[Number(base)]) { segment +=
    encodedContent[i]; i++; }] with [delimiter] the value of
    [charMap[Number(base)]].  The loop does not test [i] against the
    length of the text: past the end [encodedContent[i]] is [undefined],
    and the text ["undefined"] is appended to the segment for as long as
    the engine can hold the string. *)
Fixpoint scan (fuel : nat) (encodedContent : jsstring) (delimiter : option N)
  (i : nat) (segment : jsstring) : outcome (nat * jsstring) :=
  match fuel with
  | O => Diverge
  | S fuel' =>
      if strict_eq_unit (nth_error encodedContent i) delimiter
      then Ret (i, segment)
      else
        segment' <- concat segment (to_string_unit (nth_error encodedContent i)) ;;
        scan fuel' encodedContent delimiter (S i) segment'
  end.

(** The turns the scan makes on a text of [len] units that does not hold
    the delimiter, from the start of the text: one for each unit of the
    text, one for each ["undefined"] that still fits in the segment, and
    the one that overflows. *)
Definition unterminated_steps (len : N) : N :=
  (len + (MAX_STRING_LENGTH - len) / 9 + 1)%N.

(** [charMap[n]] for an integer [n]. *)
Definition char_at (s : jsstring) (n : Z) : option N :=
  if (n <? 0)%Z then None else nth_error s (Z.to_nat n).

(** [charMap[Number(base)]]: [Number(undefined)] is NaN, and a string has
    no property of that name. *)
Definition delimiter_of (charMap : jsstring) (base : option jsstring)
  : outcome (option N) :=
  match base with
  | Some s => b <- ToNumber s ;; Ret (char_at charMap b)
  | None => Ret None
  end.

(** [decodeNumber] when its [fromBase] is [undefined].  The source
    alphabet [charset.slice(0, undefined)] is the whole alphabet, and
    [Math.pow(undefined, index)] is 1 for index 0 and NaN after it; a
    product or a sum with NaN is NaN. *)
Definition pow_undefined (index : nat) : num :=
  match index with
  | O => Int 1
  | S _ => NaN
  end.

Definition mul_num (k : Z) (p : num) : outcome num :=
  match p with
  | Int z => t <- exact (k * z) ;; Ret (Int t)
  | NaN => Ret NaN
  end.

Definition add_num (a b : num) : outcome num :=
  match a, b with
  | Int x, Int y => t <- exact (x + y) ;; Ret (Int t)
  | _, _ => Ret NaN
  end.

Definition reduce_step_undefined (sum : num) (char : N) (index : nat)
  : outcome num :=
  match indexOf char charset with
  | Some k =>
      t <- mul_num (Z.of_nat k) (pow_undefined index) ;;
      add_num sum t
  | None => Ret sum
  end.

Fixpoint reduce_undefined (sum : num) (index : nat) (chars : list N)
  : outcome num :=
  match chars with
  | [] => Ret sum
  | char :: chars' =>
      sum' <- reduce_step_undefined sum char index ;;
      reduce_undefined sum' (S index) chars'
  end.

(** [decodeNumber(segment, base, toBase)] as the loop calls it: the second
    argument is [base] itself, a numeric text or [undefined].  A text is
    converted by [slice] and [Math.pow] to the number it denotes.  With
    NaN for [decimal] the test [decimal > 0] is false and the result is
    ["0"]. *)
Definition decodeNumber_of (fuel : nat) (value : jsstring)
  (fromBase : option jsstring) (toBase : Z) : outcome jsstring :=
  match fromBase with
  | Some s => b <- ToNumber s ;; decodeNumber fuel value b toBase
  | None =>
      decimal <- reduce_undefined (Int 0) 0 (rev value) ;;
      match decimal with
      | Int z => reencode fuel z toBase
      | NaN => Ret (lit "0")
      end
  end.

(** [v - subtractValue] for the number [v]: NaN when [subtractValue] is
    [undefined]. *)
Definition subtract (v : Z) (subtractValue : option jsstring) : outcome num :=
  match subtractValue with
  | Some s => off <- ToNumber s ;; code <- exact (v - off) ;; Ret (Int code)
  | None => Ret NaN
  end.

(** [String.fromCharCode] of a number: NaN converts to 0. *)
Definition fromCharCode_num (x : num) : N :=
  match x with
  | Int z => fromCharCode z
  | NaN => 0%N
  end.

(** The [Uint8Array] made of the code units of [str]: each is reduced
    modulo 256. *)
Definition bytes_of (str : jsstring) : list N :=
  map (fun char => (char mod 256)%N) str.

(** [private fixEncoding(str)] *)
Definition fixEncoding (str : jsstring) : outcome jsstring :=
  let bytes := bytes_of str in
  TextDecoder_decode false false bytes.

(** The outer [for] loop of [decodeSnapApp], from position [i].  The
    result grows by one code unit for each turn, so it stays shorter than
    the text. *)
Fixpoint segments (fuel : nat) (encodedContent : jsstring)
  (charMap subtractValue base : option jsstring)
  (i : nat) (decodedResult : jsstring) : outcome jsstring :=
  match fuel with
  | O => Diverge
  | S fuel' =>
      if Nat.ltb i (length encodedContent) then
        match charMap with
        | None => Throw TypeError
        | Some cm =>
            delimiter <- delimiter_of cm base ;;
            '(i', segment) <- scan fuel encodedContent delimiter i [] ;;
            segment' <- substitute cm segment ;;
            digits <- decodeNumber_of fuel segment' base 10 ;;
            v <- ToNumber digits ;;
            code <- subtract v subtractValue ;;
            segments fuel' encodedContent charMap subtractValue base (S i')
              (decodedResult ++ [fromCharCode_num code])
        end
      else Ret decodedResult
  end.

(** [private decodeSnapApp(args)] *)
Definition decodeSnapApp (fuel : nat) (args : list jsstring) : outcome jsstring :=
  match nth_error args 0 with
  | None => Throw TypeError
  | Some encodedContent =>
      decodedResult <-
        segments fuel encodedContent (nth_error args 2) (nth_error args 3)
          (nth_error args 4) 0 [] ;;
      fixEncoding decodedResult
  end.

(** [private getEncodedSnapApp(data)].  Element 1 of a split is
    [undefined] when the marker is absent, and calling [split] on it is
    a [TypeError]; element 0 always exists. *)
Definition getEncodedSnapApp (data : jsstring) : outcome (list jsstring) :=
  match nth_error (split (lit "decodeURIComponent(escape(r))}(") data) 1 with
  | None => Throw TypeError
  | Some tail =>
      match split (lit "))") tail with
      | [] => Throw TypeError
      | inner :: _ =>
          Ret (map (fun v => trim (filter (fun c => negb (c =? 34)%N) v))
                 (split (lit ",") inner))
      end
  end.

(** The global replacement of [/\\(\\)?/] by the empty string: every
    backslash, together with a backslash that directly follows it, is
    removed. *)
Fixpoint unescape (s : jsstring) : jsstring :=
  match s with
  | [] => []
  | c :: s1 =>
      if (c =? 92)%N then
        match s1 with
        | c2 :: s2 => if (c2 =? 92)%N then unescape s2 else unescape s1
        | [] => []
        end
      else c :: unescape s1
  end.

(** The two markers around the embedded HTML; [dq] is the double quote. *)
Definition dq : jsstring := [34%N].

Definition html_open : jsstring :=
  lit "getElementById(" ++ dq ++ lit "download-section" ++ dq
  ++ lit ").innerHTML = " ++ dq.

Definition html_close : jsstring :=
  dq ++ lit "; document.getElementById(" ++ dq ++ lit "inputData" ++ dq
  ++ lit ").remove(); ".

(** [private getDecodedSnapSave(data)] *)
Definition getDecodedSnapSave (data : jsstring) : outcome jsstring :=
  match nth_error (split html_open data) 1 with
  | None => Throw TypeError
  | Some tail =>
      match split html_close tail with
      | [] => Throw TypeError
      | html :: _ => Ret (unescape html)
      end
  end.

(** [public decrypt(data)] *)
Definition decrypt (fuel : nat) (data : jsstring) : outcome jsstring :=
  args <- getEncodedSnapApp data ;;
  decoded <- decodeSnapApp fuel args ;;
  getDecodedSnapSave decoded.

End SnapSaveDecoder.

(* ================================================================== *)
(** * The parsed document and the cheerio queries the program makes *)
(* ================================================================== *)

Module Dom.

(** An element carries its tag name, its class list, its other
    attributes and its children. *)
#[warning="-register-all"]
Inductive node : Type :=
| Element (tag : string) (classes : list string)
    (attrs : list (string * jsstring)) (children : list node)
| Text (data : jsstring).

(** What [load] returns: the nodes at the top of the document. *)
Record document : Type := { top : list node }.

(** An element of the document together with its position (the child
    indices leading to it, which identify it) and its parent element. *)
Record located : Type := {
  path : list nat;
  parent : option node;
  elem : node
}.

Definition is_element (n : node) : bool :=
  match n with Element _ _ _ _ => true | Text _ => false end.

(** The elements strictly below [n], in document order; [here] is the
    position of [n]. *)
Fixpoint below (here : list nat) (n : node) {struct n} : list located :=
  match n with
  | Text _ => []
  | Element _ _ _ cs =>
      (fix go (i : nat) (l : list node) {struct l} : list located :=
         match l with
         | [] => []
         | c :: l' =>
             (if is_element c
              then [{| path := here ++ [i]; parent := Some n; elem := c |}]
              else [])
             ++ below (here ++ [i]) c ++ go (S i) l'
         end) 0 cs
  end.

(** All elements of the document, in document order. *)
Fixpoint all_from (i : nat) (l : list node) : list located :=
  match l with
  | [] => []
  | c :: l' =>
      (if is_element c
       then [{| path := [i]; parent := None; elem := c |}]
       else [])
      ++ below [i] c ++ all_from (S i) l'
  end.

Definition all_elements (d : document) : list located := all_from 0 (top d).

(** The text of a node and of everything below it. *)
Fixpoint textContent (n : node) : jsstring :=
  match n with
  | Text data => data
  | Element _ _ _ cs =>
      (fix go (l : list node) : jsstring :=
         match l with
         | [] => []
         | c :: l' => textContent c ++ go l'
         end) cs
  end.

Definition get_attr (name : string) (n : node) : option jsstring :=
  match n with
  | Text _ => None
  | Element _ _ attrs _ =>
      match find (fun kv => String.eqb (fst kv) name) attrs with
      | Some kv => Some (snd kv)
      | None => None
      end
  end.

(** The selectors of the program: [tag], [tag.class], and [p > c] with
    both sides of one of these two forms. *)
Inductive simple : Type :=
| Tag (t : string)
| TagClass (t c : string).

Inductive selector : Type :=
| Simple (s : simple)
| Child (p c : simple).

Definition matches_simple (s : simple) (n : node) : bool :=
  match n with
  | Text _ => false
  | Element tag classes _ _ =>
      match s with
      | Tag t => String.eqb tag t
      | TagClass t c => String.eqb tag t && existsb (String.eqb c) classes
      end
  end.

Definition matches (s : selector) (x : located) : bool :=
  match s with
  | Simple c => matches_simple c (elem x)
  | Child p c =>
      matches_simple c (elem x) &&
      match parent x with
      | Some par => matches_simple p par
      | None => false
      end
  end.

(** A cheerio selection: elements in document order, each once. *)
Definition selection := list located.

(** [$(sel)] *)
Definition select (d : document) (s : selector) : selection :=
  filter (matches s) (all_elements d).

Definition path_eqb (p q : list nat) : bool :=
  if list_eq_dec Nat.eq_dec p q then true else false.

(** Keeps the first occurrence of every element. *)
Fixpoint uniq (seen : list (list nat)) (l : selection) : selection :=
  match l with
  | [] => []
  | x :: l' =>
      if existsb (path_eqb (path x)) seen then uniq seen l'
      else x :: uniq (path x :: seen) l'
  end.

(** [sel.find(s)]: the elements below some member of [sel] that match
    [s]. *)
Definition q_find (s : selector) (sel : selection) : selection :=
  uniq [] (flat_map (fun x => filter (matches s) (below (path x) (elem x))) sel).

(** [sel.eq(i)] *)
Definition q_eq (i : nat) (sel : selection) : selection :=
  match nth_error sel i with
  | Some x => [x]
  | None => []
  end.

(** [sel.text()] *)
Definition q_text (sel : selection) : jsstring :=
  flat_map (fun x => textContent (elem x)) sel.

(** [sel.attr(name)] *)
Definition q_attr (name : string) (sel : selection) : option jsstring :=
  match sel with
  | x :: _ => get_attr name (elem x)
  | [] => None
  end.

(** [$(el)] for the element handed to an [each] callback. *)
Definition wrap (x : located) : selection := [x].

End Dom.

Import Dom.

(* ================================================================== *)
(** * Result types ([./types]) *)
(* ================================================================== *)

Inductive media_type : Type := image | video.

Record SnapSaveDownloaderMedia : Type := {
  resolution : option jsstring;
  shouldRender : option bool;
  thumbnail : option jsstring;
  type : option media_type;
  url : option jsstring
}.

Record SnapSaveDownloaderData : Type := {
  description : option jsstring;
  preview : option jsstring;
  media : option (list SnapSaveDownloaderMedia)
}.

Record SnapSaveDownloaderResponse : Type := {
  success : bool;
  message : option jsstring;
  data : option SnapSaveDownloaderData
}.

(* ================================================================== *)
(** * class MediaExtractor *)
(* ================================================================== *)

Module MediaExtractor.

Local Open Scope string_scope.
Local Open Scope list_scope.

(** Case folding of the [i] flag without the [u] flag, on the characters
    that can meet an ASCII pattern: ASCII letters fold to upper case, and
    no other character folds to an ASCII one. *)
Definition canonicalize (c : N) : N :=
  if ((97 <=? c) && (c <=? 122))%N then (c - 32)%N else c.

Fixpoint starts_with_ci (p s : jsstring) : bool :=
  match p, s with
  | [], _ => true
  | a :: p', b :: s' =>
      (canonicalize a =? canonicalize b)%N && starts_with_ci p' s'
  | _ :: _, [] => false
  end.

(** [/get_progressApi/ig.test(s)] on a fresh expression object. *)
Fixpoint test_progressApi (s : jsstring) : bool :=
  starts_with_ci (lit "get_progressApi") s ||
  match s with
  | [] => false
  | _ :: s' => test_progressApi s'
  end.

(** The lazy group [(.*?)] followed by the closing [')]: the shortest run
    of characters, none a line terminator, before [')]. *)
Fixpoint lazy_group (s acc : jsstring) : option jsstring :=
  if starts_with (lit "')") s then Some (rev acc)
  else match s with
       | [] => None
       | c :: s' =>
           if is_line_terminator c then None else lazy_group s' (c :: acc)
       end.

(** Group 1 of [/get_progressApi\('(.*?)'\)/.exec(s)], [None] when the
    expression does not match: the leftmost start is tried first. *)
Fixpoint exec_progressApi (s : jsstring) : option jsstring :=
  let opening := lit "get_progressApi('" in
  let later := match s with
               | [] => None
               | _ :: s' => exec_progressApi s'
               end in
  if starts_with opening s then
    match lazy_group (skipn (length opening) s) [] with
    | Some g => Some g
    | None => later
    end
  else later.

Definition nonempty (s : jsstring) : option jsstring :=
  match s with
  | [] => None
  | _ :: _ => Some s
  end.

(** [public extractMetadata($)] *)
Definition extractMetadata (d : document) : SnapSaveDownloaderData :=
  let description := trim (q_text (select d (Simple (TagClass "span" "video-des")))) in
  let preview :=
    q_attr "src" (q_find (Simple (Tag "img"))
                    (select d (Child (TagClass "article" "media") (Tag "figure")))) in
  {| description := nonempty description;
     preview := if truthy preview then preview else None;
     media := None |}.

(** The callback of [each] in [extractTableMedia], after its two reads of
    the row: [resolution] is the text of the first cell, [mediaUrl] the
    action value of the third. *)
Definition table_entry (resolution : jsstring) (mediaUrl : option jsstring)
  : SnapSaveDownloaderMedia :=
  let shouldRender := test_progressApi (to_string_opt (or_else mediaUrl (Some []))) in
  let mediaUrl :=
    if shouldRender
    then or_else
           (Some (lit "https://snapsave.app"
                  ++ to_string_opt
                       (exec_progressApi (to_string_opt (or_else mediaUrl (Some [])))))%list)
           mediaUrl
    else mediaUrl in
  {| resolution := Some resolution;
     shouldRender := if shouldRender then Some true else None;
     thumbnail := None;
     type := Some (if truthy (Some resolution) then video else image);
     url := mediaUrl |}.

(** The action value of a row: the [href] of the anchor in the third
    cell, or else the [onclick] of its button. *)
Definition row_action (el : located) : option jsstring :=
  let td := q_find (Simple (Tag "td")) (wrap el) in
  or_else (q_attr "href" (q_find (Simple (Tag "a")) (q_eq 2 td)))
          (q_attr "onclick" (q_find (Simple (Tag "button")) (q_eq 2 td))).

Definition row_resolution (el : located) : jsstring :=
  let td := q_find (Simple (Tag "td")) (wrap el) in
  q_text (q_eq 0 td).

(** The callback of [each] in [extractTableMedia]. *)
Definition table_row (el : located) : SnapSaveDownloaderMedia :=
  table_entry (row_resolution el) (row_action el).

(** [public extractTableMedia($)] *)
Definition extractTableMedia (d : document) : list SnapSaveDownloaderMedia :=
  map table_row (select d (Child (Tag "tbody") (Tag "tr"))).

Definition photo_label : jsstring := lit "Download Photo".

(** [label === "Download Photo" ? "image" : "video"] *)
Definition type_of_label (label : jsstring) : media_type :=
  if str_eqb label photo_label then image else video.

(** [aText] in the callback of [extractCardMedia]. *)
Definition card_label (el : located) : jsstring :=
  let cardBody := q_find (Simple (TagClass "div" "card-body")) (wrap el) in
  trim (q_text (q_find (Simple (Tag "a")) cardBody)).

(** The callback of [each] in [extractCardMedia]. *)
Definition card (el : located) : SnapSaveDownloaderMedia :=
  let cardBody := q_find (Simple (TagClass "div" "card-body")) (wrap el) in
  let aText := card_label el in
  let url := q_attr "href" (q_find (Simple (Tag "a")) cardBody) in
  let type := type_of_label aText in
  {| resolution := None; shouldRender := None; thumbnail := None;
     type := Some type; url := url |}.

(** [public extractCardMedia($)] *)
Definition extractCardMedia (d : document) : list SnapSaveDownloaderMedia :=
  map card (select d (Simple (TagClass "div" "card"))).

(** A descriptor with a type and nothing else: no url, no resolution, no
    thumbnail, no flag. *)
Definition bare_video : SnapSaveDownloaderMedia :=
  {| resolution := None; shouldRender := None; thumbnail := None;
     type := Some video; url := None |}.

(** [aText] in [extractSimpleMedia]. *)
Definition simple_label (d : document) : jsstring :=
  trim (q_text (select d (Simple (Tag "a")))).

(** [public extractSimpleMedia($)] *)
Definition extractSimpleMedia (d : document) : list SnapSaveDownloaderMedia :=
  let url := or_else (q_attr "href" (select d (Simple (Tag "a"))))
                     (q_attr "onclick" (select d (Simple (Tag "button")))) in
  let aText := simple_label d in
  let type := type_of_label aText in
  [ {| resolution := None; shouldRender := None; thumbnail := None;
       type := Some type; url := url |} ].

(** [spanText] in the callback of [extractDownloadItemsMedia]. *)
Definition item_label (el : located) : jsstring :=
  let itemBtn := q_find (Simple (TagClass "div" "download-items__btn")) (wrap el) in
  trim (q_text (q_find (Simple (Tag "span")) itemBtn)).

(** The callback of [each] in [extractDownloadItemsMedia]; [fixThumbnail]
    can throw. *)
Definition download_item (el : located) : outcome SnapSaveDownloaderMedia :=
  let itemThumbnail :=
    q_attr "src" (q_find (Child (TagClass "div" "download-items__thumb") (Tag "img"))
                    (wrap el)) in
  let itemBtn := q_find (Simple (TagClass "div" "download-items__btn")) (wrap el) in
  let url := q_attr "href" (q_find (Simple (Tag "a")) itemBtn) in
  let spanText := item_label el in
  let type := type_of_label spanText in
  thumb <-
    match type, itemThumbnail with
    | video, Some (c :: t) => fixed <- fixThumbnail (c :: t) ;; Ret (Some fixed)
    | _, _ => Ret None
    end ;;
  Ret {| resolution := None; shouldRender := None; thumbnail := thumb;
         type := Some type; url := url |}.

(** [each] with a callback that can throw: the first exception ends the
    loop. *)
Fixpoint each {A B : Type} (f : A -> outcome B) (l : list A) : outcome (list B) :=
  match l with
  | [] => Ret []
  | x :: l' => y <- f x ;; ys <- each f l' ;; Ret (y :: ys)
  end.

(** [public extractDownloadItemsMedia($)] *)
Definition extractDownloadItemsMedia (d : document)
  : outcome (list SnapSaveDownloaderMedia) :=
  each download_item (select d (Simple (TagClass "div" "download-items"))).

End MediaExtractor.

(* ================================================================== *)
(** * class SnapSaverService *)
(* ================================================================== *)

Module SnapSaverService.

Import SnapSaveDecoder MediaExtractor.
Local Open Scope string_scope.
Local Open Scope list_scope.

(** Which arm of the layout dispatch in [download] ran. *)
Inductive layout : Type :=
| TableLayout | CardLayout | SimpleLayout | DownloadItemsLayout | NoLayout.

Definition present (sel : selection) : bool := negb (Nat.eqb (length sel) 0).

Definition table_marker (d : document) : bool :=
  present (select d (Simple (TagClass "table" "table"))).
Definition figure_marker (d : document) : bool :=
  present (select d (Child (TagClass "article" "media") (Tag "figure"))).
Definition card_marker (d : document) : bool :=
  present (select d (Simple (TagClass "div" "card"))).
Definition download_items_marker (d : document) : bool :=
  present (select d (Simple (TagClass "div" "download-items"))).

Definition no_data : SnapSaveDownloaderData :=
  {| description := None; preview := None; media := None |}.

(** The [if]/[else if] chain of [download] that fills [data] and [media];
    the first component records the arm that ran. *)
Definition extract (d : document)
  : layout * outcome (SnapSaveDownloaderData * list SnapSaveDownloaderMedia) :=
  if table_marker d || figure_marker d then
    let data := extractMetadata d in
    if table_marker d then (TableLayout, Ret (data, extractTableMedia d))
    else if card_marker d then (CardLayout, Ret (data, extractCardMedia d))
    else (SimpleLayout, Ret (data, extractSimpleMedia d))
  else if download_items_marker d then
    (DownloadItemsLayout,
     media <- extractDownloadItemsMedia d ;; Ret (no_data, media))
  else (NoLayout, Ret (no_data, [])).

Definition failure (text : string) : SnapSaveDownloaderResponse :=
  {| success := false; message := Some (lit text); data := None |}.

(** The three failure responses of [download]. *)
Definition invalid_url : SnapSaveDownloaderResponse :=
  failure "Invalid URL".
Definition no_media : SnapSaveDownloaderResponse :=
  failure "No downloadable media found".
Definition generic_failure : SnapSaveDownloaderResponse :=
  failure "Failed to process download request".

(** Its success response: [data.media = media; return { success: true,
    data }]. *)
Definition found (data : SnapSaveDownloaderData)
  (media : list SnapSaveDownloaderMedia) : SnapSaveDownloaderResponse :=
  {| success := true;
     message := None;
     data := Some {| description := description data;
                     preview := preview data;
                     media := Some media |} |}.

(** What [download] reaches outside the decoder and the extractor.  The
    platform patterns of [utils.ts] enter the workflow only through the
    boolean answer of the validator, and [normalizeURL] only through the
    request the transport sends. *)
Record collaborators : Type := {
  (** [UrlValidator.isValid]: whether the URL matches one of the three
      platform patterns. *)
  isValid : jsstring -> bool;
  (** [SnapSaveApiClient.fetchMedia]: the response text, or a rejection. *)
  fetchMedia : jsstring -> outcome jsstring;
  (** [load] of cheerio. *)
  load : jsstring -> document
}.

(** The body of the [try] block of [download]. *)
Definition download_try (env : collaborators) (fuel : nat) (url : jsstring)
  : outcome SnapSaveDownloaderResponse :=
  if negb (isValid env url) then Ret invalid_url
  else
    html <- fetchMedia env url ;;
    decodedHtml <- decrypt fuel html ;;
    let d := load env decodedHtml in
    '(data, media) <- snd (extract d) ;;
    if Nat.eqb (length media) 0 then Ret no_media
    else Ret (found data media).

(** [public async download(url)] *)
Definition download (env : collaborators) (fuel : nat) (url : jsstring)
  : outcome SnapSaveDownloaderResponse :=
  try_catch (download_try env fuel url) (fun _ => Ret generic_failure).

End SnapSaverService.

(* ================================================================== *)
(** * Concrete inputs used by the examples below *)
(* ================================================================== *)

Module Fixtures.

Import SnapSaveDecoder MediaExtractor SnapSaverService.
Local Open Scope string_scope.
Local Open Scope list_scope.

(** A payload for the symbol map ["abcdefghi"] with base 8 (delimiter
    ["i"]) and offset 1.  It decodes to the script text
    [document.getElementById("download-section").innerHTML = "..."; ...]
    around [figure_html], with the quotes of the HTML escaped. *)
Definition cipher_text : jsstring :=
  lit "befibgaibeeibggibfgibegibfhibgfifhibfaibegibgfibagibffibegibfgib"
  ++ lit "egibfhibgfibadibhcibbcibefifbiedibefibgaibhaibfhibffibgaibecibef"
  ++ lit "ifgibgeibegibeeibgfibfcibgaibfhiedifcifhibfcibfhibfhibegibgdibbb"
  ++ lit "ibcfibbgibbfiebihgiebiedihfibecibgdibgfibfcibeeibffibegiebibeeib"
  ++ lit "ffibecibgeibgeihgibdfiedibfgibegibefibfcibecibdfiedihhihfibehibf"
  ++ lit "cibfaibggibgdibegihhihfigaibehibfcibfaibggibgdibegihhihfigaibeci"
  ++ lit "bgdibgfibfcibeeibffibegihhiediheiebibefibgaibeeibggibfgibegibfhi"
  ++ lit "bgfifhibfaibegibgfibagibffibegibfgibegibfhibgfibadibhcibbcibefif"
  ++ lit "biedibfcibfhibgbibggibgfibafibecibgfibeciedifcifhibgdibegibfgibg"
  ++ lit "aibghibegifbifciheiebi".

Definition response_text : jsstring :=
  (lit "eval(function(h,u,n,t,e,r){return decodeURIComponent(escape(r))}("
   ++ dq ++ cipher_text ++ dq ++ lit ",12," ++ dq ++ lit "abcdefghi" ++ dq
   ++ lit ",1,8,5))")%list.

Definition figure_html : jsstring :=
  (lit "<article class=" ++ dq ++ lit "media" ++ dq
   ++ lit "><figure></figure></article>")%list.

(** The document of [figure_html]: a captioned-figure structure and
    nothing else. *)
Definition figure_document : document :=
  {| top := [Element "html" [] []
               [Element "head" [] [] [];
                Element "body" [] []
                  [Element "article" ["media"] []
                     [Element "figure" [] [] []]]]] |}.

Definition empty_document : document :=
  {| top := [Element "html" [] []
               [Element "head" [] [] []; Element "body" [] [] []]] |}.

(** A parser that knows [figure_html] only. *)
Definition load_figure (html : jsstring) : document :=
  if str_eqb html figure_html then figure_document else empty_document.

(** Collaborators that accept every URL and answer [response_text]. *)
Definition figure_service : collaborators :=
  {| isValid := fun _ => true;
     fetchMedia := fun _ => Ret response_text;
     load := load_figure |}.

(** Collaborators whose transport answers a text without the cipher
    call. *)
Definition broken_service : collaborators :=
  {| isValid := fun _ => true;
     fetchMedia := fun _ => Ret (lit "<html>Service unavailable</html>");
     load := load_figure |}.

(** Collaborators whose parser finds no structure at all. *)
Definition empty_service : collaborators :=
  {| isValid := fun _ => true;
     fetchMedia := fun _ => Ret response_text;
     load := fun _ => empty_document |}.

Definition post_url : jsstring := lit "https://www.instagram.com/p/ABC123def/".

Definition cell (kids : list node) : node := Element "td" [] [] kids.

(** A table row: resolution label, an unused cell, and the action cell. *)
Definition row (label : string) (action : node) : node :=
  Element "tr" [] [] [cell [Text (lit label)]; cell []; cell [action]].

Definition link_row : node :=
  row "720p" (Element "a" [] [("href", lit "https://cdn.example.com/v.mp4")]
                [Text (lit "Download")]).

Definition progress_row : node :=
  row "360p" (Element "button" []
                [("onclick", lit "get_progressApi('/render.php?token=abc')")]
                [Text (lit "Render")]).

(** A handler that names the progress API without the quoted argument
    the capture pattern asks for. *)
Definition odd_action : jsstring := lit "get_progressApi(token)".

Definition odd_progress_row : node :=
  row "360p" (Element "button" [] [("onclick", odd_action)]
                [Text (lit "Render")]).

Definition photo_row : node :=
  row "720p" (Element "a" [] [("href", lit "https://cdn.example.com/p.jpg")]
                [Text (lit "Download Photo")]).

Definition table_of (rows : list node) : node :=
  Element "table" ["table"] [] [Element "tbody" [] [] rows].

Definition page (body : list node) : document :=
  {| top := [Element "html" [] [] [Element "body" [] [] body]] |}.

(** A table together with a download-items block. *)
Definition table_and_items_document : document :=
  page [table_of [link_row; progress_row];
        Element "div" ["download-items"] []
          [Element "div" ["download-items__btn"] []
             [Element "a" [] [("href", lit "https://cdn.example.com/i.jpg")]
                [Element "span" [] [] [Text (lit "Download Photo")]]]]].

Definition odd_table_document : document := page [table_of [odd_progress_row]].

Definition no_element : located :=
  {| path := []; parent := None; elem := Text [] |}.

(** Row number [i] of the table of a document, as [each] hands it to the
    callback. *)
Definition table_row_at (d : document) (i : nat) : located :=
  nth i (select d (Child (Tag "tbody") (Tag "tr"))) no_element.

Definition photo_table_document : document := page [table_of [photo_row]].

(** A card whose anchor text has white space around the label. *)
Definition padded_card_document : document :=
  page [Element "article" ["media"] [] [Element "figure" [] [] []];
        Element "div" ["card"] []
          [Element "div" ["card-body"] []
             [Element "a" [] [("href", lit "https://cdn.example.com/p.jpg")]
                [Text (lit "  Download Photo ")]]]].

End Fixtures.

(* ================================================================== *)
(** * Vocabulary of the further properties *)
(* ================================================================== *)

Module Vocabulary.

(** A text that does not start with white space. *)
Definition starts_clean (s : jsstring) : Prop :=
  match s with
  | [] => True
  | c :: _ => is_white_space c = false
  end.

Definition not_backslash (c : N) : bool := negb (c =? 92)%N.

(** An outcome that is a text or a [URIError]. *)
Definition returns_or_uri_error (m : outcome jsstring) : Prop :=
  (exists r, m = Ret r) \/ m = Throw URIError.

(** A decimal digit character. *)
Definition is_decimal (c : N) : bool := ((48 <=? c) && (c <=? 57))%N.

End Vocabulary.

Import Vocabulary.

(* ================================================================== *)
(** * Further concrete inputs *)
(* ================================================================== *)

Module MoreFixtures.

Import SnapSaveDecoder MediaExtractor SnapSaverService Fixtures.
Local Open Scope string_scope.
Local Open Scope list_scope.

(** A card with a link, but neither a table nor a captioned figure
    around it. *)
Definition card_only_document : document :=
  page [Element "div" ["card"] []
          [Element "div" ["card-body"] []
             [Element "a" [] [("href", lit "https://cdn.example.com/p.jpg")]
                [Text (lit "Download Photo")]]]].

(** A table without rows, next to a download-items block. *)
Definition empty_table_document : document :=
  page [Element "table" ["table"] [] [];
        Element "div" ["download-items"] []
          [Element "div" ["download-items__btn"] []
             [Element "a" [] [("href", lit "https://cdn.example.com/i.jpg")]
                [Element "span" [] [] [Text (lit "Download Photo")]]]]].

(** A download-items block with a proxied thumbnail. *)
Definition items_document : document :=
  page [Element "div" ["download-items"] []
          [Element "div" ["download-items__thumb"] []
             [Element "img" []
                [("src", lit "https://snapinsta.app/photo.php?photo=https%3A%2F%2Fcdn.example.com%2Ft.jpg")]
                []];
           Element "div" ["download-items__btn"] []
             [Element "a" [] [("href", lit "https://cdn.example.com/v.mp4")]
                [Element "span" [] [] [Text (lit "Download Video")]]]]].

(** A caption and a preview image above a table. *)
Definition captioned_table_document : document :=
  page [Element "article" ["media"] []
          [Element "figure" [] []
             [Element "img" [] [("src", lit "https://cdn.example.com/prev.jpg")] []]];
        Element "span" ["video-des"] [] [Text (lit "  A short clip ")];
        table_of [link_row]].

(** Collaborators that answer [response_text] and parse it to a given
    document. *)
Definition service_of (d : document) : collaborators :=
  {| isValid := fun _ => true;
     fetchMedia := fun _ => Ret response_text;
     load := fun _ => d |}.

(** A response whose cipher text ["ab"] never reaches the delimiter
    ["z"]. *)
Definition unterminated_text : jsstring :=
  lit "decodeURIComponent(escape(r))}(" ++ dq ++ lit "ab" ++ dq ++ lit ",1,"
  ++ dq ++ lit "xyz" ++ dq ++ lit ",1,2,3))".

Definition unterminated_service : collaborators :=
  {| isValid := fun _ => true;
     fetchMedia := fun _ => Ret unterminated_text;
     load := load_figure |}.

(** A response whose call has three arguments only: the offset and the
    base are [undefined]. *)
Definition short_text : jsstring :=
  lit "decodeURIComponent(escape(r))}(" ++ dq ++ lit "ab" ++ dq ++ lit ",1,"
  ++ dq ++ lit "xyz" ++ dq ++ lit "))".

Definition short_service : collaborators :=
  {| isValid := fun _ => true;
     fetchMedia := fun _ => Ret short_text;
     load := load_figure |}.

End MoreFixtures.

(* ================================================================== *)
(** * Regular expressions, as the URL helpers use them *)
(* ================================================================== *)

Module Regex.

(** The fragment of the expression language that occurs in [utils.ts]:
    character classes, sequence, alternation, the star, the negative
    lookahead and the two anchors (without the [m] flag).  Groups only
    group here: the helpers use [test] and the truth value of [match],
    never a captured text. *)
Inductive regex : Type :=
| Eps
| Class (p : N -> bool)
| Seq (r1 r2 : regex)
| Alt (r1 r2 : regex)
| Star (r : regex)
| NotAhead (r : regex)
| Bol
| Eol.

(** Backtracking matcher in continuation style: [run r pos s k] holds
    when [r] matches a prefix of [s], which starts at index [pos] of the
    input, and [k] accepts the position and text that follow.  An
    iteration of a star that consumes nothing is not taken, as in the
    language. *)
Fixpoint run (r : regex) (pos : nat) (s : jsstring)
  (k : nat -> jsstring -> bool) {struct r} : bool :=
  match r with
  | Eps => k pos s
  | Class p =>
      match s with
      | c :: s' => p c && k (S pos) s'
      | [] => false
      end
  | Seq r1 r2 => run r1 pos s (fun pos' s' => run r2 pos' s' k)
  | Alt r1 r2 => run r1 pos s k || run r2 pos s k
  | Star r1 =>
      (fix loop (n : nat) (pos : nat) (s : jsstring) {struct n} : bool :=
         k pos s ||
         match n with
         | O => false
         | S n' =>
             run r1 pos s (fun pos' s' => Nat.ltb pos pos' && loop n' pos' s')
         end) (length s) pos s
  | NotAhead r1 => negb (run r1 pos s (fun _ _ => true)) && k pos s
  | Bol => Nat.eqb pos 0 && k pos s
  | Eol =>
      match s with
      | [] => k pos s
      | _ :: _ => false
      end
  end.

Definition accept : nat -> jsstring -> bool := fun _ _ => true.

(** The star of a character class, written out: stop here, or take one
    more character of the class. *)
Fixpoint star_class (p : N -> bool) (pos : nat) (s : jsstring)
  (k : nat -> jsstring -> bool) : bool :=
  k pos s ||
  match s with
  | c :: s' => p c && star_class p (S pos) s' k
  | [] => false
  end.

(** [r.test(s)] for an expression without the [g] flag: a match from
    some start index. *)
Fixpoint test_from (r : regex) (pos : nat) (s : jsstring) : bool :=
  run r pos s accept ||
  match s with
  | [] => false
  | _ :: s' => test_from r (S pos) s'
  end.

Definition test (r : regex) (s : jsstring) : bool := test_from r 0 s.

(** An expression that can match at index 0 only, as one that starts
    with [^]. *)
Definition anchored (r : regex) : Prop :=
  forall pos s k, run r (S pos) s k = false.

(** ** Building blocks *)

(** One character, under the [i] flag. *)
Definition chr_ci (c : N) : regex :=
  Class (fun x => (MediaExtractor.canonicalize x =? MediaExtractor.canonicalize c)%N).

(** A literal text, and a literal text under the [i] flag. *)
Definition lits (cs : jsstring) : regex :=
  fold_right (fun c r => Seq (Class (N.eqb c)) r) Eps cs.

Definition lits_ci (cs : jsstring) : regex :=
  fold_right (fun c r => Seq (chr_ci c) r) Eps cs.

Definition str (s : string) : regex := lits (lit s).
Definition str_ci (s : string) : regex := lits_ci (lit s).

Definition opt (r : regex) : regex := Alt r Eps.
Definition plus (r : regex) : regex := Seq r (Star r).

Fixpoint times (n : nat) (r : regex) : regex :=
  match n with
  | O => Eps
  | S n' => Seq r (times n' r)
  end.

Fixpoint seqs (rs : list regex) : regex :=
  match rs with
  | [] => Eps
  | r :: rs' => Seq r (seqs rs')
  end.

Fixpoint alts (rs : list regex) : regex :=
  match rs with
  | [] => NotAhead Eps
  | [r] => r
  | r :: rs' => Alt r (alts rs')
  end.

(** ** Character classes *)

Definition between (lo hi : N) (c : N) : bool := ((lo <=? c) && (c <=? hi))%N.

Definition is_digit (c : N) : bool := between 48 57 c.
Definition is_lower (c : N) : bool := between 97 122 c.
Definition is_upper (c : N) : bool := between 65 90 c.
Definition is_alnum (c : N) : bool := is_lower c || is_upper c || is_digit c.
(** [\w] *)
Definition is_word (c : N) : bool := is_alnum c || (c =? 95)%N.
Definition among (cs : string) (c : N) : bool := existsb (N.eqb c) (lit cs).
(** [.] *)
Definition is_dot (c : N) : bool := negb (is_line_terminator c).

End Regex.

(* ================================================================== *)
(** * utils.ts: the URL helpers *)
(* ================================================================== *)

Module Utils.

Import Regex.
Local Open Scope string_scope.
Local Open Scope list_scope.

(** [https?:\/\/] *)
Definition scheme : regex := seqs [str "http"; opt (str "s"); str "://"].
Definition scheme_ci : regex :=
  seqs [str_ci "http"; opt (str_ci "s"); str_ci "://"].

(** [[a-zA-Z0-9.\-_]] and [[a-zA-Z0-9\-_]] *)
Definition name_char (c : N) : bool := is_alnum c || among ".-_" c.
Definition id_char (c : N) : bool := is_alnum c || among "-_" c.
(** [[^/?#&]] *)
Definition segment_char (c : N) : bool := negb (among "/?#&" c).
(** [[^#\s]] *)
Definition query_char (c : N) : bool := negb ((c =? 35)%N || is_white_space c).

(** The optional query at the end of the last two expressions: [?] or
    [&], then characters that are neither [#] nor white space. *)
Definition query_tail : regex :=
  opt (Seq (Class (among "?&")) (Star (Class query_char))).

Definition facebookRegex : regex :=
  Alt
    (seqs [Bol; scheme; opt (alts [str "www."; str "web."; str "m."]);
           str "facebook.com/";
           alts [ seqs [str "watch"; Alt (str "?v=") (str "/?v=");
                        plus (Class is_digit); NotAhead (str "/")];
                  seqs [str "reel/"; plus (Class is_digit)];
                  seqs [plus (Class name_char); str "/";
                        Alt (str "videos") (str "posts"); str "/";
                        plus (Class is_digit)];
                  seqs [plus (Class is_digit); str "/";
                        Alt (str "videos") (str "posts"); str "/";
                        plus (Class is_digit)];
                  seqs [str "share/"; Alt (str "v") (str "r"); str "/";
                        plus (Class id_char); opt (str "/")];
                  plus (Class name_char) ];
           opt (plus (Class segment_char)); Star (Class is_dot); Eol])
    (seqs [Bol; str "https://fb.watch/"; plus (Class id_char); Eol]).

Definition instagramRegex : regex :=
  seqs [Bol; scheme; opt (str "www."); str "instagram.com/";
        alts [str "p"; str "reel"; str "reels"; str "tv"; str "stories";
              str "share"];
        str "/"; plus (Class segment_char); Star (Class is_dot)].

(** The [i] flag: literals are compared after case folding; the classes
    [\w], [\d] and [[^/]] are not changed by it. *)
Definition tiktokRegex : regex :=
  seqs [Bol; scheme_ci;
        opt (alts [str_ci "www."; str_ci "m."; str_ci "vm."; str_ci "vt."]);
        str_ci "tiktok.com/";
        alts [ seqs [str_ci "@"; plus (Class (fun c => negb (c =? 47)%N));
                     str_ci "/"; Alt (str_ci "video") (str_ci "photo");
                     str_ci "/"; plus (Class is_digit)];
               seqs [str_ci "v/"; plus (Class is_digit)];
               seqs [str_ci "t/"; plus (Class is_word)];
               plus (Class (fun c => is_word c || (c =? 45)%N)) ];
        opt (str_ci "/")].

Definition youtubeRegex : regex :=
  seqs [Bol; scheme; opt (str "www.");
        Alt (seqs [str "youtube.com/";
                   alts [ seqs [str "watch?";
                                opt (Seq (Star (Class is_dot)) (str "&"));
                                str "v="];
                          str "shorts/";
                          str "embed/" ]])
            (str "youtu.be/");
        times 11 (Class id_char);
        query_tail].

Definition twitterRegex : regex :=
  seqs [Bol; scheme; opt (str "www.");
        Alt (str "twitter.com") (str "x.com"); str "/";
        opt (str "#!/");
        seqs [plus (Class is_word); str "/status"; opt (str "es"); str "/"];
        plus (Class is_digit);
        query_tail].

(** [/^(https?:\/\/)(?!www\.)[a-z0-9]+/i], the test of [normalizeURL]. *)
Definition bare_host : regex :=
  seqs [Bol; scheme_ci; NotAhead (str_ci "www."); plus (Class is_alnum)].

(** The longest prefix of characters that satisfy [p], and the rest. *)
Fixpoint span (p : N -> bool) (s : jsstring) : jsstring * jsstring :=
  match s with
  | c :: s' =>
      if p c then let (a, b) := span p s' in (c :: a, b) else ([], s)
  | [] => ([], [])
  end.

(** [[^./]] *)
Definition label_char (c : N) : bool := negb ((c =? 46) || (c =? 47))%N.

(** The expression that [normalizeURL] replaces: between [^] and [$],
    the scheme [https?:\/\/], the labels [[^./]+\.[^./]+] and an optional
    slash followed by any characters but line terminators. *)
Definition replace_pattern : regex :=
  seqs [Bol; scheme; plus (Class label_char); str ".";
        plus (Class label_char);
        opt (Seq (str "/") (Star (Class is_dot))); Eol].

(** [url] split after the text [sch], when it starts with it. *)
Definition after_scheme (sch : string) (url : jsstring)
  : option (jsstring * jsstring) :=
  if starts_with (lit sch) url
  then Some (lit sch, skipn (length (lit sch)) url) else None.

(** [url] split after [https://] or [http://]. *)
Definition url_scheme (url : jsstring) : option (jsstring * jsstring) :=
  match after_scheme "https://" url with
  | Some x => Some x
  | None => after_scheme "http://" url
  end.

(** The groups of the expression that [normalizeURL] replaces, on [url]:
    the scheme [https?:\/\/], two labels [[^./]+] joined by a dot, and an
    optional slash with any rest, between [^] and [$]; [None] when the
    expression does not match.  The expression leaves no
    choice: each label is the whole run of characters that are neither a
    dot nor a slash, and what follows the second label is the end of the
    text or a slash and a rest without line terminator.  An absent third
    group is the empty text in the replacement. *)
Definition url_groups (url : jsstring)
  : option (jsstring * jsstring * jsstring) :=
  match url_scheme url with
  | None => None
  | Some (sch, s) =>
      let (l1, s1) := span label_char s in
      match l1, s1 with
      | _ :: _, dot :: s2 =>
          if (dot =? 46)%N then
            let (l2, s3) := span label_char s2 in
            match l2 with
            | [] => None
            | _ :: _ =>
                match s3 with
                | [] => Some (sch, l1 ++ [46%N] ++ l2, [])
                | c :: t =>
                    if (c =? 47)%N && forallb is_dot t
                    then Some (sch, l1 ++ [46%N] ++ l2, s3)
                    else None
                end
            end
          else None
      | _, _ => None
      end
  end.

(** [export const normalizeURL]: the replacement is ["$1www.$2$3"]. *)
Definition normalizeURL (url : jsstring) : jsstring :=
  if test bare_host url then
    match url_groups url with
    | Some (g1, g2, g3) => g1 ++ lit "www." ++ g2 ++ g3
    | None => url
    end
  else url.

(** [export const detectPlatformFromURL]; [None] is [null]. *)
Definition detectPlatformFromURL (url : jsstring) : option jsstring :=
  if test facebookRegex url then Some (lit "Facebook")
  else if test instagramRegex url then Some (lit "Instagram")
  else if test tiktokRegex url then Some (lit "TikTok")
  else if test youtubeRegex url then Some (lit "YouTube")
  else if test twitterRegex url then Some (lit "Twitter")
  else None.

(** [class UrlValidator]: [supportedRegexes.some(regex => url.match(regex))]
    with the default list of the constructor. *)
Definition supportedRegexes : list regex :=
  [facebookRegex; instagramRegex; tiktokRegex].

Definition UrlValidator_isValid (regexes : list regex) (url : jsstring) : bool :=
  existsb (fun r => test r url) regexes.

(** [SnapSaveApiClient.fetchMedia] around the transport [post], which
    stands for the request to the service: the form field [url] is the
    normalised address. *)
Definition SnapSaveApiClient_fetchMedia (post : jsstring -> outcome jsstring)
  (url : jsstring) : outcome jsstring :=
  post (normalizeURL url).

(** The service as its constructor builds it, and [SnapSaver] of
    [index.ts] on it. *)
Definition snapSaverInstance (post : jsstring -> outcome jsstring)
  (load : jsstring -> document) : SnapSaverService.collaborators :=
  {| SnapSaverService.isValid := UrlValidator_isValid supportedRegexes;
     SnapSaverService.fetchMedia := SnapSaveApiClient_fetchMedia post;
     SnapSaverService.load := load |}.

Definition SnapSaver (post : jsstring -> outcome jsstring)
  (load : jsstring -> document) (fuel : nat) (url : jsstring)
  : outcome SnapSaveDownloaderResponse :=
  SnapSaverService.download (snapSaverInstance post load) fuel url.

End Utils.

(* ================================================================== *)
(** * The cipher that the decoder reverses *)
(* ================================================================== *)

Module CipherSpec.

Import SnapSaveDecoder.

(** The symbol of [charMap] for the digit or index [d]. *)
Definition symbol (charMap : jsstring) (d : Z) : N :=
  nth (Z.to_nat d) charMap 0%N.

(** One segment: the digits [ds] (least significant first) written most
    significant first with the symbols of [charMap], then the delimiter
    [charMap[base]]. *)
Definition cipher_segment (charMap : jsstring) (base : Z) (ds : list Z)
  : jsstring :=
  map (symbol charMap) (rev ds) ++ [symbol charMap base].

Definition cipher (charMap : jsstring) (base : Z) (dss : list (list Z))
  : jsstring :=
  flat_map (cipher_segment charMap base) dss.

(** The code units the segments stand for: the value of each digit list,
    less the offset. *)
Definition plain (base offset : Z) (dss : list (list Z)) : jsstring :=
  map (fun ds => fromCharCode (value base ds - offset)) dss.

(** A symbol that is neither a decimal digit nor a character with a
    meaning of its own in a regular expression. *)
Definition plain_symbol (c : N) : bool :=
  negb (is_decimal c) &&
  match compile_unit c with
  | Ret (PLiteral _) => true
  | _ => false
  end.

(** A symbol map of distinct plain symbols. *)
Definition plain_map (charMap : jsstring) : bool :=
  distinct charMap && forallb plain_symbol charMap.

(** A segment while the substitution loop of [decodeSnapApp] stands at
    index [j]: the digits below [j] are decimal characters already, the
    others still symbols. *)
Definition half_substituted (cm : jsstring) (j : Z) (ds : list Z) : jsstring :=
  map (fun d => if (d <? j)%Z then digit d else symbol cm d) ds.

(** The digit lists the decoder reads without leaving the numbers a
    double holds exactly: canonical digits, a value and a difference to
    the offset within the exact range. *)
Definition readable (base offset : Z) (ds : list Z) : Prop :=
  produced base ds
  /\ (value base ds <= MAX_EXACT)%Z
  /\ (Z.abs (value base ds - offset) <= MAX_EXACT)%Z.

(** The UTF-8 bytes of a code point, as the Encoding Standard writes
    them. *)
Definition utf8_encode (cp : N) : list N :=
  if (cp <? 128)%N then [cp]
  else if (cp <? 2048)%N then
    [(192 + cp / 64)%N; (128 + cp mod 64)%N]
  else if (cp <? 65536)%N then
    [(224 + cp / 4096)%N; (128 + (cp / 64) mod 64)%N; (128 + cp mod 64)%N]
  else
    [(240 + cp / 262144)%N; (128 + (cp / 4096) mod 64)%N;
     (128 + (cp / 64) mod 64)%N; (128 + cp mod 64)%N].

(** A Unicode scalar value: a code point that is no surrogate. *)
Definition scalar_value (cp : N) : bool :=
  ((cp <? 55296) || ((57344 <=? cp) && (cp <? 1114112)))%N.

End CipherSpec.

(* ================================================================== *)
(** * Properties *)
(* ================================================================== *)

(** ** The base converter *)

Module BaseConverterFacts.

Import SnapSaveDecoder.
Local Open Scope Z_scope.

Lemma charset_length : length charset = 64%nat.
Proof. reflexivity. Qed.

Lemma charset_distinct : distinct charset = true.
Proof. vm_compute. reflexivity. Qed.

Lemma indexOf_absent c l :
  existsb (N.eqb c) l = false -> indexOf c l = None.
Proof.
  induction l as [|x l IH]; simpl; [reflexivity|].
  intros H. apply orb_false_iff in H. destruct H as [Hx Hl].
  rewrite N.eqb_sym, Hx. rewrite (IH Hl). reflexivity.
Qed.

Lemma existsb_nth_error c (l : list N) i :
  nth_error l i = Some c -> existsb (N.eqb c) l = true.
Proof.
  revert i. induction l as [|x l IH]; intros [|i]; simpl; try discriminate.
  - intros [= ->]. now rewrite N.eqb_refl.
  - intros H. rewrite (IH _ H). apply orb_true_r.
Qed.

Lemma indexOf_firstn l : distinct l = true ->
  forall d n c, nth_error l d = Some c -> (d < n)%nat ->
  indexOf c (firstn n l) = Some d.
Proof.
  induction l as [|x l IH]; intros Hd d n c Hc Hlt.
  - destruct d; discriminate.
  - simpl in Hd. apply andb_true_iff in Hd. destruct Hd as [Hx Hl].
    destruct n as [|n]; [lia|]. simpl.
    destruct d as [|d]; simpl in Hc.
    + injection Hc as ->. now rewrite N.eqb_refl.
    + destruct (N.eqb_spec x c) as [->|Hne].
      * rewrite (existsb_nth_error _ _ Hc) in Hx. discriminate.
      * rewrite (IH Hl d n c Hc); [reflexivity | lia].
Qed.

Lemma slice0_charset b : 0 <= b <= 64 ->
  slice0 charset b = firstn (Z.to_nat b) charset.
Proof.
  intros Hb. unfold slice0. rewrite charset_length.
  destruct (Z.ltb_spec b 0); [lia|].
  rewrite Z.min_l by lia. reflexivity.
Qed.

Lemma nth_error_digit d : 0 <= d < 64 ->
  nth_error charset (Z.to_nat d) = Some (digit d).
Proof.
  intros Hd. unfold digit. apply nth_error_nth'.
  rewrite charset_length. lia.
Qed.

Lemma indexOf_digit b d : 0 <= d < b -> b <= 64 ->
  indexOf (digit d) (slice0 charset b) = Some (Z.to_nat d).
Proof.
  intros Hd Hb. rewrite slice0_charset by lia.
  apply indexOf_firstn.
  - exact charset_distinct.
  - apply nth_error_digit. lia.
  - lia.
Qed.

Lemma exact_in_range z : 0 <= z <= MAX_EXACT -> exact z = Ret z.
Proof.
  intros Hz. unfold exact. rewrite Z.abs_eq by lia.
  destruct (Z.leb_spec z MAX_EXACT); [reflexivity | lia].
Qed.

Lemma value_nonneg b ds : 0 <= b -> produced b ds -> 0 <= value b ds.
Proof.
  intros Hb. destruct ds as [|d ds]; simpl; [lia|].
  intros (_ & H & _). lia.
Qed.

(** The fold of [decodeNumber] on produced digits, from position [k] and
    partial sum [sum]. *)
Lemma reduce_produced b : 2 <= b <= 64 ->
  forall ds sum k,
  produced b ds -> 0 <= sum ->
  sum + b ^ Z.of_nat k * value b ds <= MAX_EXACT ->
  reduce (slice0 charset b) b sum k (map digit ds)
  = Ret (sum + b ^ Z.of_nat k * value b ds).
Proof.
  intros Hb. induction ds as [|d ds IH]; intros sum k Hp Hs Hle.
  - simpl. f_equal. lia.
  - destruct Hp as (Hd & Hv & Hp').
    assert (Hpow : 0 < b ^ Z.of_nat k) by (apply Z.pow_pos_nonneg; lia).
    assert (Hv' : 0 <= value b ds) by (apply value_nonneg; [lia | exact Hp']).
    change (value b (d :: ds)) with (d + b * value b ds) in *.
    assert (Hp1 : b ^ Z.of_nat k <= b ^ Z.of_nat k * (d + b * value b ds)) by nia.
    assert (Hp2 : d * b ^ Z.of_nat k <= b ^ Z.of_nat k * (d + b * value b ds)) by nia.
    simpl map. simpl reduce. unfold reduce_step.
    rewrite (indexOf_digit Hd) by lia.
    rewrite exact_in_range by lia. simpl bind.
    rewrite Z2Nat.id by lia.
    rewrite exact_in_range by nia. simpl bind.
    rewrite exact_in_range by nia. simpl bind.
    rewrite IH; try assumption.
    + f_equal. rewrite Nat2Z.inj_succ, Z.pow_succ_r by lia. ring.
    + nia.
    + rewrite Nat2Z.inj_succ, Z.pow_succ_r by lia.
      replace (sum + d * b ^ Z.of_nat k + b * b ^ Z.of_nat k * value b ds)
        with (sum + b ^ Z.of_nat k * (d + b * value b ds)) by ring.
      exact Hle.
Qed.

Lemma encode_loop_S fuel cs b n res :
  encode_loop (S fuel) cs b n res =
  if n >? 0 then
    if b =? 0 then Unmodelled
    else encode_loop fuel cs b (Z.quot (n - Z.rem n b) b)
           (to_string_unit (nth_error cs (Z.to_nat (Z.rem n b))) ++ res)
  else Ret res.
Proof. reflexivity. Qed.

(** The re-encoding loop writes the produced digits of [n], most
    significant first, in front of [res]. *)
Lemma encode_loop_digits b : 2 <= b <= 64 ->
  forall fuel n res, 0 <= n < 2 ^ Z.of_nat fuel ->
  exists ds,
    encode_loop (S fuel) (slice0 charset b) b n res
    = Ret (map digit (rev ds) ++ res)
    /\ produced b ds /\ value b ds = n.
Proof.
  intros Hb. induction fuel as [|fuel IH]; intros n res Hn.
  - exists []. simpl in *. assert (n = 0) by lia. subst. simpl. auto.
  - rewrite encode_loop_S.
    destruct (Z.gtb_spec n 0) as [Hpos|Hz].
    + destruct (Z.eqb_spec b 0); [lia|].
      rewrite Z.rem_mod_nonneg by lia.
      assert (Hr : 0 <= n mod b < b) by (apply Z.mod_pos_bound; lia).
      assert (Hdm : n = b * (n / b) + n mod b) by (apply Z.div_mod; lia).
      assert (Hq0 : 0 <= n / b) by (apply Z.div_pos; lia).
      replace (Z.quot (n - n mod b) b) with (n / b).
      2:{ replace (n - n mod b) with ((n / b) * b) by lia.
          rewrite Z.quot_div_nonneg by nia.
          now rewrite Z.div_mul by lia. }
      assert (Hq : 0 <= n / b < 2 ^ Z.of_nat fuel).
      { split; [exact Hq0|].
        apply Z.div_lt_upper_bound; [lia|].
        rewrite Nat2Z.inj_succ, Z.pow_succ_r in Hn by lia.
        assert (0 < 2 ^ Z.of_nat fuel) by (apply Z.pow_pos_nonneg; lia).
        nia. }
      destruct (IH (n / b)
                  (to_string_unit (nth_error (slice0 charset b) (Z.to_nat (n mod b))) ++ res)
                  Hq) as (ds & Hrun & Hp & Hv).
      exists (n mod b :: ds). split; [|split].
      * rewrite Hrun. f_equal.
        rewrite slice0_charset by lia.
        rewrite nth_error_firstn.
        destruct (Nat.ltb_spec (Z.to_nat (n mod b)) (Z.to_nat b)); [|lia].
        rewrite nth_error_digit by lia.
        simpl rev. rewrite map_app. simpl. rewrite <- app_assoc. reflexivity.
      * simpl. rewrite Hv. repeat split; try assumption; lia.
      * simpl. rewrite Hv. lia.
    + exists []. simpl. repeat split. lia.
Qed.

Lemma digit_zero : digit 0 = 48%N.
Proof. reflexivity. Qed.

(** Re-encoding followed by the decoding fold gives the number back. *)
Lemma reencode_toDecimal b n fuel :
  2 <= b <= 64 -> 0 <= n <= MAX_EXACT -> (55 <= fuel)%nat ->
  exists s, reencode fuel n b = Ret s /\ toDecimal s b = Ret n.
Proof.
  intros Hb Hn Hf.
  destruct fuel as [|fuel]; [lia|].
  assert (Hlt : 0 <= n < 2 ^ Z.of_nat fuel).
  { split; [lia|]. apply Z.le_lt_trans with (2 ^ 53); [apply Hn|].
    apply Z.pow_lt_mono_r; lia. }
  destruct (encode_loop_digits Hb fuel [] Hlt) as (ds & Hrun & Hp & Hv).
  unfold reencode. rewrite Hrun. simpl bind. rewrite app_nil_r.
  destruct ds as [|d ds].
  - simpl in Hv. subst n. exists (lit "0"). split; [reflexivity|].
    unfold toDecimal. simpl rev. simpl reduce. unfold reduce_step.
    change 48%N with (digit 0).
    rewrite (@indexOf_digit b 0) by lia.
    simpl Z.of_nat. rewrite Z.pow_0_r. reflexivity.
  - assert (Hne : map digit (rev (d :: ds)) <> []).
    { intros H. apply (f_equal (@length N)) in H.
      rewrite length_map, length_rev in H. discriminate. }
    destruct (map digit (rev (d :: ds))) as [|c cs] eqn:E; [congruence|].
    exists (c :: cs). split; [reflexivity|].
    unfold toDecimal. rewrite <- E, <- map_rev, rev_involutive.
    rewrite (reduce_produced Hb (d :: ds) 0 Hp); [| lia |].
    + f_equal. simpl Z.of_nat. rewrite Z.pow_0_r. lia.
    + simpl Z.of_nat. rewrite Z.pow_0_r. lia.
Qed.

(** C2. Round trip of the base converter: for bases [b1], [b2] between 2
    and 64 and a number [n] that a double holds exactly, let [s] be [n]
    as the converter writes it in base [b1]; converting [s] to base [b2]
    gives a digit string [t] whose value in base [b2] is [n], and
    converting [t] back to base [b1] gives [s] again.  With [b1] = 10 this
    is the identity of the specification: the number written in base
    [b2] and read back in base 10 is the number. *)
Theorem decodeNumber_round_trip b1 b2 n fuel :
  2 <= b1 <= 64 -> 2 <= b2 <= 64 -> 0 <= n <= MAX_EXACT -> (55 <= fuel)%nat ->
  exists s t,
    reencode fuel n b1 = Ret s
    /\ decodeNumber fuel s b1 b2 = Ret t
    /\ toDecimal t b2 = Ret n
    /\ decodeNumber fuel t b2 b1 = Ret s.
Proof.
  intros H1 H2 Hn Hf.
  destruct (reencode_toDecimal H1 Hn Hf) as (s & Hs & Hds).
  destruct (reencode_toDecimal H2 Hn Hf) as (t & Ht & Hdt).
  exists s, t. unfold decodeNumber.
  rewrite Hds, Hdt. simpl bind. auto.
Qed.

Lemma decodeNumber_round_trip_witness :
  exists s t,
    reencode 64 255 10 = Ret s
    /\ decodeNumber 64 s 10 16 = Ret t
    /\ toDecimal t 16 = Ret 255
    /\ decodeNumber 64 t 16 10 = Ret s.
Proof.
  apply (@decodeNumber_round_trip 10 16 255 64).
  - lia.
  - lia.
  - split; [lia | apply Z.leb_le; reflexivity].
  - lia.
Defined.

(** The strings of that instance. *)
Example round_trip_255 :
  reencode 64 255 10 = Ret (lit "255")
  /\ decodeNumber 64 (lit "255") 10 16 = Ret (lit "ff")
  /\ decodeNumber 64 (lit "ff") 16 10 = Ret (lit "255").
Proof. repeat split; reflexivity. Qed.

End BaseConverterFacts.

(** ** The payload decoder *)

Module DecoderFacts.

Import SnapSaveDecoder.

Ltac div_lia := zify; Z.to_euclidean_division_equations; lia.

Lemma scan_S fuel enc x i s :
  scan (S fuel) enc x i s =
  if strict_eq_unit (nth_error enc i) x then Ret (i, s)
  else (s' <- concat s (to_string_unit (nth_error enc i)) ;;
        scan fuel enc x (S i) s')%outcome.
Proof. reflexivity. Qed.

Lemma concat_fits a b :
  (N.of_nat (length a) + N.of_nat (length b) <= MAX_STRING_LENGTH)%N ->
  concat a b = Ret (a ++ b).
Proof.
  intros H. unfold concat.
  destruct (N.ltb_spec MAX_STRING_LENGTH
              (N.of_nat (length a) + N.of_nat (length b))); [lia | reflexivity].
Qed.

Lemma concat_overflow a b :
  (MAX_STRING_LENGTH < N.of_nat (length a) + N.of_nat (length b))%N ->
  concat a b = Throw RangeError.
Proof.
  intros H. unfold concat.
  destruct (N.ltb_spec MAX_STRING_LENGTH
              (N.of_nat (length a) + N.of_nat (length b))); [reflexivity | lia].
Qed.

(** A segment that ends with the delimiter is scanned in as many steps as
    it has characters: from the position after [pre], the scan stops on
    the delimiter that follows [mid] and has collected [mid]. *)
Lemma scan_reaches_delimiter d post : forall mid pre segment,
  ~ In d mid ->
  (N.of_nat (length segment) + N.of_nat (length mid) <= MAX_STRING_LENGTH)%N ->
  scan (S (length mid)) (pre ++ mid ++ d :: post) (Some d) (length pre) segment
  = Ret (length pre + length mid, segment ++ mid).
Proof.
  induction mid as [|c mid IH]; intros pre segment Hd Hfit.
  - cbn [length]. rewrite scan_S, nth_error_app2, Nat.sub_diag by lia.
    simpl. rewrite N.eqb_refl, Nat.add_0_r, app_nil_r. reflexivity.
  - cbn [length] in *. rewrite scan_S.
    rewrite nth_error_app2, Nat.sub_diag by lia. simpl nth_error.
    simpl strict_eq_unit.
    destruct (N.eqb_spec c d) as [->|Hne]; [exfalso; apply Hd; now left|].
    cbn [to_string_unit]. rewrite concat_fits by (simpl; lia). cbn [bind].
    replace (pre ++ (c :: mid) ++ d :: post)
      with ((pre ++ [c]) ++ mid ++ d :: post)
      by (rewrite <- app_assoc; reflexivity).
    replace (S (length pre)) with (length (pre ++ [c]))
      by (rewrite length_app; simpl; lia).
    rewrite IH; [| intros H; apply Hd; now right | rewrite length_app; simpl; lia].
    rewrite length_app. simpl. rewrite <- app_assoc. simpl.
    f_equal. f_equal. lia.
Qed.

(** The scan of a text that never meets the delimiter symbol does not
    stop at the end of the text: past it the scan reads [undefined], which
    is not the delimiter either, and appends nine units to the segment
    each turn, until the segment passes the length limit.  From index [i],
    with a segment that still fits, the turn that overflows is the one
    counted here; a smaller budget is exhausted before it. *)
Lemma scan_unterminated enc d :
  ~ In d enc ->
  forall fuel i segment,
  (N.of_nat (length segment) + N.of_nat (length enc - i)
   <= MAX_STRING_LENGTH)%N ->
  scan fuel enc (Some d) i segment =
  if (N.of_nat fuel <?
      N.of_nat (length enc - i)
      + (MAX_STRING_LENGTH
         - (N.of_nat (length segment) + N.of_nat (length enc - i))) / 9
      + 1)%N
  then Diverge else Throw RangeError.
Proof.
  intros Hd. induction fuel as [|fuel IH]; intros i segment Hfit.
  - cbn [scan].
    match goal with |- context [(?a <? ?b)%N] => destruct (N.ltb_spec a b) end;
      [reflexivity | div_lia].
  - rewrite scan_S. destruct (nth_error enc i) as [c|] eqn:E.
    + assert (Hi : (i < length enc)%nat) by (apply nth_error_Some; congruence).
      cbn [strict_eq_unit to_string_unit].
      destruct (N.eqb_spec c d) as [->|_].
      { exfalso. apply Hd. eapply nth_error_In. exact E. }
      rewrite concat_fits by (simpl; lia). cbn [bind].
      rewrite IH by (rewrite length_app; simpl; lia).
      rewrite length_app. cbn [length].
      replace (N.of_nat (length segment + 1) + N.of_nat (length enc - S i))%N
        with (N.of_nat (length segment) + N.of_nat (length enc - i))%N by lia.
      repeat match goal with
             | |- context [(?a <? ?b)%N] => destruct (N.ltb_spec a b)
             end; try reflexivity; div_lia.
    + assert (Hi : (length enc <= i)%nat) by (apply nth_error_None; exact E).
      cbn [strict_eq_unit to_string_unit].
      replace (length enc - i)%nat with 0%nat in * by lia.
      change (N.of_nat 0) with 0%N in *.
      assert (Hu : length (lit "undefined") = 9%nat) by reflexivity.
      destruct (N.ltb_spec MAX_STRING_LENGTH
                  (N.of_nat (length segment) + 9)) as [Hover|Hin].
      * rewrite concat_overflow by (rewrite Hu; lia). cbn [bind].
        match goal with |- context [(?a <? ?b)%N] => destruct (N.ltb_spec a b) end;
          [div_lia | reflexivity].
      * rewrite concat_fits by (rewrite Hu; lia). cbn [bind].
        rewrite IH by (rewrite length_app, Hu; lia).
        rewrite length_app, Hu.
        replace (length enc - S i)%nat with 0%nat by lia.
        change (N.of_nat 0) with 0%N.
        repeat match goal with
               | |- context [(?a <? ?b)%N] => destruct (N.ltb_spec a b)
               end; try reflexivity; div_lia.
Qed.

(** The first scan of [decodeSnapApp] on a text without delimiter. *)
Lemma decodeSnapApp_unterminated args encodedContent charMap base b d fuel :
  nth_error args 0 = Some encodedContent ->
  nth_error args 2 = Some charMap ->
  nth_error args 4 = Some base ->
  ToNumber base = Ret b ->
  char_at charMap b = Some d ->
  encodedContent <> [] ->
  ~ In d encodedContent ->
  (N.of_nat (length encodedContent) <= MAX_STRING_LENGTH)%N ->
  decodeSnapApp fuel args =
  if (N.of_nat fuel <? unterminated_steps (N.of_nat (length encodedContent)))%N
  then Diverge else Throw RangeError.
Proof.
  intros H0 H2 H4 Hb Hd Hne Hnot Hlen.
  unfold decodeSnapApp, unterminated_steps. rewrite H0, H2, H4.
  destruct fuel as [|fuel].
  { cbn [segments bind].
    match goal with |- context [(?a <? ?b)%N] => destruct (N.ltb_spec a b) end;
      [reflexivity | div_lia]. }
  cbn [segments].
  destruct (Nat.ltb_spec 0 (length encodedContent)) as [_|Hz].
  2:{ destruct encodedContent; [congruence | simpl in Hz; lia]. }
  cbn [delimiter_of]. rewrite Hb. cbn [bind]. rewrite Hd.
  rewrite (@scan_unterminated encodedContent d Hnot) by (simpl; lia).
  rewrite Nat.sub_0_r. change (N.of_nat (length (@nil N))) with 0%N.
  rewrite N.add_0_l.
  match goal with |- context [(?a <? ?b)%N] => destruct (N.ltb_spec a b) end;
    reflexivity.
Qed.

(** C1. The scan of [decodeSnapApp] is not bounded by the length of the
    cipher text, and a text without delimiter is not refused as a
    malformed payload.  For a non-empty cipher text with no occurrence of
    the delimiter symbol (the character of [charMap] at index [base]),
    the inner loop runs past the end of the text: it makes
    [unterminated_steps] turns, which is more than the text has units by
    a number that depends on the length limit of strings and not on the
    text, appending ["undefined"] to the segment on each turn past the
    end.  A budget below that number is exhausted; with a budget of that
    number or more the call ends with the [RangeError] of the engine for a
    string that is too long, the only exception it raises. *)
Theorem decodeSnapApp_unterminated_overflow
  (args : list jsstring) (encodedContent charMap base : jsstring)
  (b : Z) (d : N) :
  nth_error args 0 = Some encodedContent ->
  nth_error args 2 = Some charMap ->
  nth_error args 4 = Some base ->
  ToNumber base = Ret b ->
  char_at charMap b = Some d ->
  encodedContent <> [] ->
  ~ In d encodedContent ->
  (N.of_nat (length encodedContent) <= MAX_STRING_LENGTH)%N ->
  (N.of_nat (length encodedContent)
   < unterminated_steps (N.of_nat (length encodedContent)))%N
  /\ (forall fuel,
        (N.of_nat fuel < unterminated_steps (N.of_nat (length encodedContent)))%N ->
        decodeSnapApp fuel args = Diverge)
  /\ (forall fuel,
        (unterminated_steps (N.of_nat (length encodedContent)) <= N.of_nat fuel)%N ->
        decodeSnapApp fuel args = Throw RangeError).
Proof.
  intros H0 H2 H4 Hb Hd Hne Hnot Hlen.
  split; [unfold unterminated_steps; div_lia|].
  split; intros fuel Hf;
    rewrite (@decodeSnapApp_unterminated args encodedContent charMap base b d fuel)
      by assumption;
    destruct (N.ltb_spec (N.of_nat fuel)
                (unterminated_steps (N.of_nat (length encodedContent))));
    try reflexivity; div_lia.
Qed.

Lemma decodeSnapApp_unterminated_overflow_witness :
  decodeSnapApp (N.to_nat 59652323)
    [lit "ab"; lit "u"; lit "xyz"; lit "1"; lit "2"; lit ""]
  = Throw RangeError.
Proof.
  refine (proj2 (proj2 (@decodeSnapApp_unterminated_overflow
           [lit "ab"; lit "u"; lit "xyz"; lit "1"; lit "2"; lit ""]
           (lit "ab") (lit "xyz") (lit "2") 2%Z 122%N _ _ _ _ _ _ _ _))
           (N.to_nat 59652323) _).
  - reflexivity.
  - reflexivity.
  - reflexivity.
  - reflexivity.
  - reflexivity.
  - discriminate.
  - intros [H|[H|[]]]; discriminate.
  - vm_compute. discriminate.
  - rewrite N2Nat.id. vm_compute. discriminate.
Defined.

(** The empty cipher text holds no delimiter either, and decodes to the
    empty text. *)
Example decodeSnapApp_empty :
  decodeSnapApp 1 [lit ""; lit "u"; lit "xyz"; lit "1"; lit "2"; lit ""] = Ret [].
Proof. reflexivity. Qed.

(** A well-formed payload: every segment ends with the delimiter. *)
Example decodeSnapApp_terminated :
  decodeSnapApp 100 [lit "bcbebdde"; lit "u"; lit "abcde"; lit "1"; lit "4"; lit ""]
  = Ret [24%N; 30%N].
Proof. reflexivity. Qed.

(** ** Byte repair *)

Ltac case_if :=
  match goal with
  | |- context [if ?c then _ else _] => destruct c
  end.

Lemma emit_ret c m cps : m = Ret cps -> emit c m = Ret (c :: cps).
Proof. intros ->. reflexivity. Qed.

(** In replacement mode the decoder always returns. *)
Lemma lead_step_returns b rest :
  (forall st, exists cps, rest st = Ret cps) ->
  exists cps, lead_step false b rest = Ret cps.
Proof.
  intros Hrest. unfold lead_step, on_error.
  repeat case_if;
    try apply Hrest;
    match goal with
    | |- exists _, emit ?c (rest ?st) = _ =>
        destruct (Hrest st) as (cps & ->); eexists; reflexivity
    end.
Qed.

Lemma utf8_decode_returns bytes : forall st,
  exists cps, utf8_decode false st bytes = Ret cps.
Proof.
  induction bytes as [|b bs IH]; intros st; simpl.
  - case_if; simpl; eauto.
  - case_if.
    + apply lead_step_returns. intros st'. apply IH.
    + case_if.
      * unfold on_error.
        destruct (lead_step_returns b (fun st' => utf8_decode false st' bs))
          as (cps & ->); [intros st'; apply IH|].
        eexists. reflexivity.
      * case_if.
        -- destruct (IH idle) as (cps & ->). eexists. reflexivity.
        -- apply IH.
Qed.

(** What replacement mode returns is what fatal mode returns, unless it
    holds a replacement character. *)
Lemma lead_step_agree b restT restF :
  (forall st cps, restF st = Ret cps -> restT st = Ret cps \/ In REPLACEMENT cps) ->
  forall cps, lead_step false b restF = Ret cps ->
  lead_step true b restT = Ret cps \/ In REPLACEMENT cps.
Proof.
  intros Hrest cps. unfold lead_step, on_error, emit.
  repeat case_if;
    try apply Hrest;
    match goal with
    | |- bind (restF ?st) _ = _ -> _ =>
        destruct (restF st) as [x| | |] eqn:E; simpl; try discriminate;
        intros [= <-]
    end.
  - destruct (Hrest _ _ E) as [->|Hin]; [left; reflexivity | right; now right].
  - right. now left.
Qed.

Lemma utf8_decode_agree bytes : forall st cps,
  utf8_decode false st bytes = Ret cps ->
  utf8_decode true st bytes = Ret cps \/ In REPLACEMENT cps.
Proof.
  induction bytes as [|b bs IH]; intros st cps; simpl.
  - case_if; simpl.
    + auto.
    + intros [= <-]. right. now left.
  - case_if.
    + apply lead_step_agree. intros st'. apply IH.
    + case_if.
      * unfold on_error, emit.
        destruct (lead_step false b _) as [x| | |]; simpl; try discriminate.
        intros [= <-]. right. now left.
      * case_if.
        -- unfold emit.
           destruct (utf8_decode false idle bs) as [x| | |] eqn:E; simpl;
             try discriminate.
           intros [= <-].
           destruct (IH _ _ E) as [->|Hin]; [left; reflexivity | right; now right].
        -- apply IH.
Qed.

Lemma strip_bom_keeps_replacement cps :
  In REPLACEMENT cps -> In REPLACEMENT (strip_bom false cps).
Proof.
  destruct cps as [|c cps]; [intros []|].
  unfold strip_bom.
  destruct (N.eqb_spec c 65279) as [->|_]; [|trivial].
  intros [H|H]; [discriminate H | exact H].
Qed.

Lemma utf16_keeps_replacement cps :
  In REPLACEMENT cps -> In REPLACEMENT (flat_map utf16_encode cps).
Proof.
  intros H. apply in_flat_map. exists REPLACEMENT. split; [exact H|].
  now left.
Qed.

(** C3 (as the code has it). Byte repair never fails: for every string
    it returns a text, and when the bytes are not valid UTF-8 that text
    holds the replacement character U+FFFD. *)
Theorem fixEncoding_replaces (str : jsstring) :
  exists s,
    fixEncoding str = Ret s
    /\ (valid_utf8 (bytes_of str) = false -> In REPLACEMENT s).
Proof.
  unfold fixEncoding, TextDecoder_decode, valid_utf8.
  destruct (utf8_decode_returns (bytes_of str) idle) as (cps & Hcps).
  rewrite Hcps. simpl bind. eexists. split; [reflexivity|].
  destruct (utf8_decode_agree _ _ Hcps) as [->|Hin]; [discriminate|].
  intros _. apply utf16_keeps_replacement, strip_bom_keeps_replacement, Hin.
Qed.

Lemma fixEncoding_replaces_witness :
  exists s,
    fixEncoding [195; 40]%N = Ret s
    /\ (valid_utf8 (bytes_of [195; 40]%N) = false -> In REPLACEMENT s).
Proof. exact (fixEncoding_replaces [195; 40]%N). Defined.

(** The byte 0xFF is not valid UTF-8, yet byte repair returns: its result
    is the one-character text U+FFFD, not an exception. *)
Lemma fixEncoding_invalid_returns :
  valid_utf8 (bytes_of [255%N]) = false
  /\ fixEncoding [255%N] = Ret [REPLACEMENT]
  /\ ~ (exists e, fixEncoding [255%N] = Throw e).
Proof.
  repeat split. intros [e H]. discriminate H.
Qed.

(** Valid input is decoded: the two bytes of U+00E9. *)
Example fixEncoding_valid : fixEncoding [195; 169]%N = Ret [233%N].
Proof. reflexivity. Qed.

End DecoderFacts.

(** ** The layout extractor *)

Module ExtractorFacts.

Import MediaExtractor Fixtures.
Local Open Scope string_scope.
Local Open Scope list_scope.

Lemma str_eqb_eq s t : str_eqb s t = true <-> s = t.
Proof.
  revert t. induction s as [|a s IH]; intros [|b t]; simpl;
    try (split; [discriminate | discriminate]); [tauto|].
  rewrite andb_true_iff, N.eqb_eq, IH. split.
  - intros [-> ->]. reflexivity.
  - intros [= -> ->]. auto.
Qed.

Lemma type_of_label_photo label :
  label = photo_label -> type_of_label label = image.
Proof.
  intros ->. reflexivity.
Qed.

Lemma type_of_label_other label :
  label <> photo_label -> type_of_label label = video.
Proof.
  intros Hne. unfold type_of_label.
  destruct (str_eqb label photo_label) eqn:E; [|reflexivity].
  apply str_eqb_eq in E. contradiction.
Qed.

Lemma starts_with_app p q s :
  starts_with (p ++ q) s = true -> starts_with p s = true.
Proof.
  revert s. induction p as [|a p IH]; intros s; simpl; [reflexivity|].
  destruct s as [|b s]; [discriminate|].
  rewrite !andb_true_iff. intros [Hab H]. split; [exact Hab | apply IH, H].
Qed.

Lemma starts_with_ci_of_exact p s :
  starts_with p s = true -> starts_with_ci p s = true.
Proof.
  revert s. induction p as [|a p IH]; intros s; simpl; [reflexivity|].
  destruct s as [|b s]; [discriminate|].
  rewrite !andb_true_iff. intros [Hab H]. split; [|apply IH, H].
  apply N.eqb_eq in Hab. subst. apply N.eqb_refl.
Qed.

Lemma test_progressApi_eq s :
  test_progressApi s =
  starts_with_ci (lit "get_progressApi") s
  || match s with [] => false | _ :: s' => test_progressApi s' end.
Proof. destruct s; reflexivity. Qed.

Lemma exec_progressApi_eq s :
  exec_progressApi s =
  let later := match s with [] => None | _ :: s' => exec_progressApi s' end in
  if starts_with (lit "get_progressApi('") s then
    match lazy_group (skipn (length (lit "get_progressApi('")) s) [] with
    | Some g => Some g
    | None => later
    end
  else later.
Proof. destruct s; reflexivity. Qed.

(** Whatever the capture pattern matches, the test pattern matches. *)
Lemma exec_implies_test s g :
  exec_progressApi s = Some g -> test_progressApi s = true.
Proof.
  induction s as [|c s IH]; rewrite exec_progressApi_eq, test_progressApi_eq;
    cbv zeta.
  - discriminate.
  - destruct (starts_with (lit "get_progressApi('") (c :: s)) eqn:E.
    + intros _. apply orb_true_iff. left.
      apply starts_with_ci_of_exact.
      apply (starts_with_app (lit "get_progressApi") (lit "('")). exact E.
    + intros H. apply orb_true_iff. right. apply IH, H.
Qed.

(** C6 (as the code has it). In the table layout, let the action value
    of a row be the [href] of the anchor of its third cell or else the
    [onclick] of its button.  When the capture pattern
    [get_progressApi('...')] matches the action value, the entry has
    [shouldRender] true and its url is the fixed host followed by the
    captured path.  When the action value does not contain
    [get_progressApi] in any letter case, the entry has no [shouldRender]
    and its url is the action value unchanged. *)
Theorem table_row_progress (el : located) :
  let action := to_string_opt (or_else (row_action el) (Some [])) in
  (forall captured, exec_progressApi action = Some captured ->
     shouldRender (table_row el) = Some true
     /\ url (table_row el) = Some (lit "https://snapsave.app" ++ captured))
  /\ (test_progressApi action = false ->
     shouldRender (table_row el) = None
     /\ url (table_row el) = row_action el).
Proof.
  intros action. unfold table_row, table_entry. fold action. split.
  - intros captured Hexec.
    rewrite (exec_implies_test _ Hexec), Hexec. simpl. auto.
  - intros Htest. rewrite Htest. simpl. auto.
Qed.

Lemma table_row_progress_witness :
  (shouldRender (table_row (table_row_at table_and_items_document 1)) = Some true
   /\ url (table_row (table_row_at table_and_items_document 1))
      = Some (lit "https://snapsave.app" ++ lit "/render.php?token=abc"))
  /\ (shouldRender (table_row (table_row_at table_and_items_document 0)) = None
     /\ url (table_row (table_row_at table_and_items_document 0))
        = Some (lit "https://cdn.example.com/v.mp4")).
Proof.
  split.
  - apply (proj1 (table_row_progress (table_row_at table_and_items_document 1))).
    reflexivity.
  - apply (proj2 (table_row_progress (table_row_at table_and_items_document 0))).
    reflexivity.
Defined.

(** Scenario A: a table of two rows, a direct link and a progress
    handler. *)
Example extractTableMedia_two_rows :
  extractTableMedia table_and_items_document =
  [ {| resolution := Some (lit "720p"); shouldRender := None; thumbnail := None;
       type := Some video; url := Some (lit "https://cdn.example.com/v.mp4") |};
    {| resolution := Some (lit "360p"); shouldRender := Some true;
       thumbnail := None; type := Some video;
       url := Some (lit "https://snapsave.app/render.php?token=abc") |} ].
Proof. reflexivity. Qed.

(** A handler that names the progress API without a quoted argument: the
    test pattern matches it and the capture pattern does not.  The entry
    is flagged and its url is neither the handler nor the host followed by
    a captured path. *)
Lemma table_row_flagged_without_capture :
  extractTableMedia odd_table_document
  = [table_row (table_row_at odd_table_document 0)]
  /\ row_action (table_row_at odd_table_document 0) = Some odd_action
  /\ test_progressApi odd_action = true
  /\ exec_progressApi odd_action = None
  /\ shouldRender (table_row (table_row_at odd_table_document 0)) = Some true
  /\ url (table_row (table_row_at odd_table_document 0))
     = Some (lit "https://snapsave.appundefined")
  /\ url (table_row (table_row_at odd_table_document 0)) <> Some odd_action.
Proof.
  repeat split. discriminate.
Qed.

(** C7 (as the code has it). In the card, simple and download-items
    layouts the type is [image] when the label, white space trimmed,
    is ["Download Photo"], and [video] otherwise; the label is the text of
    the anchors of the card body, of all anchors of the document, and of
    the spans of the button block.  In the table layout the type is
    [image] when the resolution cell has no text and [video] otherwise. *)
Theorem type_inference_by_layout :
  (forall el,
     (card_label el = photo_label -> type (card el) = Some image)
     /\ (card_label el <> photo_label -> type (card el) = Some video))
  /\ (forall d m, In m (extractSimpleMedia d) ->
     (simple_label d = photo_label -> type m = Some image)
     /\ (simple_label d <> photo_label -> type m = Some video))
  /\ (forall el m, download_item el = Ret m ->
     (item_label el = photo_label -> type m = Some image)
     /\ (item_label el <> photo_label -> type m = Some video))
  /\ (forall el,
     (row_resolution el = [] -> type (table_row el) = Some image)
     /\ (row_resolution el <> [] -> type (table_row el) = Some video)).
Proof.
  repeat apply conj.
  - intros el. unfold card. simpl. split; intros H.
    + now rewrite type_of_label_photo.
    + now rewrite type_of_label_other.
  - intros d m [<-|[]]. simpl. split; intros H.
    + now rewrite type_of_label_photo.
    + now rewrite type_of_label_other.
  - intros el m. unfold download_item. cbv zeta.
    match goal with
    | |- bind ?t _ = _ -> _ => destruct t as [thumb| | |]; simpl; try discriminate
    end.
    intros [= <-]. simpl. split; intros H.
    + now rewrite type_of_label_photo.
    + now rewrite type_of_label_other.
  - intros el. unfold table_row, table_entry. simpl.
    destruct (row_resolution el); split; intros H; congruence.
Qed.

Lemma type_inference_by_layout_witness :
  type (card (nth 0 (select padded_card_document (Simple (TagClass "div" "card")))
                no_element))
  = Some image.
Proof.
  apply (proj1 type_inference_by_layout). reflexivity.
Defined.

(** A table row whose anchor reads exactly ["Download Photo"] is a video,
    because it has a resolution label; and a card whose anchor text is
    not exactly ["Download Photo"] (it has white space around it) is an
    image. *)
Lemma type_not_by_anchor_text_alone :
  q_text (select photo_table_document (Simple (Tag "a"))) = photo_label
  /\ map type (extractTableMedia photo_table_document) = [Some video]
  /\ q_text (select padded_card_document (Simple (Tag "a")))
     = lit "  Download Photo "
  /\ q_text (select padded_card_document (Simple (Tag "a"))) <> photo_label
  /\ map type (extractCardMedia padded_card_document) = [Some image].
Proof.
  repeat split. discriminate.
Qed.

(** C8. The thumbnail fix strips the proxy prefix and percent-decodes the
    rest. *)
Theorem fixThumbnail_example :
  fixThumbnail
    (lit "https://snapinsta.app/photo.php?photo=https%3A%2F%2Fcdn.example.com%2Fimg.jpg")
  = Ret (lit "https://cdn.example.com/img.jpg").
Proof. reflexivity. Qed.

(** A url without the proxy prefix is returned as it is, and a malformed
    escape after the prefix is an exception. *)
Example fixThumbnail_other :
  fixThumbnail (lit "https://cdn.example.com/a%2Fb.jpg")
  = Ret (lit "https://cdn.example.com/a%2Fb.jpg")
  /\ fixThumbnail (lit "https://snapinsta.app/photo.php?photo=100%")
     = Throw URIError.
Proof. split; reflexivity. Qed.

End ExtractorFacts.


(** ** Strings: splitting and trimming *)

Module StringFacts.

Lemma includes_cons p a s :
  includes p (a :: s) = starts_with p (a :: s) || includes p s.
Proof. reflexivity. Qed.

Lemma split_go_S fuel sep cur a s :
  split_go (S fuel) sep cur (a :: s) =
  if starts_with sep (a :: s)
  then rev cur :: split_go fuel sep [] (skipn (length sep) (a :: s))
  else split_go fuel sep (a :: cur) s.
Proof. reflexivity. Qed.

(** A text without the separator is not split. *)
Lemma split_go_absent sep : forall s cur fuel,
  includes sep s = false -> (length s < fuel)%nat ->
  split_go fuel sep cur s = [rev cur ++ s].
Proof.
  induction s as [|a s IH]; intros cur fuel Hinc Hfuel.
  - destruct fuel; [lia|]. simpl. now rewrite app_nil_r.
  - destruct fuel; [simpl in Hfuel; lia|].
    rewrite includes_cons in Hinc. apply orb_false_iff in Hinc.
    destruct Hinc as [Hst Hinc].
    rewrite split_go_S, Hst, IH by (simpl in Hfuel; auto; lia).
    simpl. now rewrite <- app_assoc.
Qed.

Lemma split_absent sep s : includes sep s = false -> split sep s = [s].
Proof.
  intros H. unfold split. now rewrite split_go_absent by (auto; lia).
Qed.

(** No piece of a split at a one-character separator holds that
    character. *)
Lemma split_go_unit_pieces c : forall fuel s cur piece,
  (length s < fuel)%nat -> ~ In c cur ->
  In piece (split_go fuel [c] cur s) -> ~ In c piece.
Proof.
  induction fuel as [|fuel IH]; intros s cur piece Hfuel Hcur Hin; [lia|].
  destruct s as [|a s].
  - simpl in Hin. destruct Hin as [<-|[]]. now rewrite <- in_rev.
  - rewrite split_go_S in Hin. simpl starts_with in Hin.
    rewrite andb_true_r in Hin. simpl in Hfuel.
    destruct (N.eqb_spec c a) as [->|Hne].
    + destruct Hin as [<-|Hin]; [now rewrite <- in_rev|].
      apply (IH s [] piece); auto; lia.
    + apply (IH s (a :: cur) piece); auto; [lia|].
      intros [->|H]; [congruence | contradiction].
Qed.

Lemma split_unit_pieces c s piece :
  In piece (split [c] s) -> ~ In c piece.
Proof.
  unfold split. apply split_go_unit_pieces; auto.
Qed.

(** [trim_start] drops a prefix; what is left is empty or starts with a
    character that is not white space. *)
Lemma trim_start_incl s x : In x (trim_start s) -> In x s.
Proof.
  induction s as [|c s IH]; simpl; [tauto|].
  destruct (is_white_space c); [right; apply IH; assumption | trivial].
Qed.

Lemma trim_incl s x : In x (trim s) -> In x s.
Proof.
  unfold trim. intros H. apply in_rev in H.
  apply trim_start_incl in H. apply in_rev in H.
  apply trim_start_incl in H. exact H.
Qed.

Lemma trim_start_clean s : starts_clean (trim_start s).
Proof.
  induction s as [|c s IH]; simpl; [exact I|].
  destruct (is_white_space c) eqn:E; [exact IH | exact E].
Qed.

Lemma trim_start_id s : starts_clean s -> trim_start s = s.
Proof.
  destruct s as [|c s]; simpl; [reflexivity|]. now intros ->.
Qed.

Lemma trim_start_suffix s : exists pre, s = pre ++ trim_start s.
Proof.
  induction s as [|c s [pre IH]]; simpl.
  - now exists [].
  - destruct (is_white_space c).
    + exists (c :: pre). simpl. now f_equal.
    + now exists [].
Qed.

(** The last character of a text that starts clean stays in front of
    the reversed text after [trim_start]. *)
Lemma starts_clean_rev_trim t :
  starts_clean t -> starts_clean (rev (trim_start (rev t))).
Proof.
  intros Ht. destruct (trim_start_suffix (rev t)) as [pre Hpre].
  destruct t as [|c t]; [exact I|].
  apply (f_equal (@rev N)) in Hpre. rewrite rev_involutive, rev_app_distr in Hpre.
  destruct (rev (trim_start (rev (c :: t)))) as [|x u] eqn:E; [exact I|].
  simpl in Hpre. injection Hpre as -> _. exact Ht.
Qed.

(** A trimmed text is not changed by trimming again. *)
Lemma trim_idempotent s : trim (trim s) = trim s.
Proof.
  unfold trim.
  set (t := trim_start s).
  assert (Ht : starts_clean t) by apply trim_start_clean.
  set (u := trim_start (rev t)).
  assert (Hu : starts_clean u) by apply trim_start_clean.
  rewrite (trim_start_id (rev u)) by (apply starts_clean_rev_trim, Ht).
  rewrite rev_involutive. now rewrite (trim_start_id u).
Qed.

End StringFacts.

(** ** The decoder: envelope, segments, byte repair *)

Module DecoderExtras.

Import SnapSaveDecoder StringFacts.

Lemma unescape_cons c s1 :
  unescape (c :: s1) =
  if (c =? 92)%N then
    match s1 with
    | c2 :: s2 => if (c2 =? 92)%N then unescape s2 else unescape s1
    | [] => []
    end
  else c :: unescape s1.
Proof. reflexivity. Qed.

Lemma unescape_filter_upto n : forall s, (length s <= n)%nat ->
  unescape s = filter not_backslash s.
Proof.
  induction n as [|n IH]; intros s Hlen.
  - destruct s; [reflexivity | simpl in Hlen; lia].
  - destruct s as [|c s]; [reflexivity|].
    simpl in Hlen. rewrite unescape_cons. cbn [filter]. unfold not_backslash at 1.
    destruct (N.eqb_spec c 92) as [->|Hc]; cbn [negb].
    + destruct s as [|c2 s]; [reflexivity|]. simpl in Hlen.
      destruct (N.eqb_spec c2 92) as [->|Hc2].
      * cbn [filter]. unfold not_backslash at 1. simpl negb. cbv iota.
        apply IH. lia.
      * apply IH. simpl. lia.
    + f_equal. apply IH. lia.
Qed.

(** The unescaping of [getDecodedSnapSave] removes the backslashes and
    nothing else. *)
Lemma unescape_filter s : unescape s = filter not_backslash s.
Proof. apply unescape_filter_upto with (n := length s). lia. Qed.

(** X1. Whatever [getDecodedSnapSave] returns holds no backslash: the
    replacement of a backslash and of an optional second one removes
    every backslash of the embedded HTML. *)
Theorem getDecodedSnapSave_no_backslash (data html : jsstring) :
  getDecodedSnapSave data = Ret html -> ~ In 92%N html.
Proof.
  unfold getDecodedSnapSave.
  destruct (nth_error (split html_open data) 1) as [tail|]; [|discriminate].
  destruct (split html_close tail) as [|body rest]; [discriminate|].
  intros [= <-]. rewrite unescape_filter. intros H.
  apply filter_In in H. destruct H as [_ H]. discriminate H.
Qed.

(** A response text without the call marker of the cipher makes
    [getEncodedSnapApp] read [split] of [undefined]. *)
Lemma getEncodedSnapApp_no_marker data :
  includes (lit "decodeURIComponent(escape(r))}(") data = false ->
  getEncodedSnapApp data = Throw TypeError.
Proof.
  intros H. unfold getEncodedSnapApp. now rewrite (split_absent _ _ H).
Qed.

(** X2. Every argument [getEncodedSnapApp] returns is free of double
    quotes and of commas, and carries no white space at either end. *)
Theorem getEncodedSnapApp_arguments_clean (data : jsstring)
  (args : list jsstring) (a : jsstring) :
  getEncodedSnapApp data = Ret args -> In a args ->
  ~ In 34%N a /\ ~ In 44%N a /\ trim a = a.
Proof.
  unfold getEncodedSnapApp.
  destruct (nth_error _ 1) as [tail|]; [|discriminate].
  destruct (split (lit "))") tail) as [|inner rest]; [discriminate|].
  intros [= <-] Hin. apply in_map_iff in Hin.
  destruct Hin as (v & <- & Hv). repeat split.
  - intros H. apply trim_incl, filter_In in H. destruct H as [_ H]. discriminate H.
  - intros H. apply trim_incl, filter_In in H. destruct H as [H _].
    revert H. apply (split_unit_pieces 44%N inner). exact Hv.
  - apply trim_idempotent.
Qed.

Lemma getEncodedSnapApp_arguments_clean_witness :
  ~ In 34%N (lit "abcdefghi") /\ ~ In 44%N (lit "abcdefghi")
  /\ trim (lit "abcdefghi") = lit "abcdefghi".
Proof.
  apply (@getEncodedSnapApp_arguments_clean Fixtures.response_text
           [Fixtures.cipher_text; lit "12"; lit "abcdefghi"; lit "1"; lit "8";
            lit "5"]).
  - vm_compute. reflexivity.
  - right. right. left. reflexivity.
Defined.

Lemma getDecodedSnapSave_no_backslash_witness :
  ~ In 92%N Fixtures.figure_html.
Proof.
  apply (@getDecodedSnapSave_no_backslash
           (html_open ++ lit "<article class=\" ++ dq ++ lit "media\" ++ dq
            ++ lit "><figure></figure></article>" ++ html_close)).
  vm_compute. reflexivity.
Defined.

(** *** Segments *)

Lemma skipn_nth_error {A} (l : list A) i c :
  nth_error l i = Some c -> skipn i l = c :: skipn (S i) l.
Proof.
  revert i. induction l as [|x l IH]; intros [|i]; simpl; try discriminate.
  - now intros [= ->].
  - intros H. now rewrite (IH i H).
Qed.

(** Past the end of the text the scan never stops on a delimiter. *)
Lemma scan_past_end enc d : forall fuel i segment r,
  (length enc <= i)%nat -> scan fuel enc (Some d) i segment <> Ret r.
Proof.
  induction fuel as [|fuel IH]; intros i segment r Hi; [discriminate|].
  rewrite DecoderFacts.scan_S.
  assert (E : nth_error enc i = None) by now apply nth_error_None.
  rewrite E. cbn [strict_eq_unit to_string_unit].
  destruct (concat segment (lit "undefined")) as [s'| | |]; cbn [bind];
    try discriminate.
  apply IH. lia.
Qed.

(** When the scan stops, it stands on the first delimiter at or after
    its start and has collected the characters before it. *)
Lemma scan_returns enc d : forall fuel i segment i' segment',
  scan fuel enc (Some d) i segment = Ret (i', segment') ->
  exists mid,
    skipn i enc = mid ++ d :: skipn (S i') enc
    /\ ~ In d mid /\ i' = (i + length mid)%nat /\ segment' = segment ++ mid.
Proof.
  induction fuel as [|fuel IH]; intros i segment i' segment'; [discriminate|].
  rewrite DecoderFacts.scan_S.
  destruct (nth_error enc i) as [c|] eqn:E;
    cbn [strict_eq_unit to_string_unit].
  - destruct (N.eqb_spec c d) as [->|Hne].
    + intros [= <- <-]. exists []. rewrite (skipn_nth_error _ _ E).
      rewrite Nat.add_0_r, app_nil_r. auto.
    + unfold concat.
      destruct (MAX_STRING_LENGTH <?
                N.of_nat (length segment) + N.of_nat (length [c]))%N;
        cbn [bind]; [discriminate|].
      intros H. destruct (IH _ _ _ _ H) as (mid & Hs & Hm & -> & ->).
      exists (c :: mid). rewrite (skipn_nth_error _ _ E), Hs. simpl.
      rewrite <- app_assoc. simpl.
      split; [reflexivity|]. split; [|split; [lia | reflexivity]].
      intros [->|Hin]; [congruence | contradiction].
  - destruct (concat segment (lit "undefined")) as [s'| | |]; cbn [bind];
      try discriminate.
    intros H. exfalso. revert H. apply scan_past_end.
    apply nth_error_None in E. lia.
Qed.

Lemma count_occ_absent d (mid : list N) :
  ~ In d mid -> count_occ N.eq_dec mid d = 0%nat.
Proof. apply count_occ_not_In. Qed.

(** The loop invariant of the outer loop: what it returns has one
    character more for every delimiter ahead, and it only returns at the
    end of a text whose last character is a delimiter (or which is
    empty). *)
Lemma segments_returns enc cm sub base b d :
  ToNumber base = Ret b -> char_at cm b = Some d ->
  forall fuel i acc out,
  segments fuel enc (Some cm) sub (Some base) i acc = Ret out ->
  length out = (length acc + count_occ N.eq_dec (skipn i enc) d)%nat
  /\ ((i < length enc)%nat -> exists pre, enc = pre ++ [d]).
Proof.
  intros Hb Hd. induction fuel as [|fuel IH]; intros i acc out; [discriminate|].
  cbn [segments]. destruct (Nat.ltb_spec i (length enc)) as [Hi|Hi].
  - cbn [delimiter_of]. rewrite Hb. cbn [bind]. rewrite Hd.
    destruct (scan (S fuel) enc (Some d) i []) as [[i' segment]| | |] eqn:Es;
      try discriminate.
    destruct (scan_returns _ _ _ _ _ Es) as (mid & Hs & Hm & Hi' & _).
    cbn [bind].
    destruct (substitute cm segment) as [segment'| | |]; try discriminate.
    cbn [bind].
    destruct (decodeNumber_of (S fuel) segment' (Some base) 10)
      as [digits| | |]; try discriminate.
    cbn [bind]. destruct (ToNumber digits) as [v| | |]; try discriminate.
    cbn [bind]. destruct (subtract v sub) as [code| | |]; try discriminate.
    cbn [bind]. intros H. destruct (IH _ _ _ H) as [Hlen Hend]. split.
    + rewrite Hlen, Hs, length_app, count_occ_app, (@count_occ_absent d mid Hm).
      simpl. destruct (N.eq_dec d d); [lia | congruence].
    + intros _.
      assert (Hlt : (i' < length enc)%nat).
      { apply nth_error_Some. intros E.
        apply (f_equal (@length N)) in Hs.
        rewrite length_skipn, length_app in Hs. simpl in Hs.
        apply nth_error_None in E. lia. }
      destruct (Nat.lt_ge_cases (S i') (length enc)) as [Hmore|Hlast].
      * apply Hend, Hmore.
      * exists (firstn i' enc).
        rewrite <- (firstn_skipn i' enc) at 1. f_equal.
        assert (E : nth_error enc i' = Some d).
        { rewrite <- (firstn_skipn i enc), nth_error_app2
            by (rewrite length_firstn; lia).
          rewrite length_firstn, Nat.min_l by lia.
          rewrite Hs, Hi', nth_error_app2 by lia.
          replace (i + length mid - i - length mid)%nat with 0%nat by lia.
          reflexivity. }
        rewrite (skipn_nth_error _ _ E), skipn_all2 by lia. reflexivity.
  - intros [= <-]. rewrite skipn_all2 by lia. simpl. split; lia.
Qed.

(** X3. When [decodeSnapApp] returns, with a delimiter symbol defined by
    [charMap] and [base], the cipher text is empty or ends with the
    delimiter: a text whose last segment is not closed is never
    decoded. *)
Theorem decodeSnapApp_returns_terminated
  (args : list jsstring) (encodedContent charMap base text : jsstring)
  (b : Z) (d : N) (fuel : nat) :
  nth_error args 0 = Some encodedContent ->
  nth_error args 2 = Some charMap ->
  nth_error args 4 = Some base ->
  ToNumber base = Ret b ->
  char_at charMap b = Some d ->
  decodeSnapApp fuel args = Ret text ->
  encodedContent = [] \/ exists pre, encodedContent = pre ++ [d].
Proof.
  intros H0 H2 H4 Hb Hd. unfold decodeSnapApp. rewrite H0, H2, H4.
  destruct (segments fuel encodedContent (Some charMap) (nth_error args 3)
              (Some base) 0 []) as [out| | |] eqn:E; try discriminate.
  intros _.
  destruct (@segments_returns encodedContent charMap (nth_error args 3) base
              b d Hb Hd fuel 0%nat [] out E) as [_ Hend].
  destruct encodedContent as [|c enc]; [now left|].
  right. apply Hend. simpl. lia.
Qed.

Lemma decodeSnapApp_returns_terminated_witness :
  lit "bcbebdde" = [] \/ exists pre, lit "bcbebdde" = pre ++ [101%N].
Proof.
  apply (@decodeSnapApp_returns_terminated
           [lit "bcbebdde"; lit "u"; lit "abcde"; lit "1"; lit "4"; lit ""]
           (lit "bcbebdde") (lit "abcde") (lit "4") [24%N; 30%N] 4%Z 101%N 100);
    reflexivity.
Defined.

(** X4. The outer loop of [decodeSnapApp] appends one character for every
    delimiter of the cipher text: what it hands to the byte repair has as
    many code units as the text has delimiters. *)
Theorem segments_one_per_delimiter
  (encodedContent charMap base out : jsstring) (sub : option jsstring)
  (b : Z) (d : N) (fuel : nat) :
  ToNumber base = Ret b ->
  char_at charMap b = Some d ->
  segments fuel encodedContent (Some charMap) sub (Some base) 0 [] = Ret out ->
  length out = count_occ N.eq_dec encodedContent d.
Proof.
  intros Hb Hd E.
  destruct (@segments_returns encodedContent charMap sub base b d Hb Hd
              fuel 0%nat [] out E) as [Hlen _].
  exact Hlen.
Qed.

Lemma segments_one_per_delimiter_witness :
  length [24%N; 30%N] = count_occ N.eq_dec (lit "bcbebdde") 101%N.
Proof.
  apply (@segments_one_per_delimiter (lit "bcbebdde") (lit "abcde") (lit "4")
           [24%N; 30%N] (Some (lit "1")) 4%Z 101%N 100); reflexivity.
Defined.

(** *** The decimal string between [decodeNumber] and the subtraction *)

Local Open Scope Z_scope.

Lemma digit_decimal d : 0 <= d < 10 ->
  digit d = Z.to_N (48 + d) /\ digit_value (digit d) = Some d.
Proof.
  intros Hd.
  assert (H : d = 0 \/ d = 1 \/ d = 2 \/ d = 3 \/ d = 4 \/ d = 5 \/ d = 6
              \/ d = 7 \/ d = 8 \/ d = 9) by lia.
  repeat (destruct H as [->|H]; [split; reflexivity|]). subst. split; reflexivity.
Qed.

Lemma parse_digits_app s1 : forall acc s2,
  parse_digits acc (s1 ++ s2) =
  match parse_digits acc s1 with
  | Some a => parse_digits a s2
  | None => None
  end.
Proof.
  induction s1 as [|c s1 IH]; intros acc s2; simpl; [reflexivity|].
  destruct (digit_value c); [apply IH | reflexivity].
Qed.

Lemma produced_tail b d ds : produced b (d :: ds) -> produced b ds.
Proof. intros (_ & _ & H). exact H. Qed.

Lemma produced_head b d ds : produced b (d :: ds) -> 0 <= d < b.
Proof. intros (H & _). exact H. Qed.

(** The decimal digits the re-encoding loop writes read back as the
    number. *)
Lemma parse_digits_produced ds :
  produced 10 ds ->
  parse_digits 0 (map digit (rev ds)) = Some (value 10 ds).
Proof.
  induction ds as [|d ds IH]; intros Hp; [reflexivity|].
  simpl rev. rewrite map_app, parse_digits_app, IH by (eapply produced_tail; eauto).
  simpl. destruct (@digit_decimal d (produced_head Hp)) as [_ ->].
  f_equal. lia.
Qed.

Lemma decimal_not_space c : is_decimal c = true -> is_white_space c = false.
Proof.
  unfold is_decimal, is_white_space, is_line_terminator. intros H.
  apply andb_true_iff in H. destruct H as [H1 H2].
  apply N.leb_le in H1, H2.
  repeat match goal with
         | |- context [(c =? ?k)%N] =>
             destruct (N.eqb_spec c k); [lia|]
         end.
  destruct (N.leb_spec 8192 c); [lia|]. reflexivity.
Qed.

Lemma trim_decimal s : forallb is_decimal s = true -> trim s = s.
Proof.
  intros H. unfold trim.
  assert (Hc : forall t, forallb is_decimal t = true -> trim_start t = t).
  { intros [|c t]; simpl; [reflexivity|]. intros Ht.
    apply andb_true_iff in Ht. destruct Ht as [Ht _].
    now rewrite decimal_not_space. }
  rewrite (Hc s H), Hc, rev_involutive; [reflexivity|].
  rewrite forallb_forall in *. intros x Hx. apply H. now apply in_rev.
Qed.

Lemma digit_is_decimal d : 0 <= d < 10 -> is_decimal (digit d) = true.
Proof.
  intros Hd. destruct (digit_decimal Hd) as [-> _].
  unfold is_decimal. apply andb_true_iff. split; apply N.leb_le; lia.
Qed.

Lemma produced_digits_decimal ds :
  produced 10 ds -> forallb is_decimal (map digit (rev ds)) = true.
Proof.
  intros Hp. apply forallb_forall. intros x Hx.
  apply in_map_iff in Hx. destruct Hx as (d & <- & Hd).
  apply in_rev in Hd. apply digit_is_decimal.
  revert Hp Hd. induction ds as [|e ds IH]; [intros _ []|].
  intros Hp [->|Hin]; [eapply produced_head; eauto|].
  apply IH; [eapply produced_tail; eauto | exact Hin].
Qed.

(** What the fold of [decodeNumber] returns is a number a double holds
    exactly. *)
Lemma exact_bound z n : exact z = Ret n -> n = z /\ Z.abs n <= MAX_EXACT.
Proof.
  unfold exact. destruct (Z.leb_spec (Z.abs z) MAX_EXACT); [|discriminate].
  intros [= <-]. auto.
Qed.

Lemma reduce_bound cs b : forall chars sum k n,
  Z.abs sum <= MAX_EXACT ->
  reduce cs b sum k chars = Ret n -> Z.abs n <= MAX_EXACT.
Proof.
  induction chars as [|c chars IH]; intros sum k n Hs; simpl.
  - now intros [= <-].
  - unfold reduce_step. destruct (indexOf c cs) as [j|]; simpl.
    + destruct (exact (b ^ Z.of_nat k)) as [p| | |]; simpl; try discriminate.
      destruct (exact (Z.of_nat j * p)) as [t| | |]; simpl; try discriminate.
      destruct (exact (sum + t)) as [s'| | |] eqn:E; simpl; try discriminate.
      apply IH. now apply exact_bound in E.
    + apply IH, Hs.
Qed.

(** The decimal string of the re-encoding reads back as the number. *)
Lemma reencode_decimal (n : Z) (fuel : nat) :
  0 <= n <= MAX_EXACT -> (55 <= fuel)%nat ->
  exists digits,
    reencode fuel n 10 = Ret digits /\ ToNumber digits = Ret n.
Proof.
  intros [Hn Hmax] Hfuel.
  destruct fuel as [|fuel]; [lia|].
  assert (Hlt : 0 <= n < 2 ^ Z.of_nat fuel).
  { split; [lia|]. apply Z.le_lt_trans with (2 ^ 53); [exact Hmax|].
    apply Z.pow_lt_mono_r; lia. }
  assert (H10 : 2 <= 10 <= 64) by lia.
  destruct (BaseConverterFacts.encode_loop_digits H10 fuel [] Hlt)
    as (ds & Hrun & Hp & Hv).
  unfold reencode. rewrite Hrun. cbn [bind]. rewrite app_nil_r.
  destruct ds as [|d ds].
  - simpl in Hv. subst n. exists (lit "0"). split; reflexivity.
  - assert (Hdig := produced_digits_decimal (d :: ds) Hp).
    assert (Hparse := parse_digits_produced (d :: ds) Hp).
    destruct (map digit (rev (d :: ds))) as [|c cs] eqn:E.
    { apply (f_equal (@length N)) in E.
      rewrite length_map, length_rev in E. discriminate. }
    exists (c :: cs). split; [reflexivity|].
    unfold ToNumber. rewrite trim_decimal by exact Hdig.
    simpl in Hdig. apply andb_true_iff in Hdig. destruct Hdig as [Hc _].
    unfold is_decimal in Hc. apply andb_true_iff in Hc. destruct Hc as [Hc1 Hc2].
    apply N.leb_le in Hc1, Hc2.
    destruct (N.eqb_spec c 43); [lia|]. destruct (N.eqb_spec c 45); [lia|].
    unfold parse_unsigned. rewrite Hparse, Hv.
    unfold exact. rewrite Z.abs_eq by lia.
    destruct (Z.leb_spec n MAX_EXACT); [reflexivity | lia].
Qed.

(** X5. The decimal string [decodeNumber] returns for target base 10
    converts back to the number the digits denote: in [decodeSnapApp] the
    value the offset is subtracted from is the value of the segment in
    base [base]. *)
Theorem decodeNumber_decimal_readback
  (value_ : jsstring) (fromBase n : Z) (fuel : nat) :
  toDecimal value_ fromBase = Ret n -> 0 <= n -> (55 <= fuel)%nat ->
  exists digits,
    decodeNumber fuel value_ fromBase 10 = Ret digits
    /\ ToNumber digits = Ret n.
Proof.
  intros Hdec Hn Hfuel.
  assert (Hmax : n <= MAX_EXACT).
  { unfold toDecimal in Hdec. apply reduce_bound in Hdec; [lia|].
    simpl. unfold MAX_EXACT. lia. }
  unfold decodeNumber. rewrite Hdec. cbn [bind].
  apply reencode_decimal; [split; assumption | exact Hfuel].
Qed.

Lemma decodeNumber_decimal_readback_witness :
  exists digits,
    decodeNumber 64 (lit "121") 4 10 = Ret digits /\ ToNumber digits = Ret 25.
Proof.
  apply (@decodeNumber_decimal_readback (lit "121") 4 25 64).
  - reflexivity.
  - lia.
  - lia.
Defined.

Local Close Scope Z_scope.

(** *** Byte repair on plain text *)

Lemma utf8_decode_ascii fatal : forall bytes,
  forallb (fun b => (b <=? 127)%N) bytes = true ->
  utf8_decode fatal idle bytes = Ret bytes.
Proof.
  induction bytes as [|b bs IH]; intros H; [reflexivity|].
  simpl in H. apply andb_true_iff in H. destruct H as [Hb Hbs].
  simpl. unfold lead_step. rewrite Hb, (IH Hbs). reflexivity.
Qed.

Lemma utf16_ascii bytes :
  forallb (fun b => (b <=? 127)%N) bytes = true ->
  flat_map utf16_encode bytes = bytes.
Proof.
  induction bytes as [|b bs IH]; intros H; [reflexivity|].
  simpl in H. apply andb_true_iff in H. destruct H as [Hb Hbs].
  simpl. rewrite (IH Hbs). unfold utf16_encode.
  apply N.leb_le in Hb. destruct (N.ltb_spec b 65536); [reflexivity | lia].
Qed.

(** X6. Byte repair changes nothing in a text of 7-bit bytes: when the low
    byte of every code unit is below 128, [fixEncoding] returns those
    low bytes, and so returns an ASCII text as it is. *)
Theorem fixEncoding_seven_bit (str : jsstring) :
  forallb (fun b => (b <=? 127)%N) (bytes_of str) = true ->
  fixEncoding str = Ret (bytes_of str).
Proof.
  intros H. unfold fixEncoding, TextDecoder_decode.
  rewrite utf8_decode_ascii by exact H. cbn [bind]. f_equal.
  assert (Hb : strip_bom false (bytes_of str) = bytes_of str).
  { destruct (bytes_of str) as [|c t]; [reflexivity|]. simpl in *.
    apply andb_true_iff in H. destruct H as [Hc _]. apply N.leb_le in Hc.
    destruct (N.eqb_spec c 65279); [lia | reflexivity]. }
  rewrite Hb. apply utf16_ascii, H.
Qed.

Lemma fixEncoding_seven_bit_witness :
  fixEncoding (lit "<a href>") = Ret (lit "<a href>").
Proof.
  apply (fixEncoding_seven_bit (lit "<a href>")). reflexivity.
Defined.

(** *** Payloads without a base *)

Local Open Scope Z_scope.

Lemma indexOf_lt c : forall l k, indexOf c l = Some k -> (k < length l)%nat.
Proof.
  induction l as [|x l IH]; intros k; simpl; [discriminate|].
  destruct (x =? c)%N; [intros [= <-]; lia|].
  destruct (indexOf c l) as [i|]; [|discriminate].
  intros [= <-]. specialize (IH i eq_refl). lia.
Qed.

(** After index 0 every digit of the alphabet turns the sum into NaN. *)
Lemma reduce_undefined_tail : forall chars index sum,
  exists r, reduce_undefined sum (S index) chars = Ret r
            /\ (r = sum \/ r = NaN).
Proof.
  induction chars as [|c chars IH]; intros index sum.
  - exists sum. simpl. auto.
  - cbn [reduce_undefined]. unfold reduce_step_undefined.
    destruct (indexOf c charset) as [k|].
    + cbn [pow_undefined mul_num bind].
      assert (Hn : add_num sum NaN = Ret NaN) by (destruct sum; reflexivity).
      rewrite Hn. cbn [bind].
      destruct (IH (S index) NaN) as (r & Hr & Hc). exists r.
      split; [exact Hr|]. right. destruct Hc; assumption.
    + cbn [bind]. apply IH.
Qed.

Lemma reduce_undefined_start chars :
  exists r, reduce_undefined (Int 0) 0 chars = Ret r
            /\ (r = NaN \/ exists z, r = Int z /\ 0 <= z < 64).
Proof.
  destruct chars as [|c chars].
  - exists (Int 0). split; [reflexivity|]. right. exists 0. split; [reflexivity | lia].
  - cbn [reduce_undefined]. unfold reduce_step_undefined.
    destruct (indexOf c charset) as [k|] eqn:E.
    + apply indexOf_lt in E. rewrite BaseConverterFacts.charset_length in E.
      cbn [pow_undefined mul_num].
      rewrite BaseConverterFacts.exact_in_range by (unfold MAX_EXACT; lia).
      cbn [bind add_num].
      rewrite BaseConverterFacts.exact_in_range by (unfold MAX_EXACT; lia).
      cbn [bind].
      destruct (reduce_undefined_tail chars 0 (Int (0 + Z.of_nat k * 1)))
        as (r & Hr & [-> | ->]); eexists; (split; [exact Hr|]).
      * right. eexists. split; [reflexivity | lia].
      * now left.
    + cbn [bind].
      destruct (reduce_undefined_tail chars 0 (Int 0))
        as (r & Hr & [-> | ->]); eexists; (split; [exact Hr|]).
      * right. exists 0. split; [reflexivity | lia].
      * now left.
Qed.

(** With [base] undefined [decodeNumber] still returns a decimal text,
    of a number below 64. *)
Lemma decodeNumber_of_undefined fuel value :
  (55 <= fuel)%nat ->
  exists digits z,
    decodeNumber_of fuel value None 10 = Ret digits
    /\ ToNumber digits = Ret z /\ 0 <= z < 64.
Proof.
  intros Hf. cbn [decodeNumber_of].
  destruct (reduce_undefined_start (rev value)) as (r & -> & [-> | (z & -> & Hz)]);
    cbn [bind].
  - exists (lit "0"), 0. repeat split; lia.
  - destruct (@reencode_decimal z fuel) as (digits & Hd & Hn);
      [unfold MAX_EXACT; lia | exact Hf |].
    exists digits, z. auto.
Qed.

(** Without a delimiter to wait for, the scan stops at the end of the
    text. *)
Lemma scan_no_delimiter enc : forall fuel i segment,
  (length enc - i < fuel)%nat ->
  (exists i' segment',
      scan fuel enc None i segment = Ret (i', segment')
      /\ (length enc <= i')%nat)
  \/ scan fuel enc None i segment = Throw RangeError.
Proof.
  induction fuel as [|fuel IH]; intros i segment Hf; [lia|].
  rewrite DecoderFacts.scan_S.
  destruct (nth_error enc i) as [c|] eqn:E; cbn [strict_eq_unit].
  - assert (Hi : (i < length enc)%nat) by (apply nth_error_Some; congruence).
    unfold concat.
    destruct (MAX_STRING_LENGTH <? _)%N; cbn [bind]; [now right|].
    apply IH. lia.
  - left. exists i, segment. split; [reflexivity|].
    now apply nth_error_None.
Qed.

Lemma substitute_from_outcome : forall rest j segment,
  (exists s, substitute_from j rest segment = Ret s)
  \/ substitute_from j rest segment = Throw SyntaxError.
Proof.
  induction rest as [|c rest IH]; intros j segment; cbn [substitute_from].
  - left. eexists. reflexivity.
  - unfold compile_unit.
    repeat match goal with
           | |- context [if ?b then _ else _] => destruct b
           end; cbn [bind]; try apply IH; now right.
Qed.

(** The outer loop with [base] undefined: one turn, one code unit. *)
Lemma segments_no_base enc cm sub fuel i acc :
  (i < length enc)%nat -> (length enc + 56 <= fuel)%nat ->
  (forall s, sub = Some s ->
     exists off, ToNumber s = Ret off /\ Z.abs off + 64 <= MAX_EXACT) ->
  (exists e, segments fuel enc (Some cm) sub None i acc = Throw e)
  \/ exists c, segments fuel enc (Some cm) sub None i acc = Ret (acc ++ [c]).
Proof.
  intros Hi Hf Hsub. destruct fuel as [|fuel]; [lia|].
  cbn [segments]. destruct (Nat.ltb_spec i (length enc)); [|lia].
  cbn [delimiter_of bind].
  destruct (@scan_no_delimiter enc (S fuel) i []) as [(i' & seg & -> & Hi')| ->];
    [lia | | left; eexists; reflexivity].
  cbn [bind]. unfold substitute.
  destruct (substitute_from_outcome cm 0 seg) as [(seg' & ->)| ->];
    [|left; eexists; reflexivity].
  cbn [bind].
  destruct (@decodeNumber_of_undefined (S fuel) seg') as (digits & z & -> & Hn & Hz);
    [lia|].
  cbn [bind]. rewrite Hn. cbn [bind].
  assert (Hcode : exists code, subtract z sub = Ret code).
  { destruct sub as [s|]; cbn [subtract]; [|eexists; reflexivity].
    destruct (Hsub s eq_refl) as (off & -> & Hoff). cbn [bind].
    unfold exact. destruct (Z.leb_spec (Z.abs (z - off)) MAX_EXACT); [|lia].
    eexists. reflexivity. }
  destruct Hcode as (code & ->). cbn [bind].
  destruct fuel as [|fuel]; [lia|]. cbn [segments].
  destruct (Nat.ltb_spec (S i') (length enc)); [lia|].
  right. eexists. reflexivity.
Qed.

(** Byte repair of one code unit gives one code unit. *)
Lemma fixEncoding_unit c : exists u, fixEncoding [c] = Ret [u].
Proof.
  unfold fixEncoding, bytes_of, TextDecoder_decode. cbn [map].
  assert (Hb : (c mod 256 < 256)%N) by (apply N.mod_lt; lia).
  set (b := (c mod 256)%N) in *.
  cbn [Codec.utf8_decode Codec.idle Codec.bytes_needed Nat.eqb].
  unfold Codec.lead_step, Codec.on_error, Codec.emit, Codec.REPLACEMENT.
  assert (Hone : forall x, (x < 65536)%N -> x <> 65279%N ->
            flat_map Codec.utf16_encode (Codec.strip_bom false [x]) = [x]).
  { intros x Hx Hne. cbn [Codec.strip_bom].
    destruct (N.eqb_spec x 65279); [contradiction|].
    cbn [flat_map]. unfold Codec.utf16_encode.
    destruct (N.ltb_spec x 65536); [reflexivity | lia]. }
  cbn [Codec.bytes_needed Codec.idle Nat.eqb].
  destruct (N.leb_spec b 127).
  { cbn [bind]. exists b. rewrite Hone by lia. reflexivity. }
  exists 65533%N.
  repeat match goal with
         | |- context [if ?t then _ else _] => destruct t
         end; cbn [bind]; rewrite Hone by lia; reflexivity.
Qed.

(** A payload whose fifth argument is missing decodes, if at all, to at
    most one code unit. *)
Lemma decodeSnapApp_short args fuel :
  nth_error args 4 = None ->
  (forall s, nth_error args 3 = Some s ->
     exists off, ToNumber s = Ret off /\ Z.abs off + 64 <= MAX_EXACT) ->
  (forall enc, nth_error args 0 = Some enc -> (length enc + 56 <= fuel)%nat) ->
  (exists e, decodeSnapApp fuel args = Throw e)
  \/ exists t, decodeSnapApp fuel args = Ret t /\ (length t <= 1)%nat.
Proof.
  intros H4 Hsub Hf. unfold decodeSnapApp. rewrite H4.
  destruct (nth_error args 0) as [enc|]; [|left; eexists; reflexivity].
  specialize (Hf enc eq_refl).
  destruct enc as [|a enc].
  { destruct fuel as [|fuel]; [simpl in Hf; lia|].
    right. exists []. split; [reflexivity | simpl; lia]. }
  destruct (nth_error args 2) as [cm|].
  2:{ destruct fuel as [|fuel]; [simpl in Hf; lia|].
      left. eexists. reflexivity. }
  destruct (@segments_no_base (a :: enc) cm (nth_error args 3) fuel 0%nat [])
    as [(e & ->)|(c & ->)]; try assumption; [simpl; lia | |].
  - left. eexists. reflexivity.
  - cbn [bind app]. destruct (fixEncoding_unit c) as (u & ->).
    right. exists [u]. split; [reflexivity | simpl; lia].
Qed.

(** Such a payload never gets through [decrypt]: what it decodes to is
    too short to hold the marker of the embedded HTML. *)
Lemma decrypt_short html args fuel :
  getEncodedSnapApp html = Ret args ->
  nth_error args 4 = None ->
  (forall s, nth_error args 3 = Some s ->
     exists off, ToNumber s = Ret off /\ Z.abs off + 64 <= MAX_EXACT) ->
  (forall enc, nth_error args 0 = Some enc -> (length enc + 56 <= fuel)%nat) ->
  exists e, decrypt fuel html = Throw e.
Proof.
  intros Ha H4 Hsub Hf. unfold decrypt. rewrite Ha. cbn [bind].
  destruct (decodeSnapApp_short args H4 Hsub Hf) as [(e & ->)|(t & -> & Ht)];
    [eexists; reflexivity|].
  cbn [bind]. unfold getDecodedSnapSave.
  assert (Hm : includes html_open t = false).
  { destruct t as [|u [|v t]]; [reflexivity | | simpl in Ht; lia].
    unfold html_open. cbn. now rewrite andb_false_r. }
  rewrite (split_absent _ _ Hm). eexists. reflexivity.
Qed.

Local Close Scope Z_scope.

End DecoderExtras.

(** ** The extractor: captures, descriptors, failures *)

Module ExtractorExtras.

Import MediaExtractor SnapSaverService StringFacts.
Local Open Scope string_scope.
Local Open Scope list_scope.

Lemma starts_with_split p : forall s,
  starts_with p s = true -> s = p ++ skipn (length p) s.
Proof.
  induction p as [|a p IH]; intros s; simpl; [reflexivity|].
  destruct s as [|b s]; [discriminate|].
  intros H. apply andb_true_iff in H. destruct H as [Hab H].
  apply N.eqb_eq in Hab. subst b. simpl. f_equal. apply IH, H.
Qed.

Lemma starts_with_self p s : starts_with p (p ++ s) = true.
Proof.
  induction p as [|a p IH]; simpl; [reflexivity|].
  now rewrite N.eqb_refl, IH.
Qed.

Lemma starts_with_longer p : forall s t,
  starts_with p s = true -> starts_with p (s ++ t) = true.
Proof.
  induction p as [|a p IH]; intros s t; simpl; [reflexivity|].
  destruct s as [|b s]; [discriminate|]. simpl.
  intros H. apply andb_true_iff in H. destruct H as [-> H].
  now rewrite (IH _ _ H).
Qed.

Lemma lazy_group_eq s acc :
  lazy_group s acc =
  if starts_with (lit "')") s then Some (rev acc)
  else match s with
       | [] => None
       | c :: s' =>
           if is_line_terminator c then None else lazy_group s' (c :: acc)
       end.
Proof. destruct s; reflexivity. Qed.

Lemma starts_with_shorter p s t :
  starts_with p (s ++ t) = false -> starts_with p s = false.
Proof.
  intros H. destruct (starts_with p s) eqn:E; [|reflexivity].
  now rewrite (starts_with_longer _ _ t E) in H.
Qed.

(** What the lazy group returns: the characters up to the first [')],
    none of them a line terminator. *)
Lemma lazy_group_sound : forall s acc g,
  lazy_group s acc = Some g ->
  exists mid post,
    g = rev acc ++ mid
    /\ s = mid ++ lit "')" ++ post
    /\ existsb is_line_terminator mid = false
    /\ includes (lit "')") mid = false.
Proof.
  induction s as [|c s IH]; intros acc g; rewrite lazy_group_eq.
  - simpl. discriminate.
  - destruct (starts_with (lit "')") (c :: s)) eqn:E.
    + intros [= <-]. exists [], (skipn (length (lit "')")) (c :: s)).
      rewrite app_nil_r. repeat split.
      apply (starts_with_split _ _ E).
    + destruct (is_line_terminator c) eqn:El; [discriminate|].
      intros H. destruct (IH _ _ H) as (mid & post & -> & -> & Hlt & Hinc).
      exists (c :: mid), post.
      split; [simpl rev; rewrite <- app_assoc; reflexivity|].
      split; [reflexivity|]. split.
      * simpl. now rewrite El.
      * rewrite includes_cons, Hinc, orb_false_r.
        apply starts_with_shorter with (t := lit "')" ++ post). exact E.
Qed.

(** X7. What the capture pattern of the table layout returns is the text
    between the first [get_progressApi('] that is followed by a closing
    ['\)] on the same line and that closing: the captured path holds no
    line terminator and no [')]. *)
Theorem exec_progressApi_sound (s g : jsstring) :
  exec_progressApi s = Some g ->
  (exists pre post, s = pre ++ lit "get_progressApi('" ++ g ++ lit "')" ++ post)
  /\ existsb is_line_terminator g = false
  /\ includes (lit "')") g = false.
Proof.
  induction s as [|c s IH]; rewrite ExtractorFacts.exec_progressApi_eq; cbv zeta.
  - simpl. discriminate.
  - assert (Hlater : exec_progressApi s = Some g ->
              (exists pre post,
                 c :: s = pre ++ lit "get_progressApi('" ++ g ++ lit "')" ++ post)
              /\ existsb is_line_terminator g = false
              /\ includes (lit "')") g = false).
    { intros H. destruct (IH H) as ((pre & post & ->) & Hrest).
      split; [|exact Hrest]. now exists (c :: pre), post. }
    destruct (starts_with (lit "get_progressApi('") (c :: s)) eqn:E;
      [|exact Hlater].
    destruct (lazy_group _ []) as [g'|] eqn:El; [|exact Hlater].
    intros [= ->].
    destruct (lazy_group_sound _ _ El) as (mid & post & -> & Hs & Hlt & Hinc).
    split; [|split; assumption].
    exists [], post. simpl app at 1.
    rewrite (starts_with_split _ _ E) at 1. now rewrite Hs.
Qed.

Lemma exec_progressApi_sound_witness :
  (exists pre post,
     lit "x=get_progressApi('/a')+get_progressApi('/b')"
     = pre ++ lit "get_progressApi('" ++ lit "/a" ++ lit "')" ++ post)
  /\ existsb is_line_terminator (lit "/a") = false
  /\ includes (lit "')") (lit "/a") = false.
Proof.
  apply (@exec_progressApi_sound
           (lit "x=get_progressApi('/a')+get_progressApi('/b')") (lit "/a")).
  reflexivity.
Defined.

(** *** Descriptors *)

Lemma each_In {A B} (f : A -> outcome B) : forall l ys y,
  each f l = Ret ys -> In y ys -> exists x, In x l /\ f x = Ret y.
Proof.
  induction l as [|x l IH]; intros ys y; simpl.
  - intros [= <-] [].
  - destruct (f x) as [y0| | |] eqn:Ex; simpl; try discriminate.
    destruct (each f l) as [ys0| | |] eqn:El; simpl; try discriminate.
    intros [= <-] [<-|Hin].
    + exists x. auto.
    + destruct (IH _ _ eq_refl Hin) as (x' & Hx' & Hf). exists x'. auto.
Qed.

(** The entries of the three layouts of branch 1. *)
Lemma table_entry_fields res action :
  let m := table_entry res action in
  type m <> None
  /\ thumbnail m = None
  /\ (shouldRender m = None
      \/ shouldRender m = Some true
         /\ exists tail, url m = Some (lit "https://snapsave.app" ++ tail)).
Proof.
  unfold table_entry. cbv zeta.
  destruct (test_progressApi _); simpl.
  - repeat split; [discriminate|]. right. split; [reflexivity|].
    eexists. reflexivity.
  - repeat split; [discriminate|]. now left.
Qed.

Lemma download_item_fields el m :
  download_item el = Ret m ->
  type m <> None /\ shouldRender m = None /\ resolution m = None
  /\ (thumbnail m <> None -> type m = Some video).
Proof.
  unfold download_item. cbv zeta.
  destruct (type_of_label (item_label el)) eqn:Et.
  - simpl. intros [= <-]. simpl. repeat split; congruence.
  - match goal with
    | |- bind ?t _ = _ -> _ => destruct t as [thumb| | |]; simpl; try discriminate
    end.
    intros [= <-]. simpl. repeat split; congruence.
Qed.

(** Every descriptor an extraction returns, with the arm that made it. *)
Lemma extract_In d data media m :
  snd (extract d) = Ret (data, media) -> In m media ->
  (fst (extract d) = TableLayout /\ exists res action, m = table_entry res action)
  \/ (fst (extract d) = CardLayout /\ exists el, m = card el)
  \/ (fst (extract d) = SimpleLayout /\ In m (extractSimpleMedia d))
  \/ (fst (extract d) = DownloadItemsLayout /\ exists el, download_item el = Ret m).
Proof.
  unfold extract.
  destruct (table_marker d || figure_marker d).
  - destruct (table_marker d); [|destruct (card_marker d)]; simpl;
      intros [= <- <-] Hin.
    + left. split; [reflexivity|].
      apply in_map_iff in Hin. destruct Hin as (el & <- & _).
      now exists (row_resolution el), (row_action el).
    + right. left. split; [reflexivity|].
      apply in_map_iff in Hin. destruct Hin as (el & <- & _). now exists el.
    + right. right. left. auto.
  - destruct (download_items_marker d); simpl.
    + unfold extractDownloadItemsMedia.
      destruct (each download_item _) as [ys| | |] eqn:E; simpl; try discriminate.
      intros [= <- <-] Hin. right. right. right. split; [reflexivity|].
      destruct (each_In _ _ _ E Hin) as (el & _ & Hel). now exists el.
    + intros [= <- <-] [].
Qed.

(** X8. The optional fields of a descriptor.  In whatever an extraction
    returns: [shouldRender] is either absent or true, and when it is
    true the layout is the table layout and the url starts with the
    fixed host; a thumbnail is only ever attached to a video of the
    download-items layout; a resolution only to an entry of the table
    layout. *)
Theorem descriptor_optional_fields (d : document)
  (data : SnapSaveDownloaderData) (media : list SnapSaveDownloaderMedia)
  (m : SnapSaveDownloaderMedia) :
  snd (extract d) = Ret (data, media) -> In m media ->
  (shouldRender m = None
   \/ shouldRender m = Some true /\ fst (extract d) = TableLayout
      /\ exists tail, url m = Some (lit "https://snapsave.app" ++ tail))
  /\ (thumbnail m <> None ->
      type m = Some video /\ fst (extract d) = DownloadItemsLayout)
  /\ (resolution m <> None -> fst (extract d) = TableLayout).
Proof.
  intros He Hin.
  destruct (extract_In _ _ He Hin)
    as [(Hl & res & action & ->)|[(Hl & el & ->)|[(Hl & Hs)|(Hl & el & Hel)]]].
  - destruct (table_entry_fields res action) as (_ & Hth & Hsr).
    repeat split; try congruence.
    destruct Hsr as [Hsr|(Hsr & Hurl)]; [now left | right; auto].
  - simpl. repeat split; try congruence. now left.
  - destruct Hs as [<-|[]]. simpl. repeat split; try congruence. now left.
  - destruct (download_item_fields _ Hel) as (_ & Hsr & Hres & Hth).
    repeat split; try congruence; auto.
Qed.

Lemma descriptor_optional_fields_witness :
  (shouldRender (table_row (Fixtures.table_row_at Fixtures.table_and_items_document 1))
   = None
   \/ shouldRender
        (table_row (Fixtures.table_row_at Fixtures.table_and_items_document 1))
      = Some true
      /\ fst (extract Fixtures.table_and_items_document) = TableLayout
      /\ exists tail,
          url (table_row (Fixtures.table_row_at Fixtures.table_and_items_document 1))
          = Some (lit "https://snapsave.app" ++ tail))
  /\ (thumbnail
        (table_row (Fixtures.table_row_at Fixtures.table_and_items_document 1))
      <> None ->
      type (table_row (Fixtures.table_row_at Fixtures.table_and_items_document 1))
      = Some video
      /\ fst (extract Fixtures.table_and_items_document) = DownloadItemsLayout)
  /\ (resolution
        (table_row (Fixtures.table_row_at Fixtures.table_and_items_document 1))
      <> None ->
      fst (extract Fixtures.table_and_items_document) = TableLayout).
Proof.
  apply (@descriptor_optional_fields Fixtures.table_and_items_document
           (extractMetadata Fixtures.table_and_items_document)
           (extractTableMedia Fixtures.table_and_items_document)).
  - reflexivity.
  - right. left. reflexivity.
Defined.

(** *** Percent-decoding and the thumbnail fix *)

Lemma read_octet_length s b s2 :
  read_octet s = Some (b, s2) -> length s = S (S (length s2)).
Proof.
  unfold read_octet. destruct s as [|h1 [|h2 rest]]; try discriminate.
  destruct (hex_value h1), (hex_value h2); try discriminate.
  now intros [= _ <-].
Qed.

Lemma read_continuations_length : forall n s bs s3,
  read_continuations n s = Some (bs, s3) -> (length s3 <= length s)%nat.
Proof.
  induction n as [|n IH]; intros s bs s3; simpl.
  - now intros [= _ <-].
  - destruct s as [|c s1]; [discriminate|].
    destruct (c =? 37)%N; [|discriminate].
    destruct (read_octet s1) as [[b s2]|] eqn:E; [|discriminate].
    destruct (read_continuations n s2) as [[bs' s3']|] eqn:E2; [|discriminate].
    intros [= _ <-]. apply read_octet_length in E. apply IH in E2.
    simpl. lia.
Qed.

Lemma bind_cons_outcome (m : outcome jsstring) (pre : jsstring) :
  returns_or_uri_error m ->
  returns_or_uri_error (r <- m ;; Ret (pre ++ r))%outcome.
Proof.
  intros [(r & ->)| ->]; simpl; [left; eauto | now right].
Qed.

(** Percent-decoding ends within its budget, with a text or with a
    [URIError]. *)
Lemma decode_uri_go_outcome : forall fuel s,
  (length s < fuel)%nat -> returns_or_uri_error (decode_uri_go fuel s).
Proof.
  induction fuel as [|fuel IH]; intros s Hlen; [lia|].
  destruct s as [|c s1]; [left; now exists []|].
  simpl in Hlen. cbn [decode_uri_go].
  destruct (c =? 37)%N.
  - destruct (read_octet s1) as [[b s2]|] eqn:E; [|now right].
    apply read_octet_length in E.
    destruct (leading_ones b) as [|[|n']] eqn:El.
    + apply (@bind_cons_outcome _ [b]). apply IH. lia.
    + now right.
    + destruct n' as [|[|[|n4]]];
        try (now right);
        (destruct (read_continuations _ s2) as [[bs s3]|] eqn:Ec; [|now right];
         apply read_continuations_length in Ec;
         destruct (utf8_decode true idle (b :: bs)) as [[|v [|v2 vs]]| | |];
         try (now right);
         apply bind_cons_outcome; apply IH; lia).
  - apply (@bind_cons_outcome _ [c]). apply IH. lia.
Qed.

Lemma decodeURIComponent_outcome s :
  returns_or_uri_error (decodeURIComponent s).
Proof. apply decode_uri_go_outcome. lia. Qed.

(** A text without a percent sign decodes to itself. *)
Lemma decode_uri_go_plain : forall s fuel,
  ~ In 37%N s -> (length s < fuel)%nat -> decode_uri_go fuel s = Ret s.
Proof.
  induction s as [|c s IH]; intros fuel Hs Hlen.
  - destruct fuel; [lia | reflexivity].
  - destruct fuel; [lia|]. simpl in Hlen. cbn [decode_uri_go].
    destruct (N.eqb_spec c 37) as [->|_]; [exfalso; apply Hs; now left|].
    rewrite IH; [reflexivity | | lia].
    intros H. apply Hs. now right.
Qed.

Lemma includes_self p s : includes p (p ++ s) = true.
Proof.
  destruct (p ++ s) as [|a t] eqn:E.
  - destruct p; [reflexivity | discriminate].
  - rewrite <- E. destruct (p ++ s) eqn:E2; [congruence|].
    rewrite includes_cons, <- E2, starts_with_self. reflexivity.
Qed.

Lemma remove_first_self p s : remove_first p (p ++ s) = s.
Proof.
  assert (H : remove_first p (p ++ s) = skipn (length p) (p ++ s)).
  { destruct (p ++ s) as [|a t] eqn:E.
    - destruct p; [reflexivity | discriminate].
    - rewrite <- E. destruct (p ++ s) eqn:E2; [congruence|].
      cbn [remove_first]. rewrite <- E2, starts_with_self. reflexivity. }
  rewrite H, skipn_app, skipn_all, Nat.sub_diag. reflexivity.
Qed.

(** X9. A proxied thumbnail address whose remainder holds no percent sign
    comes back with the proxy prefix stripped. *)
Theorem fixThumbnail_plain (s : jsstring) :
  ~ In 37%N s ->
  fixThumbnail (lit "https://snapinsta.app/photo.php?photo=" ++ s) = Ret s.
Proof.
  intros Hs. unfold fixThumbnail. cbv zeta.
  rewrite includes_self, remove_first_self.
  apply decode_uri_go_plain; [exact Hs | lia].
Qed.

Lemma fixThumbnail_plain_witness :
  fixThumbnail (lit "https://snapinsta.app/photo.php?photo="
                ++ lit "https://cdn.example.com/t.jpg")
  = Ret (lit "https://cdn.example.com/t.jpg").
Proof.
  apply fixThumbnail_plain. vm_compute.
  intros H. repeat (destruct H as [H|H]; [discriminate H|]). exact H.
Defined.

Lemma fixThumbnail_outcome url : returns_or_uri_error (fixThumbnail url).
Proof.
  unfold fixThumbnail. cbv zeta. destruct (includes _ url).
  - apply decodeURIComponent_outcome.
  - left. eauto.
Qed.

Lemma each_outcome {A B} (f : A -> outcome B) (P : exn -> Prop) :
  (forall x, (exists y, f x = Ret y) \/ exists e, f x = Throw e /\ P e) ->
  forall l, (exists ys, each f l = Ret ys) \/ exists e, each f l = Throw e /\ P e.
Proof.
  intros Hf. induction l as [|x l IH]; simpl; [left; eauto|].
  destruct (Hf x) as [(y & ->)|(e & -> & He)]; simpl; [|right; eauto].
  destruct IH as [(ys & ->)|(e & -> & He)]; simpl; [left; eauto | right; eauto].
Qed.

Lemma download_item_outcome el :
  (exists m, download_item el = Ret m)
  \/ exists e, download_item el = Throw e /\ e = URIError.
Proof.
  unfold download_item. cbv zeta.
  destruct (type_of_label (item_label el)); [left; simpl; eauto|].
  destruct (q_attr _ _) as [[|c t]|]; try solve [left; simpl; eauto].
  destruct (fixThumbnail_outcome (c :: t)) as [(r & ->)| ->]; simpl;
    [left; eauto | right; eauto].
Qed.

(** X10. The extraction stage always ends, and it can only fail in the
    download-items layout, with the [URIError] of a thumbnail address
    that is not percent-encoded properly; the three layouts of branch 1
    never fail. *)
Theorem extract_outcome (d : document) :
  (exists data media, snd (extract d) = Ret (data, media))
  \/ (snd (extract d) = Throw URIError
      /\ fst (extract d) = DownloadItemsLayout).
Proof.
  unfold extract.
  destruct (table_marker d || figure_marker d).
  - destruct (table_marker d); [|destruct (card_marker d)]; left; simpl; eauto.
  - destruct (download_items_marker d); [|left; simpl; eauto].
    simpl. unfold extractDownloadItemsMedia.
    destruct (each_outcome download_item (fun e => e = URIError)
                download_item_outcome
                (select d (Simple (TagClass "div" "download-items"))))
      as [(ys & ->)|(e & -> & ->)]; simpl; [left; eauto | right; auto].
Qed.

End ExtractorExtras.

(** ** The download workflow *)

Module WorkflowFacts.

Import SnapSaveDecoder MediaExtractor SnapSaverService Fixtures MoreFixtures.
Local Open Scope string_scope.
Local Open Scope list_scope.

(** C5. Layout priority: a document with a [table.table] element is
    handled by the table arm, whatever else it contains (a download-items
    block included), and the download-items arm runs only for a document
    with neither a [table.table] element nor an [article.media > figure]
    element. *)
Theorem layout_priority (d : document) :
  (table_marker d = true ->
     extract d = (TableLayout, Ret (extractMetadata d, extractTableMedia d)))
  /\ (fst (extract d) = DownloadItemsLayout ->
     table_marker d = false /\ figure_marker d = false
     /\ download_items_marker d = true).
Proof.
  unfold extract. split.
  - intros ->. reflexivity.
  - destruct (table_marker d), (figure_marker d), (card_marker d),
      (download_items_marker d); simpl; intros H; try discriminate H; auto.
Qed.

Lemma layout_priority_witness :
  download_items_marker table_and_items_document = true
  /\ extract table_and_items_document
     = (TableLayout, Ret (extractMetadata table_and_items_document,
                          extractTableMedia table_and_items_document)).
Proof.
  split; [reflexivity|].
  apply (proj1 (layout_priority table_and_items_document)). reflexivity.
Defined.

(** The simple-layout extractor returns one descriptor for every
    document; with no anchor and no button in the document, its url is
    undefined and its type is [video]. *)
Lemma extractSimpleMedia_single (d : document) :
  length (extractSimpleMedia d) = 1%nat.
Proof. reflexivity. Qed.

Lemma extractSimpleMedia_bare (d : document) :
  select d (Simple (Tag "a")) = [] ->
  select d (Simple (Tag "button")) = [] ->
  extractSimpleMedia d = [bare_video].
Proof.
  intros Ha Hb. unfold extractSimpleMedia, simple_label. rewrite Ha, Hb.
  reflexivity.
Qed.

Section Service.

Variable env : collaborators.

(** The stages of [download] one after the other. *)
Lemma download_try_invalid fuel url :
  isValid env url = false -> download_try env fuel url = Ret invalid_url.
Proof.
  intros H. unfold download_try.
  rewrite H. reflexivity.
Qed.

Lemma download_try_stages fuel url :
  isValid env url = true ->
  download_try env fuel url =
  (html <- fetchMedia env url ;;
   decodedHtml <- decrypt fuel html ;;
   '(data, media) <- snd (extract (load env decodedHtml)) ;;
   match media with
   | [] => Ret no_media
   | _ :: _ => Ret (found data media)
   end)%outcome.
Proof.
  intros H. unfold download_try.
  rewrite H. simpl negb. cbv iota.
  destruct (fetchMedia env url) as [html| | |]; simpl; try reflexivity.
  destruct (decrypt fuel html) as [decoded| | |]; simpl; try reflexivity.
  destruct (snd (extract (load env decoded))) as [[data media]| | |]; simpl;
    try reflexivity.
  destruct media; reflexivity.
Qed.

Lemma download_of_try fuel url :
  download env fuel url =
  match download_try env fuel url with
  | Throw _ => Ret generic_failure
  | other => other
  end.
Proof.
  unfold download, try_catch.
  destruct (download_try env fuel url); reflexivity.
Qed.

(** C4. Error mapping of [download]: it never hands an exception to its
    caller.  An exception of any stage inside the [try] block (the fetch,
    the decoder and unwrapper, the extraction) gives the response with
    [success] false, no data and the one message ["Failed to process
    download request"]; so do a cipher text without delimiter, whose scan
    ends in the [RangeError] of the string limit, and a payload with
    fewer than five arguments, which decodes to too little to unwrap.
    ["Invalid URL"] is the message exactly for a URL that fails
    validation, ["No downloadable media found"] exactly when every stage
    succeeded with an empty media list, and the generic message only
    after an exception; a failure response carries one of the three. *)
Theorem download_error_mapping (fuel : nat) (url : jsstring) :
  (forall e, download env fuel url <> Throw e)
  /\ (forall e, download_try env fuel url = Throw e ->
        download env fuel url =
        Ret {| success := false;
             message := Some (lit "Failed to process download request");
             data := None |})
  /\ (isValid env url = true ->
      (forall e, fetchMedia env url = Throw e ->
         download env fuel url =
         Ret {| success := false;
             message := Some (lit "Failed to process download request");
             data := None |})
      /\ (forall html e, fetchMedia env url = Ret html ->
         decrypt fuel html = Throw e ->
         download env fuel url =
         Ret {| success := false;
             message := Some (lit "Failed to process download request");
             data := None |})
      /\ (forall html decoded e, fetchMedia env url = Ret html ->
         decrypt fuel html = Ret decoded ->
         snd (extract (load env decoded)) = Throw e ->
         download env fuel url =
         Ret {| success := false;
             message := Some (lit "Failed to process download request");
             data := None |})
      /\ (forall html decoded data, fetchMedia env url = Ret html ->
         decrypt fuel html = Ret decoded ->
         snd (extract (load env decoded)) = Ret (data, []) ->
         download env fuel url =
         Ret {| success := false;
             message := Some (lit "No downloadable media found");
             data := None |})
      /\ (forall html args encodedContent charMap base b d,
         fetchMedia env url = Ret html ->
         getEncodedSnapApp html = Ret args ->
         nth_error args 0 = Some encodedContent ->
         nth_error args 2 = Some charMap ->
         nth_error args 4 = Some base ->
         ToNumber base = Ret b ->
         char_at charMap b = Some d ->
         encodedContent <> [] ->
         ~ In d encodedContent ->
         (N.of_nat (length encodedContent) <= MAX_STRING_LENGTH)%N ->
         (unterminated_steps (N.of_nat (length encodedContent))
          <= N.of_nat fuel)%N ->
         download env fuel url =
         Ret {| success := false;
             message := Some (lit "Failed to process download request");
             data := None |})
      /\ (forall html args,
         fetchMedia env url = Ret html ->
         getEncodedSnapApp html = Ret args ->
         nth_error args 4 = None ->
         (forall s, nth_error args 3 = Some s ->
            exists off, ToNumber s = Ret off
                        /\ (Z.abs off + 64 <= MAX_EXACT)%Z) ->
         (forall enc, nth_error args 0 = Some enc ->
            (length enc + 56 <= fuel)%nat) ->
         download env fuel url =
         Ret {| success := false;
             message := Some (lit "Failed to process download request");
             data := None |}))
  /\ (isValid env url = false ->
      download env fuel url =
      Ret {| success := false;
             message := Some (lit "Invalid URL");
             data := None |})
  /\ (forall r, download env fuel url = Ret r ->
        message r = Some (lit "Invalid URL") -> isValid env url = false)
  /\ (forall r, download env fuel url = Ret r ->
        message r = Some (lit "No downloadable media found") ->
        exists html decoded data,
          isValid env url = true /\ fetchMedia env url = Ret html
          /\ decrypt fuel html = Ret decoded
          /\ snd (extract (load env decoded)) = Ret (data, []))
  /\ (forall r, download env fuel url = Ret r ->
        message r = Some (lit "Failed to process download request") ->
        exists e, download_try env fuel url = Throw e)
  /\ (forall r, download env fuel url = Ret r -> success r = false ->
        data r = None
        /\ (message r = Some (lit "Invalid URL")
            \/ message r = Some (lit "No downloadable media found")
            \/ message r = Some (lit "Failed to process download request"))).
Proof.
  assert (Hthrow : forall e, download_try env fuel url = Throw e ->
            download env fuel url = Ret generic_failure).
  { intros e H. rewrite download_of_try, H. reflexivity. }
  assert (Hdecrypt : forall html e, isValid env url = true ->
            fetchMedia env url = Ret html -> decrypt fuel html = Throw e ->
            download_try env fuel url = Throw e).
  { intros html e Hv Hf Hd. rewrite download_try_stages by assumption.
    rewrite Hf. simpl. rewrite Hd. reflexivity. }
  split; [|split; [|split; [|split; [|split; [|split; [|split]]]]]].
  - intros e. rewrite download_of_try.
    destruct (download_try env fuel url); discriminate.
  - exact Hthrow.
  - intros Hv. split; [|split; [|split; [|split; [|split]]]].
    + intros e Hf. apply (Hthrow e).
      rewrite download_try_stages by assumption. rewrite Hf. reflexivity.
    + intros html e Hf Hd. apply (Hthrow e). now apply (Hdecrypt html).
    + intros html decoded e Hf Hd He. apply (Hthrow e).
      rewrite download_try_stages by assumption.
      rewrite Hf. simpl. rewrite Hd. simpl. rewrite He. reflexivity.
    + intros html decoded data Hf Hd He.
      rewrite download_of_try, download_try_stages by assumption.
      rewrite Hf. simpl. rewrite Hd. simpl. rewrite He. reflexivity.
    + intros html args encodedContent charMap base b d
        Hf Ha H0 H2 H4 Hb Hd Hne Hnot Hlen Hsteps.
      apply (Hthrow RangeError). apply (Hdecrypt html); try assumption.
      unfold decrypt. rewrite Ha. cbn [bind].
      rewrite (@DecoderFacts.decodeSnapApp_unterminated
                 args encodedContent charMap base b d fuel) by assumption.
      destruct (N.ltb_spec (N.of_nat fuel)
                  (unterminated_steps (N.of_nat (length encodedContent))));
        [lia | reflexivity].
    + intros html args Hf Ha H4 Hsub Hfuel.
      destruct (DecoderExtras.decrypt_short html Ha H4 Hsub Hfuel) as (e & Hd).
      apply (Hthrow e). now apply (Hdecrypt html).
  - intros H. rewrite download_of_try, download_try_invalid by assumption.
    reflexivity.
  - intros r. rewrite download_of_try.
    destruct (isValid env url) eqn:Hv; [|reflexivity].
    rewrite download_try_stages by assumption.
    destruct (fetchMedia env url) as [html| | |]; simpl;
      try discriminate; try (intros [= <-]; discriminate).
    destruct (decrypt fuel html) as [decoded| | |]; simpl;
      try discriminate; try (intros [= <-]; discriminate).
    destruct (snd (extract (load env decoded))) as [[data media]| | |]; simpl;
      try discriminate; try (intros [= <-]; discriminate).
    destruct media; intros [= <-]; discriminate.
  - intros r. rewrite download_of_try.
    destruct (isValid env url) eqn:Hv.
    2:{ rewrite download_try_invalid by assumption.
        intros [= <-]. discriminate. }
    rewrite download_try_stages by assumption.
    destruct (fetchMedia env url) as [html| | |]; simpl;
      try discriminate; try (intros [= <-]; discriminate).
    destruct (decrypt fuel html) as [decoded| | |] eqn:Hd; simpl;
      try discriminate; try (intros [= <-]; discriminate).
    destruct (snd (extract (load env decoded))) as [[data media]| | |] eqn:He; simpl;
      try discriminate; try (intros [= <-]; discriminate).
    destruct media; intros [= <-]; [|discriminate].
    intros _. exists html, decoded, data. auto.
  - intros r. rewrite download_of_try.
    destruct (download_try env fuel url) as [r'|e| |] eqn:Ht;
      try discriminate; [|intros _ _; now exists e].
    intros [= <-]. revert Ht.
    destruct (isValid env url) eqn:Hv.
    2:{ rewrite download_try_invalid by assumption.
        intros [= <-]. discriminate. }
    rewrite download_try_stages by assumption.
    destruct (fetchMedia env url) as [html| | |]; simpl; try discriminate.
    destruct (decrypt fuel html) as [decoded| | |]; simpl; try discriminate.
    destruct (snd (extract (load env decoded))) as [[data media]| | |]; simpl;
      try discriminate.
    destruct media; intros [= <-]; discriminate.
  - intros r Hr Hs.
    assert (Hcase : r = invalid_url \/ r = no_media \/ r = generic_failure).
    { revert Hr. rewrite download_of_try.
      destruct (isValid env url) eqn:Hv.
      2:{ rewrite download_try_invalid by assumption. intros [= <-]. auto. }
      rewrite download_try_stages by assumption.
      destruct (fetchMedia env url) as [html| | |]; simpl;
        try discriminate; try (intros [= <-]; auto).
      destruct (decrypt fuel html) as [decoded| | |]; simpl;
        try discriminate; try (intros [= <-]; auto).
      destruct (snd (extract (load env decoded))) as [[data media]| | |]; simpl;
        try discriminate; try (intros [= <-]; auto).
      destruct media; intros [= <-]; [auto|]. discriminate Hs. }
    destruct Hcase as [-> | [-> | ->]]; (split; [reflexivity|]); auto.
Qed.

(** C9. A response of [download] has exactly one variant: a message and
    no data when [success] is false, data and no message when it is
    true. *)
Theorem response_one_variant (fuel : nat) (url : jsstring)
  (r : SnapSaveDownloaderResponse) :
  download env fuel url = Ret r ->
  (message r <> None <-> success r = false)
  /\ (data r <> None <-> success r = true).
Proof.
  rewrite download_of_try.
  assert (Hfail : forall text,
            (message (failure text) <> None <-> success (failure text) = false)
            /\ (data (failure text) <> None <-> success (failure text) = true)).
  { intros text. simpl. repeat split; congruence. }
  destruct (isValid env url) eqn:Hv.
  2:{ rewrite download_try_invalid by assumption. intros [= <-]. apply Hfail. }
  rewrite download_try_stages by assumption.
  destruct (fetchMedia env url) as [html| | |]; simpl;
    try discriminate; try (intros [= <-]; apply Hfail).
  destruct (decrypt fuel html) as [decoded| | |]; simpl;
    try discriminate; try (intros [= <-]; apply Hfail).
  destruct (snd (extract (load env decoded))) as [[data media]| | |]; simpl;
    try discriminate; try (intros [= <-]; apply Hfail).
  destruct media; intros [= <-]; [apply Hfail|].
  simpl. repeat split; congruence.
Qed.

Lemma download_bare_figure fuel url html decoded :
  isValid env url = true ->
  fetchMedia env url = Ret html ->
  decrypt fuel html = Ret decoded ->
  figure_marker (load env decoded) = true ->
  table_marker (load env decoded) = false ->
  card_marker (load env decoded) = false ->
  select (load env decoded) (Simple (Tag "a")) = [] ->
  select (load env decoded) (Simple (Tag "button")) = [] ->
  download env fuel url =
  Ret (found (extractMetadata (load env decoded)) [bare_video]).
Proof.
  intros Hv Hf Hd Hfig Htab Hcard Ha Hb.
  rewrite download_of_try, download_try_stages by assumption.
  rewrite Hf. simpl. rewrite Hd. simpl.
  unfold extract. rewrite Htab, Hfig, Hcard. simpl.
  rewrite extractSimpleMedia_bare by assumption. reflexivity.
Qed.

(** C10. The simple-layout extractor returns exactly one descriptor for
    every document; when the document has no anchor and no button, that
    descriptor has no url (and type [video]).  So a document with a
    captioned figure but no table, no card, no anchor and no button makes
    [download] answer with [success] true, no message, and data whose
    media list is that one descriptor without url; it does not fail for
    want of media. *)
Theorem simple_layout_single_descriptor
  (fuel : nat) (link html decoded : jsstring) :
  (forall d, length (extractSimpleMedia d) = 1%nat)
  /\ (forall d,
        select d (Simple (Tag "a")) = [] ->
        select d (Simple (Tag "button")) = [] ->
        extractSimpleMedia d =
        [ {| resolution := None; shouldRender := None; thumbnail := None;
             type := Some video; url := None |} ])
  /\ (isValid env link = true ->
      fetchMedia env link = Ret html ->
      decrypt fuel html = Ret decoded ->
      figure_marker (load env decoded) = true ->
      table_marker (load env decoded) = false ->
      card_marker (load env decoded) = false ->
      select (load env decoded) (Simple (Tag "a")) = [] ->
      select (load env decoded) (Simple (Tag "button")) = [] ->
      exists r dat m,
        download env fuel link = Ret r
        /\ success r = true /\ message r = None /\ data r = Some dat
        /\ media dat = Some [m]
        /\ url m = None /\ type m = Some video
        /\ description dat = description (extractMetadata (load env decoded))
        /\ preview dat = preview (extractMetadata (load env decoded))).
Proof.
  split; [|split].
  - exact extractSimpleMedia_single.
  - exact extractSimpleMedia_bare.
  - intros Hv Hf Hd Hfig Htab Hcard Ha Hb.
    eexists _, _, _. split.
    + apply (download_bare_figure fuel link Hv Hf Hd Hfig Htab Hcard Ha Hb).
    + cbn. repeat split; reflexivity.
Qed.

End Service.

Lemma download_error_mapping_witness :
  download short_service 100 post_url =
  Ret {| success := false;
             message := Some (lit "Failed to process download request");
             data := None |}.
Proof.
  refine (proj2 (proj2 (proj2 (proj2 (proj2 (proj1 (proj2 (proj2
            (download_error_mapping short_service 100 post_url))) _)))))
            short_text [lit "ab"; lit "1"; lit "xyz"] _ _ _ _ _).
  - reflexivity.
  - reflexivity.
  - vm_compute. reflexivity.
  - reflexivity.
  - intros s H. discriminate H.
  - intros enc H. injection H as <-. simpl. lia.
Defined.

(** Scenario B: no structural marker in the document. *)
Example download_no_media :
  download empty_service 200 post_url = Ret no_media.
Proof. vm_compute. reflexivity. Qed.

(** A URL that fails validation. *)
Example download_invalid_url :
  download {| isValid := fun _ => false;
              fetchMedia := fun _ => Ret response_text;
              load := load_figure |} 200 (lit "https://example.com/")
  = Ret invalid_url.
Proof. reflexivity. Qed.

(** The payload of the fixtures decodes to [figure_html]. *)
Example decrypt_response_text : decrypt 200 response_text = Ret figure_html.
Proof. vm_compute. reflexivity. Qed.

Lemma response_one_variant_witness :
  download figure_service 200 post_url
  = Ret (found (extractMetadata figure_document) [bare_video])
  /\ (message (found (extractMetadata figure_document) [bare_video]) <> None
      <-> success (found (extractMetadata figure_document) [bare_video]) = false)
  /\ (data (found (extractMetadata figure_document) [bare_video]) <> None
      <-> success (found (extractMetadata figure_document) [bare_video]) = true).
Proof.
  assert (H : download figure_service 200 post_url
              = Ret (found (extractMetadata figure_document) [bare_video]))
    by (vm_compute; reflexivity).
  split; [exact H|].
  exact (response_one_variant figure_service 200 post_url H).
Defined.

Lemma simple_layout_single_descriptor_witness :
  exists r dat m,
    download figure_service 200 post_url = Ret r
    /\ success r = true /\ message r = None /\ data r = Some dat
    /\ media dat = Some [m]
    /\ url m = None /\ type m = Some video
    /\ description dat = description (extractMetadata (load_figure figure_html))
    /\ preview dat = preview (extractMetadata (load_figure figure_html)).
Proof.
  refine (proj2 (proj2 (simple_layout_single_descriptor figure_service 200
                          post_url response_text figure_html))
            _ _ _ _ _ _ _ _); vm_compute; reflexivity.
Defined.

End WorkflowFacts.

(** ** The workflow: what a caller can rely on *)

Module WorkflowExtras.

Import SnapSaveDecoder MediaExtractor SnapSaverService Fixtures MoreFixtures.
Import StringFacts DecoderExtras ExtractorExtras WorkflowFacts.
Local Open Scope string_scope.
Local Open Scope list_scope.

Section Service.

Variable env : collaborators.

(** X11. A response without one of the two markers ends in the generic
    failure: when the fetched text lacks the call marker of the cipher,
    or when the decoded script lacks the marker that opens the embedded
    HTML, [download] answers ["Failed to process download request"]. *)
Theorem download_missing_marker (fuel : nat) (url html : jsstring) :
  isValid env url = true ->
  fetchMedia env url = Ret html ->
  (includes (lit "decodeURIComponent(escape(r))}(") html = false ->
     download env fuel url =
     Ret {| success := false;
             message := Some (lit "Failed to process download request");
             data := None |})
  /\ (forall args decoded,
        getEncodedSnapApp html = Ret args ->
        decodeSnapApp fuel args = Ret decoded ->
        includes html_open decoded = false ->
        download env fuel url =
        Ret {| success := false;
             message := Some (lit "Failed to process download request");
             data := None |}).
Proof.
  intros Hv Hf. split.
  - intros Hm. rewrite download_of_try, download_try_stages by assumption.
    rewrite Hf. simpl. unfold decrypt.
    rewrite getEncodedSnapApp_no_marker by assumption. reflexivity.
  - intros args decoded Ha Hd Hm.
    rewrite download_of_try, download_try_stages by assumption.
    rewrite Hf. simpl. unfold decrypt. rewrite Ha. simpl. rewrite Hd. simpl.
    unfold getDecodedSnapSave. rewrite (split_absent _ _ Hm). reflexivity.
Qed.

(** X12. The catch of [download] takes the [RangeError] of the scan that
    runs past the end of the text: when the fetched text carries a
    non-empty cipher text without the delimiter symbol, [download]
    answers ["Failed to process download request"], but only after the
    scan has made [unterminated_steps] turns; a budget below that number
    is exhausted before any answer. *)
Theorem download_unterminated_fails (url html : jsstring)
  (args : list jsstring) (encodedContent charMap base : jsstring)
  (b : Z) (d : N) :
  isValid env url = true ->
  fetchMedia env url = Ret html ->
  getEncodedSnapApp html = Ret args ->
  nth_error args 0 = Some encodedContent ->
  nth_error args 2 = Some charMap ->
  nth_error args 4 = Some base ->
  ToNumber base = Ret b ->
  char_at charMap b = Some d ->
  encodedContent <> [] ->
  ~ In d encodedContent ->
  (N.of_nat (length encodedContent) <= MAX_STRING_LENGTH)%N ->
  (forall fuel,
     (unterminated_steps (N.of_nat (length encodedContent)) <= N.of_nat fuel)%N ->
     download env fuel url =
     Ret {| success := false;
             message := Some (lit "Failed to process download request");
             data := None |})
  /\ (forall fuel,
        (N.of_nat fuel < unterminated_steps (N.of_nat (length encodedContent)))%N ->
        download env fuel url = Diverge).
Proof.
  intros Hv Hf Ha H0 H2 H4 Hb Hd Hne Hnot Hlen.
  split; intros fuel Hfuel;
    rewrite download_of_try, download_try_stages by assumption;
    rewrite Hf; simpl; unfold decrypt; rewrite Ha; simpl;
    rewrite (@DecoderFacts.decodeSnapApp_unterminated
               args encodedContent charMap base b d fuel) by assumption;
    destruct (N.ltb_spec (N.of_nat fuel)
                (unterminated_steps (N.of_nat (length encodedContent))));
    try reflexivity; lia.
Qed.

(** The responses of [download]: a failure literal, or the success
    literal around a non-empty extraction. *)
Lemma download_cases fuel url r :
  download env fuel url = Ret r ->
  (exists text, r = failure text)
  \/ exists html decoded data m ms,
      isValid env url = true /\ fetchMedia env url = Ret html
      /\ decrypt fuel html = Ret decoded
      /\ snd (extract (load env decoded)) = Ret (data, m :: ms)
      /\ r = found data (m :: ms).
Proof.
  rewrite download_of_try.
  destruct (isValid env url) eqn:Hv.
  2:{ rewrite download_try_invalid by assumption. intros [= <-]. left.
      eexists. reflexivity. }
  rewrite download_try_stages by assumption.
  destruct (fetchMedia env url) as [html| | |]; simpl;
    try discriminate; try (intros [= <-]; left; eexists; reflexivity).
  destruct (decrypt fuel html) as [decoded| | |] eqn:Hd; simpl;
    try discriminate; try (intros [= <-]; left; eexists; reflexivity).
  destruct (snd (extract (load env decoded))) as [[data media]| | |] eqn:He; simpl;
    try discriminate; try (intros [= <-]; left; eexists; reflexivity).
  destruct media as [|m ms]; intros [= <-]; [left; eexists; reflexivity|].
  right. exists html, decoded, data, m, ms. auto.
Qed.

Lemma download_success fuel url r :
  download env fuel url = Ret r -> success r = true ->
  exists html decoded data m ms,
    isValid env url = true /\ fetchMedia env url = Ret html
    /\ decrypt fuel html = Ret decoded
    /\ snd (extract (load env decoded)) = Ret (data, m :: ms)
    /\ r = found data (m :: ms).
Proof.
  intros Hr Hs. destruct (download_cases _ _ Hr) as [(text & ->)|H];
    [discriminate | exact H].
Qed.

Lemma extracted_type_present d data media m :
  snd (extract d) = Ret (data, media) -> In m media -> type m <> None.
Proof.
  intros He Hin.
  destruct (extract_In _ _ He Hin)
    as [(_ & res & action & ->)|[(_ & el & ->)|[(_ & Hs)|(_ & el & Hel)]]].
  - apply table_entry_fields.
  - discriminate.
  - destruct Hs as [<-|[]]. discriminate.
  - apply (download_item_fields _ Hel).
Qed.

(** X13. A successful response always carries media: its data holds a
    non-empty media list, and every descriptor of it has a type. *)
Theorem success_carries_typed_media (fuel : nat) (url : jsstring)
  (r : SnapSaveDownloaderResponse) :
  download env fuel url = Ret r -> success r = true ->
  exists dat m ms,
    data r = Some dat /\ media dat = Some (m :: ms)
    /\ forall x, In x (m :: ms) -> type x = Some image \/ type x = Some video.
Proof.
  intros Hr Hs.
  destruct (download_success _ _ Hr Hs)
    as (html & decoded & dat & m & ms & _ & _ & _ & He & ->).
  eexists _, m, ms. split; [reflexivity|]. split; [reflexivity|].
  intros x Hx. pose proof (extracted_type_present _ _ He Hx) as Ht.
  destruct (type x) as [[|]|]; [now left | now right | congruence].
Qed.

(** X14. Cards count only inside a table or figure page: a document with
    no [table.table], no [article.media > figure] and no
    [div.download-items] gives ["No downloadable media found"], whatever
    cards, anchors or buttons it holds. *)
Theorem download_without_markers (fuel : nat) (url html decoded : jsstring) :
  isValid env url = true ->
  fetchMedia env url = Ret html ->
  decrypt fuel html = Ret decoded ->
  table_marker (load env decoded) = false ->
  figure_marker (load env decoded) = false ->
  download_items_marker (load env decoded) = false ->
  download env fuel url =
  Ret {| success := false;
             message := Some (lit "No downloadable media found");
             data := None |}.
Proof.
  intros Hv Hf Hd Ht Hfig Hi.
  rewrite download_of_try, download_try_stages by assumption.
  rewrite Hf. simpl. rewrite Hd. simpl.
  unfold extract. rewrite Ht, Hfig, Hi. reflexivity.
Qed.

(** X15. A table without rows still wins the dispatch: a document with a
    [table.table] element and no [tbody > tr] row gives ["No downloadable
    media found"], even when it also holds cards or a download-items
    block. *)
Theorem download_empty_table (fuel : nat) (url html decoded : jsstring) :
  isValid env url = true ->
  fetchMedia env url = Ret html ->
  decrypt fuel html = Ret decoded ->
  table_marker (load env decoded) = true ->
  select (load env decoded) (Child (Tag "tbody") (Tag "tr")) = [] ->
  download env fuel url =
  Ret {| success := false;
             message := Some (lit "No downloadable media found");
             data := None |}.
Proof.
  intros Hv Hf Hd Ht Hrows.
  rewrite download_of_try, download_try_stages by assumption.
  rewrite Hf. simpl. rewrite Hd. simpl.
  unfold extract. rewrite Ht. simpl.
  unfold extractTableMedia. rewrite Hrows. reflexivity.
Qed.

Lemma nonempty_some s t : nonempty s = Some t -> t = s /\ s <> [].
Proof.
  destruct s; simpl; [discriminate|]. intros [= <-]. split; congruence.
Qed.

(** X16. The metadata of a response is never blank: a description, when
    present, is a non-empty text without white space at either end, and a
    preview, when present, is a non-empty address. *)
Theorem response_metadata_not_blank (fuel : nat) (url : jsstring)
  (r : SnapSaveDownloaderResponse) (dat : SnapSaveDownloaderData) :
  download env fuel url = Ret r -> data r = Some dat ->
  (forall s, description dat = Some s -> s <> [] /\ trim s = s)
  /\ (forall s, preview dat = Some s -> s <> []).
Proof.
  intros Hr Hdat.
  destruct (download_cases _ _ Hr)
    as [(text & ->)|(html & decoded & dd & m & ms & _ & _ & _ & He & ->)];
    [discriminate|].
  simpl in Hdat. injection Hdat as <-. simpl.
  assert (Hmeta : dd = extractMetadata (load env decoded) \/ dd = no_data).
  { revert He. unfold extract.
    destruct (table_marker _ || figure_marker _).
    - destruct (table_marker _); [|destruct (card_marker _)]; simpl;
        intros [= <- _]; now left.
    - destruct (download_items_marker _); simpl.
      + destruct (extractDownloadItemsMedia _); simpl; try discriminate.
        intros [= <- _]. now right.
      + discriminate. }
  destruct Hmeta as [->| ->]; simpl; [|split; discriminate].
  split.
  - intros s Hsome. apply nonempty_some in Hsome. destruct Hsome as [-> Hne].
    split; [exact Hne | apply trim_idempotent].
  - intros s. destruct (q_attr _ _) as [[|c t]|]; simpl; try discriminate.
    intros [= <-]. discriminate.
Qed.

End Service.

Lemma download_missing_marker_witness :
  download broken_service 10 post_url =
  Ret {| success := false;
             message := Some (lit "Failed to process download request");
             data := None |}.
Proof.
  refine (proj1 (@download_missing_marker broken_service 10 post_url
                   (lit "<html>Service unavailable</html>") _ _) _);
    reflexivity.
Defined.

Lemma download_unterminated_fails_witness :
  download unterminated_service (N.to_nat 59652323) post_url =
  Ret {| success := false;
             message := Some (lit "Failed to process download request");
             data := None |}.
Proof.
  refine (proj1 (@download_unterminated_fails unterminated_service post_url
           unterminated_text
           [lit "ab"; lit "1"; lit "xyz"; lit "1"; lit "2"; lit "3"]
           (lit "ab") (lit "xyz") (lit "2") 2%Z 122%N _ _ _ _ _ _ _ _ _ _ _)
           (N.to_nat 59652323) _).
  - reflexivity.
  - reflexivity.
  - vm_compute. reflexivity.
  - reflexivity.
  - reflexivity.
  - reflexivity.
  - reflexivity.
  - reflexivity.
  - discriminate.
  - intros [H|[H|[]]]; discriminate.
  - vm_compute. discriminate.
  - rewrite N2Nat.id. vm_compute. discriminate.
Defined.

Lemma success_carries_typed_media_witness :
  exists dat m ms,
    data (found (extractMetadata figure_document) [bare_video]) = Some dat
    /\ media dat = Some (m :: ms)
    /\ forall x, In x (m :: ms) -> type x = Some image \/ type x = Some video.
Proof.
  apply (@success_carries_typed_media figure_service 200 post_url).
  - vm_compute. reflexivity.
  - reflexivity.
Defined.

Lemma download_without_markers_witness :
  card_marker card_only_document = true
  /\ download (service_of card_only_document) 200 post_url =
     Ret {| success := false;
             message := Some (lit "No downloadable media found");
             data := None |}.
Proof.
  split; [reflexivity|].
  apply (@download_without_markers (service_of card_only_document) 200
           post_url response_text figure_html); vm_compute; reflexivity.
Defined.

Lemma download_empty_table_witness :
  download_items_marker empty_table_document = true
  /\ download (service_of empty_table_document) 200 post_url =
     Ret {| success := false;
             message := Some (lit "No downloadable media found");
             data := None |}.
Proof.
  split; [reflexivity|].
  apply (@download_empty_table (service_of empty_table_document) 200
           post_url response_text figure_html); vm_compute; reflexivity.
Defined.

Lemma response_metadata_not_blank_witness :
  (forall s, Some (lit "A short clip") = Some s -> s <> [] /\ trim s = s)
  /\ (forall s, Some (lit "https://cdn.example.com/prev.jpg") = Some s -> s <> []).
Proof.
  apply (@response_metadata_not_blank (service_of captioned_table_document) 200
           post_url
           (found (extractMetadata captioned_table_document)
              (extractTableMedia captioned_table_document))
           {| description := Some (lit "A short clip");
              preview := Some (lit "https://cdn.example.com/prev.jpg");
              media := Some (extractTableMedia captioned_table_document) |}).
  - vm_compute. reflexivity.
  - reflexivity.
Defined.

End WorkflowExtras.

(** ** The URL helpers *)

Module UtilsFacts.

Import Regex Utils MediaExtractor SnapSaverService.
Import StringFacts ExtractorExtras.
Local Open Scope string_scope.
Local Open Scope list_scope.

(** *** The matcher on literal texts and anchors *)

Lemma run_seq_assoc a b c pos s k :
  run (Seq (Seq a b) c) pos s k = run (Seq a (Seq b c)) pos s k.
Proof. reflexivity. Qed.

Lemma run_lits cs : forall r pos s k,
  run (Seq (lits cs) r) pos s k =
  starts_with cs s && run r (pos + length cs) (skipn (length cs) s) k.
Proof.
  induction cs as [|c cs IH]; intros r pos s k.
  - simpl. now rewrite Nat.add_0_r.
  - change (lits (c :: cs)) with (Seq (Class (N.eqb c)) (lits cs)).
    rewrite run_seq_assoc.
    change (run (Seq (Class (N.eqb c)) (Seq (lits cs) r)) pos s k)
      with (match s with
            | x :: s' => N.eqb c x && run (Seq (lits cs) r) (S pos) s' k
            | [] => false
            end).
    destruct s as [|x s']; [reflexivity|].
    rewrite IH. simpl. rewrite andb_assoc. do 2 f_equal. lia.
Qed.

Lemma run_lits_ci cs : forall r pos s k,
  run (Seq (lits_ci cs) r) pos s k =
  starts_with_ci cs s && run r (pos + length cs) (skipn (length cs) s) k.
Proof.
  induction cs as [|c cs IH]; intros r pos s k.
  - simpl. now rewrite Nat.add_0_r.
  - change (lits_ci (c :: cs)) with (Seq (chr_ci c) (lits_ci cs)).
    rewrite run_seq_assoc.
    change (run (Seq (chr_ci c) (Seq (lits_ci cs) r)) pos s k)
      with (match s with
            | x :: s' =>
                (canonicalize x =? canonicalize c)%N
                && run (Seq (lits_ci cs) r) (S pos) s' k
            | [] => false
            end).
    destruct s as [|x s']; [reflexivity|].
    rewrite IH. simpl. rewrite andb_assoc, (N.eqb_sym (canonicalize x)).
    do 2 f_equal. lia.
Qed.

Lemma anchored_bol r : anchored (Seq Bol r).
Proof. intros pos s k. reflexivity. Qed.

Lemma anchored_alt a b : anchored a -> anchored b -> anchored (Alt a b).
Proof. intros Ha Hb pos s k. simpl. now rewrite Ha, Hb. Qed.

Lemma test_anchored r s : anchored r -> test r s = run r 0 s accept.
Proof.
  intros Ha. unfold test.
  assert (H : forall t pos, test_from r (S pos) t = false).
  { induction t as [|c t IH]; intros pos; simpl; rewrite Ha; [reflexivity|].
    apply IH. }
  destruct s as [|c s]; simpl; [now rewrite orb_false_r|].
  now rewrite H, orb_false_r.
Qed.
Lemma starts_with_app_eq p q s :
  starts_with (p ++ q) s = starts_with p s && starts_with q (skipn (length p) s).
Proof.
  revert s. induction p as [|a p IH]; intros s; simpl; [reflexivity|].
  destruct s as [|b s]; [reflexivity|]. now rewrite IH, andb_assoc.
Qed.

Lemma starts_with_ci_app_eq p q s :
  starts_with_ci (p ++ q) s =
  starts_with_ci p s && starts_with_ci q (skipn (length p) s).
Proof.
  revert s. induction p as [|a p IH]; intros s; simpl; [reflexivity|].
  destruct s as [|b s]; [reflexivity|]. now rewrite IH, andb_assoc.
Qed.

(** Whatever follows, [https?:\/\/] asks for one of the two schemes. *)
Lemma scheme_prefix r pos s k :
  run (Seq scheme r) pos s k = true ->
  starts_with (lit "http://") s || starts_with (lit "https://") s = true.
Proof.
  unfold scheme, seqs, str, opt.
  rewrite run_seq_assoc, run_lits.
  intros H. apply andb_true_iff in H. destruct H as [Hhttp H].
  rewrite run_seq_assoc in H.
  change (run (Seq (Alt (lits (lit "s")) Eps) ?x) ?p ?t ?k)
    with (run (Seq (lits (lit "s")) x) p t k || run x p t k) in H.
  apply orb_true_iff. apply orb_true_iff in H. destruct H as [H|H].
  - right. rewrite run_lits in H. apply andb_true_iff in H. destruct H as [Hs H].
    rewrite run_seq_assoc, run_lits in H. apply andb_true_iff in H.
    destruct H as [Hc _].
    change (lit "https://") with (lit "http" ++ lit "s" ++ lit "://").
    rewrite !starts_with_app_eq, Hhttp, Hs. exact Hc.
  - left. rewrite run_seq_assoc, run_lits in H. apply andb_true_iff in H.
    destruct H as [Hc _].
    change (lit "http://") with (lit "http" ++ lit "://").
    now rewrite starts_with_app_eq, Hhttp, Hc.
Qed.

Lemma scheme_ci_prefix r pos s k :
  run (Seq scheme_ci r) pos s k = true ->
  starts_with_ci (lit "http://") s || starts_with_ci (lit "https://") s = true.
Proof.
  unfold scheme_ci, seqs, str_ci, opt.
  rewrite run_seq_assoc, run_lits_ci.
  intros H. apply andb_true_iff in H. destruct H as [Hhttp H].
  rewrite run_seq_assoc in H.
  change (run (Seq (Alt (lits_ci (lit "s")) Eps) ?x) ?p ?t ?k)
    with (run (Seq (lits_ci (lit "s")) x) p t k || run x p t k) in H.
  apply orb_true_iff. apply orb_true_iff in H. destruct H as [H|H].
  - right. rewrite run_lits_ci in H. apply andb_true_iff in H.
    destruct H as [Hs H].
    rewrite run_seq_assoc, run_lits_ci in H. apply andb_true_iff in H.
    destruct H as [Hc _].
    change (lit "https://") with (lit "http" ++ lit "s" ++ lit "://").
    rewrite !starts_with_ci_app_eq, Hhttp, Hs. exact Hc.
  - left. rewrite run_seq_assoc, run_lits_ci in H. apply andb_true_iff in H.
    destruct H as [Hc _].
    change (lit "http://") with (lit "http" ++ lit "://").
    now rewrite starts_with_ci_app_eq, Hhttp, Hc.
Qed.

Lemma exact_scheme_ci s :
  starts_with (lit "http://") s || starts_with (lit "https://") s = true ->
  starts_with_ci (lit "http://") s || starts_with_ci (lit "https://") s = true.
Proof.
  intros H. apply orb_true_iff in H. apply orb_true_iff.
  destruct H as [H|H]; [left | right];
    apply ExtractorFacts.starts_with_ci_of_exact, H.
Qed.

Lemma facebook_anchored : anchored facebookRegex.
Proof. apply anchored_alt; apply anchored_bol. Qed.
Lemma instagram_anchored : anchored instagramRegex.
Proof. apply anchored_bol. Qed.
Lemma tiktok_anchored : anchored tiktokRegex.
Proof. apply anchored_bol. Qed.
Lemma bare_host_anchored : anchored bare_host.
Proof. apply anchored_bol. Qed.

Lemma run_bol r s k : run (Seq Bol r) 0 s k = run r 0 s k.
Proof. reflexivity. Qed.

(** X17. A URL the validator accepts starts with [http://] or [https://]
    (in any letter case, which only the TikTok pattern allows). *)
Theorem valid_url_has_scheme (url : jsstring) :
  UrlValidator_isValid supportedRegexes url = true ->
  starts_with_ci (lit "http://") url || starts_with_ci (lit "https://") url
  = true.
Proof.
  unfold UrlValidator_isValid, supportedRegexes. cbn [existsb].
  rewrite (test_anchored _ facebook_anchored),
    (test_anchored _ instagram_anchored), (test_anchored _ tiktok_anchored).
  rewrite orb_false_r. intros H.
  apply orb_true_iff in H. destruct H as [H|H];
    [|apply orb_true_iff in H; destruct H as [H|H]].
  - unfold facebookRegex in H.
    change (run (Alt ?a ?b) 0 url accept)
      with (run a 0 url accept || run b 0 url accept) in H.
    apply orb_true_iff in H. destruct H as [H|H].
    + cbn [seqs] in H. rewrite run_bol in H.
      apply exact_scheme_ci. eapply scheme_prefix. exact H.
    + cbn [seqs] in H. rewrite run_bol in H. unfold str in H.
      rewrite run_lits in H. apply andb_true_iff in H. destruct H as [H _].
      change (lit "https://fb.watch/") with (lit "https://" ++ lit "fb.watch/") in H.
      rewrite starts_with_app_eq in H. apply andb_true_iff in H.
      destruct H as [H _]. apply exact_scheme_ci. rewrite H. apply orb_true_r.
  - unfold instagramRegex in H. cbn [seqs] in H. rewrite run_bol in H.
    apply exact_scheme_ci. eapply scheme_prefix. exact H.
  - unfold tiktokRegex in H. cbn [seqs] in H. rewrite run_bol in H.
    eapply scheme_ci_prefix. exact H.
Qed.

Lemma valid_url_has_scheme_witness :
  starts_with_ci (lit "http://") (lit "HTTPS://VT.TIKTOK.COM/abc")
  || starts_with_ci (lit "https://") (lit "HTTPS://VT.TIKTOK.COM/abc") = true.
Proof.
  apply valid_url_has_scheme. vm_compute. reflexivity.
Defined.

(** X18. The validator and the platform detection agree: a URL is
    accepted for download exactly when [detectPlatformFromURL] names
    Facebook, Instagram or TikTok; YouTube and Twitter addresses are
    detected and not accepted. *)
Theorem valid_iff_supported_platform (url : jsstring) :
  UrlValidator_isValid supportedRegexes url = true <->
  (detectPlatformFromURL url = Some (lit "Facebook")
   \/ detectPlatformFromURL url = Some (lit "Instagram")
   \/ detectPlatformFromURL url = Some (lit "TikTok")).
Proof.
  unfold UrlValidator_isValid, supportedRegexes, detectPlatformFromURL.
  cbn [existsb].
  destruct (test facebookRegex url), (test instagramRegex url),
    (test tiktokRegex url); simpl; try (split; [auto | reflexivity]);
    try tauto.
  split; [discriminate|].
  destruct (test youtubeRegex url); [|destruct (test twitterRegex url)];
    intros [H|[H|H]]; discriminate H.
Qed.

Section Instance.

Variable post : jsstring -> outcome jsstring.
Variable load : jsstring -> document.

(** X19. An address of a platform that is detected but not supported, or
    of no platform, is refused by [SnapSaver] with ["Invalid URL"]; the
    answer does not depend on the transport, which is not asked. *)
Theorem SnapSaver_unsupported_platform (fuel : nat) (url : jsstring) :
  detectPlatformFromURL url = Some (lit "YouTube")
  \/ detectPlatformFromURL url = Some (lit "Twitter")
  \/ detectPlatformFromURL url = None ->
  SnapSaver post load fuel url =
  Ret {| success := false;
             message := Some (lit "Invalid URL");
             data := None |}.
Proof.
  intros H. unfold SnapSaver.
  rewrite WorkflowFacts.download_of_try, WorkflowFacts.download_try_invalid;
    [reflexivity|].
  simpl. unfold UrlValidator_isValid, supportedRegexes. cbn [existsb].
  revert H. unfold detectPlatformFromURL.
  destruct (test facebookRegex url);
    [intros [H|[H|H]]; discriminate H|].
  destruct (test instagramRegex url);
    [intros [H|[H|H]]; discriminate H|].
  destruct (test tiktokRegex url);
    [intros [H|[H|H]]; discriminate H|].
  reflexivity.
Qed.

End Instance.

Lemma SnapSaver_unsupported_platform_witness :
  SnapSaver (fun _ => Diverge) Fixtures.load_figure 0
    (lit "https://www.youtube.com/watch?v=dQw4w9WgXcQ")
  = Ret {| success := false;
             message := Some (lit "Invalid URL");
             data := None |}.
Proof.
  apply SnapSaver_unsupported_platform. left. vm_compute. reflexivity.
Defined.

(** *** normalizeURL *)

Lemma span_spec p : forall s a b,
  span p s = (a, b) -> s = a ++ b /\ forallb p a = true.
Proof.
  induction s as [|c s IH]; intros a b; simpl.
  - intros [= <- <-]. auto.
  - destruct (p c) eqn:Ec.
    + destruct (span p s) as [a' b'] eqn:E. intros [= <- <-].
      destruct (IH _ _ eq_refl) as [-> Ha]. simpl. now rewrite Ec, Ha.
    + intros [= <- <-]. auto.
Qed.

(** What the groups of the replaced expression are, when it matches. *)
Lemma url_groups_some url g1 g2 g3 :
  url_groups url = Some (g1, g2, g3) ->
  (g1 = lit "http://" \/ g1 = lit "https://")
  /\ url = g1 ++ g2 ++ g3
  /\ exists l1 l2,
      g2 = l1 ++ [46%N] ++ l2 /\ l1 <> [] /\ l2 <> []
      /\ forallb label_char l1 = true /\ forallb label_char l2 = true
      /\ (g3 = [] \/ exists t, g3 = 47%N :: t).
Proof.
  unfold url_groups.
  assert (Hafter : forall sch g s, after_scheme sch url = Some (g, s) ->
            g = lit sch /\ url = g ++ s).
  { intros sch g s. unfold after_scheme.
    destruct (starts_with (lit sch) url) eqn:E; [|discriminate].
    intros [= <- <-]. split; [reflexivity|]. apply starts_with_split, E. }
  assert (Hsch : forall g s, url_scheme url = Some (g, s) ->
            (g = lit "http://" \/ g = lit "https://") /\ url = g ++ s).
  { intros g s. unfold url_scheme.
    destruct (after_scheme "https://" url) as [[g' s']|] eqn:E.
    - intros [= <- <-]. destruct (Hafter _ _ _ E). auto.
    - intros E2. destruct (Hafter _ _ _ E2). auto. }
  destruct (url_scheme url) as [[sch s]|]; [|discriminate].
  destruct (Hsch _ _ eq_refl) as [Hg ->].
  destruct (span label_char s) as [l1 s1] eqn:E1.
  destruct (span_spec _ _ E1) as [-> Hl1].
  destruct l1 as [|a l1]; [discriminate|].
  destruct s1 as [|dot s2]; [discriminate|].
  destruct (N.eqb_spec dot 46) as [->|_]; [|discriminate].
  destruct (span label_char s2) as [l2 s3] eqn:E2.
  destruct (span_spec _ _ E2) as [-> Hl2].
  destruct l2 as [|b l2]; [discriminate|].
  assert (Hres : forall x, Some (sch, (a :: l1) ++ [46%N] ++ b :: l2, x)
                      = Some (g1, g2, g3) ->
            x = g3 /\ sch = g1 /\ g2 = (a :: l1) ++ [46%N] ++ b :: l2)
    by (intros x [= <- <- <-]; auto).
  assert (Hgoal : forall x, x = s3 -> (s3 = [] \/ exists t, s3 = 47%N :: t) ->
            Some (sch, (a :: l1) ++ [46%N] ++ b :: l2, x) = Some (g1, g2, g3) ->
            (g1 = lit "http://" \/ g1 = lit "https://")
            /\ sch ++ (a :: l1) ++ 46%N :: (b :: l2) ++ s3 = g1 ++ g2 ++ g3
            /\ exists l1' l2',
                g2 = l1' ++ [46%N] ++ l2' /\ l1' <> [] /\ l2' <> []
                /\ forallb label_char l1' = true
                /\ forallb label_char l2' = true
                /\ (g3 = [] \/ exists t, g3 = 47%N :: t)).
  { intros x -> Hs3 E. destruct (Hres _ E) as (<- & <- & ->).
    split; [exact Hg|]. split.
    - rewrite <- !app_assoc. reflexivity.
    - exists (a :: l1), (b :: l2). repeat split; try discriminate; assumption. }
  destruct s3 as [|c t].
  - apply Hgoal; [reflexivity | now left].
  - destruct (N.eqb_spec c 47) as [->|_]; [|discriminate].
    destruct (forallb is_dot t); [|discriminate].
    apply Hgoal; [reflexivity | right; now exists t].
Qed.

(** After the insertion the test of [normalizeURL] fails. *)
Lemma bare_host_www g1 x :
  g1 = lit "http://" \/ g1 = lit "https://" ->
  test bare_host (g1 ++ lit "www." ++ x) = false.
Proof.
  intros [-> | ->]; rewrite (test_anchored _ bare_host_anchored); reflexivity.
Qed.

(** X20. [normalizeURL] is idempotent: normalising a normalised address
    changes nothing. *)
Theorem normalizeURL_idempotent (url : jsstring) :
  normalizeURL (normalizeURL url) = normalizeURL url.
Proof.
  unfold normalizeURL at 2 3.
  destruct (test bare_host url) eqn:Et.
  - destruct (url_groups url) as [[[g1 g2] g3]|] eqn:Eg.
    + destruct (url_groups_some _ Eg) as (Hg & _).
      unfold normalizeURL. now rewrite (bare_host_www _ Hg).
    + unfold normalizeURL. now rewrite Et, Eg.
  - unfold normalizeURL. now rewrite Et.
Qed.

(** X21. [normalizeURL] either returns the address as it is, or inserts
    [www.] between the scheme and a host of exactly two labels; it never
    touches the path, and never an address whose host has more labels. *)
Theorem normalizeURL_shape (url : jsstring) :
  normalizeURL url = url
  \/ exists sch l1 l2 rest,
      (sch = lit "http://" \/ sch = lit "https://")
      /\ l1 <> [] /\ l2 <> []
      /\ forallb label_char l1 = true /\ forallb label_char l2 = true
      /\ (rest = [] \/ exists t, rest = 47%N :: t)
      /\ url = sch ++ l1 ++ [46%N] ++ l2 ++ rest
      /\ normalizeURL url = sch ++ lit "www." ++ l1 ++ [46%N] ++ l2 ++ rest.
Proof.
  unfold normalizeURL.
  destruct (test bare_host url); [|now left].
  destruct (url_groups url) as [[[g1 g2] g3]|] eqn:Eg; [|now left].
  right.
  destruct (url_groups_some _ Eg)
    as (Hg & Hurl & l1 & l2 & -> & Hn1 & Hn2 & Hl1 & Hl2 & Hg3).
  exists g1, l1, l2, g3. repeat split; try assumption.
  - rewrite Hurl, <- !app_assoc. reflexivity.
  - rewrite <- !app_assoc. reflexivity.
Qed.

Example normalizeURL_readme :
  normalizeURL (lit "https://facebook.com/video/123")
  = lit "https://www.facebook.com/video/123".
Proof. vm_compute. reflexivity. Qed.

(** Addresses that stay as they are: a host with [www.], a host of three
    labels, a scheme in upper case. *)
Example normalizeURL_unchanged :
  normalizeURL (lit "https://www.facebook.com/video/123")
  = lit "https://www.facebook.com/video/123"
  /\ normalizeURL (lit "https://m.facebook.com/video/123")
     = lit "https://m.facebook.com/video/123"
  /\ normalizeURL (lit "HTTPS://facebook.com/video/123")
     = lit "HTTPS://facebook.com/video/123".
Proof. repeat split; vm_compute; reflexivity. Qed.

(** The addresses of the README, and the short link with a slash at
    its end, which the Facebook pattern does not accept. *)
Example detectPlatformFromURL_readme :
  detectPlatformFromURL (lit "https://www.instagram.com/reel/ABC123/")
  = Some (lit "Instagram")
  /\ detectPlatformFromURL (lit "https://www.facebook.com/watch/?v=1234567890")
     = Some (lit "Facebook")
  /\ detectPlatformFromURL (lit "https://vt.tiktok.com/ABCDEF/")
     = Some (lit "TikTok")
  /\ detectPlatformFromURL (lit "https://fb.watch/abcdef123")
     = Some (lit "Facebook")
  /\ detectPlatformFromURL (lit "https://fb.watch/abcdef123/") = None.
Proof. repeat split; vm_compute; reflexivity. Qed.

End UtilsFacts.

(** ** The decoder against the cipher *)

Module CipherFacts.

Import SnapSaveDecoder CipherSpec StringFacts DecoderExtras.

Local Open Scope Z_scope.

Lemma nat_to_string_digit j : (j < 10)%nat ->
  nat_to_string j = [digit (Z.of_nat j)].
Proof.
  intros Hj.
  do 10 (destruct j as [|j]; [reflexivity|]). lia.
Qed.

Lemma existsb_eqb_In c (l : list N) : existsb (N.eqb c) l = true <-> In c l.
Proof.
  rewrite existsb_exists. split.
  - intros (x & Hx & E). apply N.eqb_eq in E. now subst.
  - intros H. exists c. split; [exact H | apply N.eqb_refl].
Qed.

(** In a list of distinct entries, equal entries stand at equal places. *)
Lemma distinct_nth_error : forall (l : list N) i j x,
  distinct l = true ->
  nth_error l i = Some x -> nth_error l j = Some x -> i = j.
Proof.
  induction l as [|a l IH]; intros i j x Hd Hi Hj.
  - destruct i; discriminate.
  - simpl in Hd. apply andb_true_iff in Hd. destruct Hd as [Ha Hl].
    apply negb_true_iff in Ha.
    destruct i as [|i], j as [|j]; simpl in *.
    + reflexivity.
    + injection Hi as ->. apply nth_error_In in Hj.
      apply existsb_eqb_In in Hj. congruence.
    + injection Hj as ->. apply nth_error_In in Hi.
      apply existsb_eqb_In in Hi. congruence.
    + f_equal. eapply IH; eauto.
Qed.

Lemma symbol_nth_error cm d : 0 <= d < Z.of_nat (length cm) ->
  nth_error cm (Z.to_nat d) = Some (symbol cm d).
Proof.
  intros Hd. unfold symbol. apply nth_error_nth'. lia.
Qed.

Lemma symbol_injective cm d e :
  distinct cm = true ->
  0 <= d < Z.of_nat (length cm) -> 0 <= e < Z.of_nat (length cm) ->
  symbol cm d = symbol cm e -> d = e.
Proof.
  intros Hdist Hd He E.
  assert (Z.to_nat d = Z.to_nat e); [|lia].
  eapply distinct_nth_error; eauto using symbol_nth_error.
  rewrite E. now apply symbol_nth_error.
Qed.

Lemma plain_map_spec cm : plain_map cm = true ->
  distinct cm = true
  /\ forall c, In c cm -> is_decimal c = false /\ compile_unit c = Ret (PLiteral c).
Proof.
  unfold plain_map. intros H. apply andb_true_iff in H. destruct H as [Hd Hp].
  split; [exact Hd|]. intros c Hc.
  rewrite forallb_forall in Hp. specialize (Hp c Hc). unfold plain_symbol in Hp.
  apply andb_true_iff in Hp. destruct Hp as [H1 H2].
  apply negb_true_iff in H1. split; [exact H1|].
  revert H2. unfold compile_unit.
  repeat match goal with
         | |- context [if ?b then _ else _] => destruct b
         end; try discriminate; reflexivity.
Qed.


Lemma flat_map_units (A B : Type) (f : B -> list A) :
  forall (l : list B) (h : B -> A),
  (forall x, In x l -> f x = [h x]) -> flat_map f l = map h l.
Proof.
  intros l h H. induction l as [|x l IH]; [reflexivity|].
  simpl. rewrite (H x) by now left. simpl. f_equal.
  apply IH. intros y Hy. apply H. now right.
Qed.

Section Substitution.

Variable cm : jsstring.
Variable b : Z.
Hypothesis Hmap : plain_map cm = true.
Hypothesis Hb : 2 <= b <= 10.
Hypothesis Hlen : b < Z.of_nat (length cm).

(** One round of the substitution loop: the symbol at index [j] becomes
    the decimal text of [j]; nothing else changes. *)
Lemma replace_symbol j ds :
  (j < length cm)%nat ->
  (forall d, In d ds -> 0 <= d < b) ->
  replace_all (PLiteral (symbol cm (Z.of_nat j))) (nat_to_string j)
    (half_substituted cm (Z.of_nat j) ds)
  = half_substituted cm (Z.of_nat (S j)) ds.
Proof.
  intros Hj Hds. destruct (plain_map_spec cm Hmap) as [Hdist Hplain].
  unfold replace_all, half_substituted. rewrite flat_map_concat_map, map_map.
  rewrite <- flat_map_concat_map.
  apply flat_map_units.
  intros d Hd. specialize (Hds d Hd).
  destruct (Z.ltb_spec d (Z.of_nat j)) as [Hlt|Hge].
  - destruct (Z.ltb_spec d (Z.of_nat (S j))); [|lia].
    assert (Hdec : is_decimal (digit d) = true) by (apply digit_is_decimal; lia).
    destruct (N.eqb_spec (digit d) (symbol cm (Z.of_nat j))) as [E|_]; [|reflexivity].
    exfalso. rewrite E in Hdec.
    assert (Hin : In (symbol cm (Z.of_nat j)) cm).
    { eapply nth_error_In. apply symbol_nth_error. lia. }
    destruct (Hplain _ Hin) as [Hnd _]. congruence.
  - destruct (N.eqb_spec (symbol cm d) (symbol cm (Z.of_nat j))) as [E|Hne].
    + apply symbol_injective in E; [|exact Hdist|lia|lia]. subst d.
      destruct (Z.ltb_spec (Z.of_nat j) (Z.of_nat (S j))); [|lia].
      apply nat_to_string_digit. lia.
    + destruct (Z.ltb_spec d (Z.of_nat (S j))) as [Hlt|_]; [|reflexivity].
      exfalso. apply Hne. f_equal. lia.
Qed.

Lemma substitute_from_symbols ds :
  (forall d, In d ds -> 0 <= d < b) ->
  forall rest done,
  cm = done ++ rest ->
  substitute_from (length done) rest
    (half_substituted cm (Z.of_nat (length done)) ds)
  = Ret (half_substituted cm (Z.of_nat (length cm)) ds).
Proof.
  intros Hds. destruct (plain_map_spec cm Hmap) as [Hdist Hplain].
  induction rest as [|c rest IH]; intros done E.
  - simpl. rewrite E, app_nil_r. reflexivity.
  - assert (Hc : c = symbol cm (Z.of_nat (length done))).
    { unfold symbol. rewrite Nat2Z.id, E, app_nth2, Nat.sub_diag by lia.
      reflexivity. }
    assert (Hin : In c cm) by (rewrite E; apply in_or_app; right; now left).
    destruct (Hplain c Hin) as [_ Hcomp].
    cbn [substitute_from]. rewrite Hcomp. cbn [bind].
    rewrite Hc, replace_symbol; [| |exact Hds].
    2:{ rewrite E, length_app. simpl. lia. }
    replace (S (length done)) with (length (done ++ [c]))
      by (rewrite length_app; simpl; lia).
    apply IH. rewrite <- app_assoc. exact E.
Qed.

(** The substitution loop turns the symbols of a segment into the decimal
    digits they stand for. *)
Lemma substitute_symbols ds :
  (forall d, In d ds -> 0 <= d < b) ->
  substitute cm (map (symbol cm) ds) = Ret (map digit ds).
Proof.
  intros Hds. unfold substitute.
  replace (map (symbol cm) ds) with (half_substituted cm (Z.of_nat (@length N [])) ds).
  2:{ unfold half_substituted. apply map_ext_in. intros d Hd.
      specialize (Hds d Hd). simpl.
      destruct (Z.ltb_spec d 0); [lia | reflexivity]. }
  etransitivity; [exact (@substitute_from_symbols ds Hds cm [] eq_refl)|].
  f_equal. unfold half_substituted. apply map_ext_in. intros d Hd.
  specialize (Hds d Hd).
  destruct (Z.ltb_spec d (Z.of_nat (length cm))); [reflexivity | lia].
Qed.


Lemma produced_digits ds : produced b ds -> forall d, In d ds -> 0 <= d < b.
Proof.
  induction ds as [|e ds IH]; intros Hp d; [intros []|].
  intros [->|Hin]; [eapply produced_head; eauto|].
  apply IH; [eapply produced_tail; eauto | exact Hin].
Qed.

(** The scan of a delimited segment, with any budget above its length. *)
Lemma scan_finds d post : forall mid pre segment fuel,
  ~ In d mid -> (length mid < fuel)%nat ->
  (N.of_nat (length segment) + N.of_nat (length mid) <= MAX_STRING_LENGTH)%N ->
  scan fuel (pre ++ mid ++ d :: post) (Some d) (length pre) segment
  = Ret ((length pre + length mid)%nat, segment ++ mid).
Proof.
  induction mid as [|c mid IH]; intros pre segment fuel Hd Hf Hfit;
    (destruct fuel as [|fuel]; [simpl in Hf; lia|]);
    rewrite DecoderFacts.scan_S.
  - rewrite nth_error_app2, Nat.sub_diag by lia.
    simpl. rewrite N.eqb_refl, Nat.add_0_r, app_nil_r. reflexivity.
  - rewrite nth_error_app2, Nat.sub_diag by lia. simpl nth_error.
    simpl strict_eq_unit.
    destruct (N.eqb_spec c d) as [->|Hne]; [exfalso; apply Hd; now left|].
    cbn [to_string_unit length] in *.
    rewrite DecoderFacts.concat_fits by (simpl; lia). cbn [bind].
    replace (pre ++ (c :: mid) ++ d :: post)
      with ((pre ++ [c]) ++ mid ++ d :: post)
      by (rewrite <- app_assoc; reflexivity).
    replace (S (length pre)) with (length (pre ++ [c]))
      by (rewrite length_app; simpl; lia).
    rewrite IH;
      [| intros H; apply Hd; now right | lia | rewrite length_app; simpl; lia].
    rewrite length_app. simpl. rewrite <- app_assoc. simpl.
    f_equal. f_equal. lia.
Qed.

(** Produced digits of a number below 2^53 are few. *)
Lemma produced_value_bound ds :
  produced b ds -> ds <> [] -> 2 ^ Z.of_nat (length ds - 1) <= value b ds.
Proof.
  induction ds as [|e ds IH]; intros Hp Hne; [congruence|].
  destruct ds as [|e' ds].
  - simpl. destruct Hp as (He & Hv & _). simpl in Hv. lia.
  - assert (Hp' := produced_tail Hp).
    specialize (IH Hp' ltac:(discriminate)).
    destruct Hp as (He & _ & _).
    change (value b (e :: e' :: ds)) with (e + b * value b (e' :: ds)).
    replace (length (e :: e' :: ds) - 1)%nat
      with (S (length (e' :: ds) - 1)) by (simpl; lia).
    rewrite Nat2Z.inj_succ, Z.pow_succ_r by lia.
    assert (0 < 2 ^ Z.of_nat (length (e' :: ds) - 1))
      by (apply Z.pow_pos_nonneg; lia).
    nia.
Qed.

Lemma readable_length off ds : readable b off ds -> (length ds <= 54)%nat.
Proof.
  intros (Hp & Hv & _).
  destruct ds as [|e ds]; [simpl; lia|].
  assert (Hbound := produced_value_bound Hp ltac:(discriminate)).
  assert (Hle : 2 ^ Z.of_nat (length (e :: ds) - 1) <= 2 ^ 53)
    by (unfold MAX_EXACT in Hv; lia).
  apply Z.pow_le_mono_r_iff in Hle; lia.
Qed.

(** The delimiter is no symbol of a digit. *)
Lemma delimiter_not_in_segment ds :
  (forall d, In d ds -> 0 <= d < b) ->
  ~ In (symbol cm b) (map (symbol cm) ds).
Proof.
  intros Hds Hin. destruct (plain_map_spec cm Hmap) as [Hdist _].
  apply in_map_iff in Hin. destruct Hin as (d & E & Hd).
  specialize (Hds d Hd).
  apply symbol_injective in E; [lia | exact Hdist | lia | lia].
Qed.

(** The digits of a readable segment come out of [decodeNumber] as the
    decimal text of their value. *)
Lemma decodeNumber_segment off ds fuel :
  readable b off ds -> (55 <= fuel)%nat ->
  exists digits,
    decodeNumber fuel (map digit (rev ds)) b 10 = Ret digits
    /\ ToNumber digits = Ret (value b ds).
Proof.
  intros (Hp & Hv & _) Hf.
  assert (Hb64 : 2 <= b <= 64) by lia.
  assert (H0 : 0 <= value b ds) by (apply BaseConverterFacts.value_nonneg; [lia | exact Hp]).
  assert (Hdec : toDecimal (map digit (rev ds)) b = Ret (value b ds)).
  { unfold toDecimal. rewrite <- map_rev, rev_involutive.
    rewrite (BaseConverterFacts.reduce_produced Hb64 ds 0 Hp); simpl Z.of_nat;
      rewrite ?Z.pow_0_r; [f_equal; lia | lia | lia]. }
  unfold decodeNumber. rewrite Hdec. cbn [bind].
  apply reencode_decimal; [split; assumption | exact Hf].
Qed.

Variables off : Z.
Variables base_s off_s : jsstring.
Hypothesis Hbase : ToNumber base_s = Ret b.
Hypothesis Hoff : ToNumber off_s = Ret off.

(** The outer loop on a cipher text, from the end of what it has read. *)
Lemma segments_cipher : forall dss pre acc fuel,
  Forall (readable b off) dss ->
  (length dss + length (cipher cm b dss) + 55 <= fuel)%nat ->
  segments fuel (pre ++ cipher cm b dss) (Some cm) (Some off_s) (Some base_s)
    (length pre) acc
  = Ret (acc ++ plain b off dss).
Proof.
  induction dss as [|ds dss IH]; intros pre acc fuel Hr Hf;
    (destruct fuel as [|fuel]; [lia|]).
  - cbn [segments cipher flat_map plain map]. rewrite !app_nil_r.
    destruct (Nat.ltb_spec (length pre) (length pre)); [lia | reflexivity].
  - inversion Hr as [|? ? Hds Hrest]; subst.
    assert (Hdig : forall d, In d (rev ds) -> 0 <= d < b).
    { intros d Hd. apply in_rev in Hd. destruct Hds as (Hp & _).
      eapply produced_digits; eauto. }
    set (mid := map (symbol cm) (rev ds)).
    assert (Henc : pre ++ cipher cm b (ds :: dss)
                   = pre ++ mid ++ symbol cm b :: cipher cm b dss).
    { unfold cipher. cbn [flat_map]. unfold cipher_segment. fold mid.
      rewrite <- app_assoc. reflexivity. }
    assert (Hclen : length (cipher cm b (ds :: dss))
                   = (length mid + S (length (cipher cm b dss)))%nat).
    { unfold cipher. cbn [flat_map]. unfold cipher_segment. fold mid.
      rewrite !length_app. simpl. lia. }
    cbn [length] in Hf. rewrite Hclen in Hf.
    cbn [segments].
    destruct (Nat.ltb_spec (length pre) (length (pre ++ cipher cm b (ds :: dss))))
      as [_|Hge]; [|rewrite length_app, Hclen in Hge; lia].
    cbn [delimiter_of]. rewrite Hbase. cbn [bind].
    assert (Hd : char_at cm b = Some (symbol cm b)).
    { unfold char_at. destruct (Z.ltb_spec b 0); [lia|].
      apply symbol_nth_error. lia. }
    rewrite Hd, Henc.
    assert (Hshort : (length mid <= 54)%nat).
    { unfold mid. rewrite length_map, length_rev.
      eapply readable_length. exact Hds. }
    rewrite scan_finds;
      [| apply delimiter_not_in_segment; exact Hdig | lia
       | unfold MAX_STRING_LENGTH; simpl length; lia].
    cbn [bind app].
    change (substitute cm mid) with (substitute cm (map (symbol cm) (rev ds))).
    rewrite substitute_symbols by exact Hdig. cbn [bind].
    destruct (@decodeNumber_segment off ds (S fuel) Hds) as (digits & Hdn & Hnum);
      [lia|].
    cbn [decodeNumber_of]. rewrite Hbase. cbn [bind].
    rewrite Hdn. cbn [bind]. rewrite Hnum. cbn [subtract]. rewrite Hoff.
    cbn [bind].
    destruct Hds as (_ & _ & Hex).
    unfold exact at 1.
    destruct (Z.leb_spec (Z.abs (value b ds - off)) MAX_EXACT); [|lia].
    cbn [bind fromCharCode_num].
    replace (pre ++ mid ++ symbol cm b :: cipher cm b dss)
      with ((pre ++ mid ++ [symbol cm b]) ++ cipher cm b dss)
      by (rewrite <- !app_assoc; reflexivity).
    replace (S (length pre + length mid))
      with (length (pre ++ mid ++ [symbol cm b]))
      by (rewrite !length_app; simpl; lia).
    rewrite IH; [| exact Hrest | lia].
    cbn [plain map]. rewrite <- app_assoc. reflexivity.
Qed.

End Substitution.

(** X22. The decoder reverses the cipher.  Take a symbol map of distinct
    symbols, none a decimal digit or a special character of regular
    expressions, a base between 2 and 10 below the length of the map, and
    a text made of segments: the digits of a number in that base, written
    with the symbols of the map, then the symbol at index [base].  With a
    loop budget above the length of the text, [decodeSnapApp] returns
    byte repair applied to the code units that the numbers, less the
    offset, stand for. *)
Theorem decodeSnapApp_cipher
  (args : list jsstring) (cm base_s off_s : jsstring) (b off : Z)
  (dss : list (list Z)) (fuel : nat) :
  nth_error args 0 = Some (cipher cm b dss) ->
  nth_error args 2 = Some cm ->
  nth_error args 3 = Some off_s ->
  nth_error args 4 = Some base_s ->
  plain_map cm = true ->
  ToNumber base_s = Ret b -> 2 <= b <= 10 -> b < Z.of_nat (length cm) ->
  ToNumber off_s = Ret off ->
  Forall (readable b off) dss ->
  (length dss + length (cipher cm b dss) + 55 <= fuel)%nat ->
  decodeSnapApp fuel args = fixEncoding (plain b off dss).
Proof.
  intros H0 H2 H3 H4 Hmap Hbase Hb Hlen Hoff Hr Hf.
  unfold decodeSnapApp. rewrite H0, H2, H3, H4.
  pose proof (@segments_cipher cm b Hmap Hb Hlen off base_s off_s Hbase Hoff
                dss [] [] fuel Hr Hf) as Hrun.
  cbn [app length] in Hrun. rewrite Hrun. reflexivity.
Qed.

Lemma decodeSnapApp_cipher_witness :
  decodeSnapApp 80
    [lit "bccbebccce"; lit "u"; lit "abcde"; lit "1"; lit "4"; lit ""]
  = Ret (lit "hi").
Proof.
  apply (@decodeSnapApp_cipher
           [lit "bccbebccce"; lit "u"; lit "abcde"; lit "1"; lit "4"; lit ""]
           (lit "abcde") (lit "4") (lit "1") 4 1
           [[1; 2; 2; 1]; [2; 2; 2; 1]] 80).
  - reflexivity.
  - reflexivity.
  - reflexivity.
  - reflexivity.
  - reflexivity.
  - reflexivity.
  - lia.
  - simpl. lia.
  - reflexivity.
  - unfold readable, MAX_EXACT. repeat constructor; simpl; lia.
  - simpl. lia.
Defined.

End CipherFacts.

(** ** Byte repair against the UTF-8 encoder *)

Module Utf8Facts.

Import Codec SnapSaveDecoder CipherSpec.

Local Open Scope N_scope.

Ltac div_lia := zify; Z.to_euclidean_division_equations; lia.

Lemma land_ones_mod b n : N.land b (N.ones n) = b mod 2 ^ n.
Proof. apply N.land_ones. Qed.

Lemma lor_shiftl_low a r : r < 64 ->
  N.lor (N.shiftl a 6) r = 64 * a + r.
Proof.
  intros Hr.
  assert (Hland : N.land (N.shiftl a 6) r = 0).
  { apply N.bits_inj. intros n. rewrite N.land_spec, N.bits_0.
    destruct (N.lt_ge_cases n 6) as [Hn|Hn].
    - rewrite N.shiftl_spec_low by exact Hn. reflexivity.
    - destruct (N.eq_dec r 0) as [->|Hr0].
      + rewrite N.bits_0. apply andb_false_r.
      + rewrite (N.bits_above_log2 r n); [apply andb_false_r|].
        apply N.lt_le_trans with 6; [|exact Hn].
        apply N.log2_lt_pow2; [lia | exact Hr]. }
  rewrite <- N.lxor_lor, <- N.add_nocarry_lxor by exact Hland.
  rewrite N.shiftl_mul_pow2. change (2 ^ 6) with 64. lia.
Qed.

(** A continuation byte adds its six low bits. *)
Lemma continuation_bits c b : 128 <= b <= 191 ->
  N.lor (N.shiftl c 6) (N.land b 63) = 64 * c + (b - 128).
Proof.
  intros Hb. change 63 with (N.ones 6). rewrite land_ones_mod.
  change (2 ^ 6) with 64.
  rewrite lor_shiftl_low by (apply N.mod_lt; lia).
  div_lia.
Qed.

Lemma lead_two fatal b bs : 194 <= b <= 223 ->
  utf8_decode fatal idle (b :: bs) =
  utf8_decode fatal
    {| code_point := b - 192; bytes_seen := 0; bytes_needed := 1;
       lower_boundary := 128; upper_boundary := 191 |} bs.
Proof.
  intros Hb. cbn [utf8_decode idle bytes_needed Nat.eqb]. unfold lead_step.
  destruct (N.leb_spec b 127); [lia|].
  destruct (N.leb_spec 194 b); [|lia].
  destruct (N.leb_spec b 223); [|lia].
  cbn [andb]. do 2 f_equal.
  change 31 with (N.ones 5). rewrite land_ones_mod. change (2 ^ 5) with 32.
  div_lia.
Qed.

Lemma lead_three fatal b bs : 224 <= b <= 239 ->
  utf8_decode fatal idle (b :: bs) =
  utf8_decode fatal
    {| code_point := b - 224; bytes_seen := 0; bytes_needed := 2;
       lower_boundary := if b =? 224 then 160 else 128;
       upper_boundary := if b =? 237 then 159 else 191 |} bs.
Proof.
  intros Hb. cbn [utf8_decode idle bytes_needed Nat.eqb]. unfold lead_step.
  destruct (N.leb_spec b 127); [lia|].
  destruct (N.leb_spec 194 b); [|lia].
  destruct (N.leb_spec b 223); [lia|].
  destruct (N.leb_spec 224 b); [|lia].
  destruct (N.leb_spec b 239); [|lia].
  cbn [andb]. do 2 f_equal.
  change 15 with (N.ones 4). rewrite land_ones_mod. change (2 ^ 4) with 16.
  div_lia.
Qed.

Lemma lead_four fatal b bs : 240 <= b <= 244 ->
  utf8_decode fatal idle (b :: bs) =
  utf8_decode fatal
    {| code_point := b - 240; bytes_seen := 0; bytes_needed := 3;
       lower_boundary := if b =? 240 then 144 else 128;
       upper_boundary := if b =? 244 then 143 else 191 |} bs.
Proof.
  intros Hb. cbn [utf8_decode idle bytes_needed Nat.eqb]. unfold lead_step.
  destruct (N.leb_spec b 127); [lia|].
  destruct (N.leb_spec 194 b); [|lia].
  destruct (N.leb_spec b 223); [lia|].
  destruct (N.leb_spec 224 b); [|lia].
  destruct (N.leb_spec b 239); [lia|].
  destruct (N.leb_spec 240 b); [|lia].
  destruct (N.leb_spec b 244); [|lia].
  cbn [andb]. do 2 f_equal.
  change 7 with (N.ones 3). rewrite land_ones_mod. change (2 ^ 3) with 8.
  div_lia.
Qed.

(** A continuation byte within the bounds, when more bytes are to come. *)
Lemma continuation_more fatal c seen needed lo hi b bs :
  needed <> 0%nat -> S seen <> needed ->
  lo <= b <= hi -> 128 <= lo -> hi <= 191 ->
  utf8_decode fatal
    {| code_point := c; bytes_seen := seen; bytes_needed := needed;
       lower_boundary := lo; upper_boundary := hi |} (b :: bs) =
  utf8_decode fatal
    {| code_point := 64 * c + (b - 128); bytes_seen := S seen;
       bytes_needed := needed;
       lower_boundary := 128; upper_boundary := 191 |} bs.
Proof.
  intros Hn Hs Hb Hlo Hhi.
  cbn [utf8_decode bytes_needed bytes_seen lower_boundary upper_boundary code_point].
  destruct (Nat.eqb_spec needed 0); [contradiction|].
  destruct (N.ltb_spec b lo); [lia|].
  destruct (N.ltb_spec hi b); [lia|].
  cbn [orb].
  destruct (Nat.eqb_spec (S seen) needed); [contradiction|].
  rewrite continuation_bits by lia. reflexivity.
Qed.

(** The last continuation byte of a sequence. *)
Lemma continuation_last fatal c seen lo hi b bs :
  lo <= b <= hi -> 128 <= lo -> hi <= 191 ->
  utf8_decode fatal
    {| code_point := c; bytes_seen := seen; bytes_needed := S seen;
       lower_boundary := lo; upper_boundary := hi |} (b :: bs) =
  emit (64 * c + (b - 128)) (utf8_decode fatal idle bs).
Proof.
  intros Hb Hlo Hhi.
  cbn [utf8_decode bytes_needed bytes_seen lower_boundary upper_boundary code_point].
  cbn [Nat.eqb].
  destruct (N.ltb_spec b lo); [lia|].
  destruct (N.ltb_spec hi b); [lia|].
  cbn [orb]. rewrite Nat.eqb_refl.
  rewrite continuation_bits by lia. reflexivity.
Qed.

(** The decoder reads the bytes of a scalar value back as that value. *)
Lemma utf8_decode_encode fatal cp rest :
  scalar_value cp = true ->
  utf8_decode fatal idle (utf8_encode cp ++ rest)
  = emit cp (utf8_decode fatal idle rest).
Proof.
  intros Hs. unfold scalar_value in Hs.
  assert (Hcp : cp < 55296 \/ 57344 <= cp < 1114112).
  { apply orb_true_iff in Hs. destruct Hs as [H|H].
    - left. now apply N.ltb_lt in H.
    - right. apply andb_true_iff in H. destruct H as [H1 H2].
      apply N.leb_le in H1. apply N.ltb_lt in H2. lia. }
  clear Hs. unfold utf8_encode.
  destruct (N.ltb_spec cp 128) as [H1|H1].
  - cbn [app utf8_decode idle bytes_needed Nat.eqb]. unfold lead_step.
    destruct (N.leb_spec cp 127); [reflexivity | lia].
  - destruct (N.ltb_spec cp 2048) as [H2|H2].
    + cbn [app]. rewrite lead_two by div_lia.
      rewrite continuation_last by div_lia.
      f_equal. div_lia.
    + destruct (N.ltb_spec cp 65536) as [H3|H3].
      * cbn [app]. rewrite lead_three by div_lia.
        rewrite continuation_more;
          [| discriminate | discriminate
           | destruct (N.eqb_spec (224 + cp / 4096) 224);
             destruct (N.eqb_spec (224 + cp / 4096) 237); div_lia
           | destruct (N.eqb_spec (224 + cp / 4096) 224); lia
           | destruct (N.eqb_spec (224 + cp / 4096) 237); lia].
        rewrite continuation_last by div_lia.
        f_equal. div_lia.
      * cbn [app]. rewrite lead_four by div_lia.
        rewrite continuation_more;
          [| discriminate | discriminate
           | destruct (N.eqb_spec (240 + cp / 262144) 240);
             destruct (N.eqb_spec (240 + cp / 262144) 244); div_lia
           | destruct (N.eqb_spec (240 + cp / 262144) 240); lia
           | destruct (N.eqb_spec (240 + cp / 262144) 244); lia].
        rewrite continuation_more by (discriminate || div_lia).
        rewrite continuation_last by div_lia.
        f_equal. div_lia.
Qed.

Lemma scalar_value_bound cp : scalar_value cp = true -> cp < 1114112.
Proof.
  unfold scalar_value. intros H. apply orb_true_iff in H. destruct H as [H|H].
  - apply N.ltb_lt in H. lia.
  - apply andb_true_iff in H. destruct H as [_ H]. now apply N.ltb_lt in H.
Qed.

Lemma utf8_encode_bytes cp : scalar_value cp = true ->
  forall b, In b (utf8_encode cp) -> b < 256.
Proof.
  intros Hs b. apply scalar_value_bound in Hs. unfold utf8_encode.
  destruct (N.ltb_spec cp 128); [|destruct (N.ltb_spec cp 2048);
    [|destruct (N.ltb_spec cp 65536)]]; cbn [In];
    intros Hin; repeat (destruct Hin as [Hin|Hin]; [subst b; div_lia|]);
    destruct Hin.
Qed.

Lemma utf8_decode_text fatal : forall cps,
  forallb scalar_value cps = true ->
  utf8_decode fatal idle (flat_map utf8_encode cps) = Ret cps.
Proof.
  induction cps as [|cp cps IH]; intros H; [reflexivity|].
  simpl in H. apply andb_true_iff in H. destruct H as [Hcp Hcps].
  cbn [flat_map]. rewrite utf8_decode_encode by exact Hcp.
  rewrite IH by exact Hcps. reflexivity.
Qed.

Lemma bytes_of_text cps :
  forallb scalar_value cps = true ->
  bytes_of (flat_map utf8_encode cps) = flat_map utf8_encode cps.
Proof.
  intros H. unfold bytes_of. rewrite <- (map_id (flat_map utf8_encode cps)) at 2.
  apply map_ext_in. intros b Hb. apply N.mod_small.
  apply in_flat_map in Hb. destruct Hb as (cp & Hcp & Hb).
  rewrite forallb_forall in H. eapply utf8_encode_bytes; eauto.
Qed.

(** X23. Byte repair reads UTF-8 back.  On a string whose code units are
    the UTF-8 bytes of a text (a list of Unicode scalar values),
    [fixEncoding] returns that text in UTF-16, less a byte order mark at
    its start; and the same bytes pass a decoder that rejects malformed
    input. *)
Theorem fixEncoding_utf8_text (cps : list N) :
  forallb scalar_value cps = true ->
  fixEncoding (flat_map utf8_encode cps)
  = Ret (flat_map utf16_encode (strip_bom false cps))
  /\ valid_utf8 (flat_map utf8_encode cps) = true.
Proof.
  intros H. split.
  - unfold fixEncoding, TextDecoder_decode.
    rewrite bytes_of_text, utf8_decode_text by exact H. reflexivity.
  - unfold valid_utf8. rewrite utf8_decode_text by exact H. reflexivity.
Qed.

Lemma fixEncoding_utf8_text_witness :
  fixEncoding [195; 169; 226; 130; 172; 240; 159; 152; 128]
  = Ret [233; 8364; 55357; 56832]
  /\ valid_utf8 [195; 169; 226; 130; 172; 240; 159; 152; 128] = true.
Proof.
  apply (fixEncoding_utf8_text [233; 8364; 128512]). reflexivity.
Defined.

End Utf8Facts.

(** ** The replaced expression of normalizeURL *)

Module NormalizeFacts.

Import Regex Utils StringFacts ExtractorExtras UtilsFacts.
Local Open Scope string_scope.
Local Open Scope list_scope.

(** The star of a class is the written-out loop. *)
Lemma run_star_class p k : forall s pos,
  run (Star (Class p)) pos s k = star_class p pos s k.
Proof.
  intros s pos.
  change (run (Star (Class p)) pos s k)
    with ((fix loop (n : nat) (pos : nat) (s : jsstring) {struct n} : bool :=
             k pos s ||
             match n with
             | O => false
             | S n' =>
                 match s with
                 | c :: s' => p c && (Nat.ltb pos (S pos) && loop n' (S pos) s')
                 | [] => false
                 end
             end) (length s) pos s).
  generalize (Nat.le_refl (length s)).
  generalize (length s) at 2 3 as n.
  intros n. revert s pos.
  induction n as [|n IH]; intros s pos Hn.
  - destruct s; [reflexivity | simpl in Hn; lia].
  - destruct s as [|c s]; [reflexivity|].
    cbn [star_class]. rewrite <- IH by (simpl in Hn; lia).
    destruct (Nat.ltb_spec pos (S pos)); [reflexivity | lia].
Qed.

Lemma run_seq_star_class p r k s pos :
  run (Seq (Star (Class p)) r) pos s k
  = star_class p pos s (fun pos' s' => run r pos' s' k).
Proof.
  change (run (Seq (Star (Class p)) r) pos s k)
    with (run (Star (Class p)) pos s (fun pos' s' => run r pos' s' k)).
  apply run_star_class.
Qed.

(** When what follows refuses the characters of the class, the star
    takes the whole run of them. *)
Lemma star_class_span p k :
  (forall c s' pos', p c = true -> k pos' (c :: s') = false) ->
  forall s pos,
  star_class p pos s k = k (pos + length (fst (span p s))) (snd (span p s)).
Proof.
  intros Hk. induction s as [|c s IH]; intros pos.
  - simpl. now rewrite orb_false_r, Nat.add_0_r.
  - cbn [star_class span]. destruct (p c) eqn:Ec.
    + rewrite (Hk c s pos Ec), IH. cbn [orb andb].
      destruct (span p s) as [a b]. cbn [fst snd length]. f_equal. lia.
    + cbn [andb fst snd length]. now rewrite orb_false_r, Nat.add_0_r.
Qed.

Lemma run_plus_class p r k :
  (forall c s' pos', p c = true -> run r pos' (c :: s') k = false) ->
  forall s pos,
  run (Seq (plus (Class p)) r) pos s k
  = match fst (span p s) with
    | [] => false
    | _ :: _ => run r (pos + length (fst (span p s))) (snd (span p s)) k
    end.
Proof.
  intros Hk s pos. unfold plus. rewrite run_seq_assoc.
  change (run (Seq (Class p) (Seq (Star (Class p)) r)) pos s k)
    with (match s with
          | c :: s' => p c && run (Seq (Star (Class p)) r) (S pos) s' k
          | [] => false
          end).
  destruct s as [|c s]; [reflexivity|].
  rewrite run_seq_star_class, star_class_span by exact Hk.
  cbn [span]. destruct (p c); [|reflexivity].
  destruct (span p s) as [a b]. cbn [fst snd length andb]. f_equal. lia.
Qed.

(** Any characters but line terminators, up to the end of the text. *)
Lemma star_dot_eol : forall s pos,
  run (Seq (Star (Class is_dot)) (Seq Eol Eps)) pos s accept
  = forallb is_dot s.
Proof.
  intros s pos. rewrite run_seq_star_class. revert pos.
  induction s as [|c s IH]; intros pos; [reflexivity|].
  cbn [star_class forallb]. rewrite IH. reflexivity.
Qed.

(** The tail of the expression: end of text, or a slash and a rest. *)
Lemma run_path_eol s pos :
  run (Seq (opt (Seq (str "/") (Star (Class is_dot)))) (Seq Eol Eps)) pos s accept
  = match s with
    | [] => true
    | c :: t => (c =? 47)%N && forallb is_dot t
    end.
Proof.
  unfold opt.
  change (run (Seq (Alt ?a Eps) ?r) pos s accept)
    with (run (Seq a r) pos s accept || run r pos s accept).
  unfold str. rewrite run_seq_assoc, run_lits.
  destruct s as [|c t]; [reflexivity|].
  cbn [starts_with lit]. simpl skipn. rewrite star_dot_eol.
  simpl. rewrite orb_false_r, andb_true_r, N.eqb_sym. reflexivity.
Qed.

Lemma run_scheme r s k pos :
  run (Seq scheme r) pos s k
  = match url_scheme s with
    | Some (sch, t) => run r (pos + length sch) t k
    | None => false
    end.
Proof.
  unfold scheme, seqs, str, opt. rewrite run_seq_assoc, run_lits.
  rewrite run_seq_assoc.
  change (run (Seq (Alt (lits (lit "s")) Eps) ?x) ?p ?t ?k)
    with (run (Seq (lits (lit "s")) x) p t k || run x p t k).
  rewrite run_lits, !run_seq_assoc, !run_lits.
  change (run (Seq Eps r) ?p ?t k) with (run r p t k).
  unfold url_scheme, after_scheme.
  change (lit "https://") with (lit "http" ++ lit "s" ++ lit "://").
  change (lit "http://") with (lit "http" ++ lit "://").
  rewrite !starts_with_app_eq.
  destruct (starts_with (lit "http") s); [|reflexivity].
  cbn [andb].
  set (s4 := skipn (length (lit "http")) s).
  assert (Hn : starts_with (lit "s") s4 = true ->
               starts_with (lit "://") s4 = false).
  { destruct s4 as [|c t]; [discriminate|].
    change (starts_with (lit "s") (c :: t)) with ((115 =? c)%N && true).
    change (starts_with (lit "://") (c :: t))
      with ((58 =? c)%N && starts_with (lit "//") t).
    intros Es. apply andb_true_iff in Es. destruct Es as [Es _].
    apply N.eqb_eq in Es. subst c. reflexivity. }
  destruct (starts_with (lit "s") s4).
  - rewrite (Hn eq_refl). cbn [andb]. rewrite orb_false_r.
    destruct (starts_with (lit "://") (skipn (length (lit "s")) s4));
      [|reflexivity].
    cbn [andb]. unfold s4. rewrite !skipn_skipn.
    f_equal. simpl. lia.
  - cbn [andb orb].
    destruct (starts_with (lit "://") s4); [|reflexivity].
    cbn [andb]. unfold s4. rewrite !skipn_skipn.
    f_equal. simpl. lia.
Qed.

Lemma label_not_dot c : label_char c = true -> (46 =? c)%N = false.
Proof.
  unfold label_char. intros H. apply negb_true_iff, orb_false_iff in H.
  destruct H as [H _]. now rewrite N.eqb_sym.
Qed.

Lemma label_not_slash c : label_char c = true -> (c =? 47)%N = false.
Proof.
  unfold label_char. intros H. apply negb_true_iff, orb_false_iff in H.
  now destruct H as [_ H].
Qed.

(** The hand-written groups are defined exactly on the texts that the
    expression matches. *)
Lemma replace_pattern_groups url :
  test replace_pattern url
  = match url_groups url with Some _ => true | None => false end.
Proof.
  rewrite test_anchored by apply anchored_bol.
  unfold replace_pattern. cbn [seqs]. rewrite run_bol, run_scheme.
  unfold url_groups.
  destruct (url_scheme url) as [[sch s]|]; [|reflexivity].
  rewrite run_plus_class.
  2:{ intros c s' pos' Hc. unfold str. rewrite run_lits.
      change (starts_with (lit ".") (c :: s')) with ((46 =? c)%N && true).
      now rewrite (label_not_dot _ Hc). }
  destruct (span label_char s) as [l1 s1]. cbn [fst snd].
  destruct l1 as [|a l1]; [reflexivity|].
  unfold str at 1. rewrite run_lits.
  destruct s1 as [|dot s2]; [reflexivity|].
  change (starts_with (lit ".") (dot :: s2)) with ((46 =? dot)%N && true).
  change (skipn (length (lit ".")) (dot :: s2)) with s2.
  rewrite andb_true_r, (N.eqb_sym 46 dot).
  destruct (dot =? 46)%N; [|reflexivity]. cbn [andb].
  rewrite run_plus_class.
  2:{ intros c s' pos' Hc. rewrite run_path_eol.
      now rewrite (label_not_slash _ Hc). }
  destruct (span label_char s2) as [l2 s3]. cbn [fst snd].
  destruct l2 as [|b l2]; [reflexivity|].
  rewrite run_path_eol.
  destruct s3 as [|c t]; [reflexivity|].
  destruct ((c =? 47)%N && forallb is_dot t); reflexivity.
Qed.

(** X24. [normalizeURL] changes an address exactly when both of its
    expressions match it: the test for a host that does not start with
    [www.], and the replaced expression of a scheme, a host of two labels
    and an optional path. *)
Theorem normalizeURL_changes_iff (url : jsstring) :
  normalizeURL url <> url <->
  test bare_host url = true /\ test replace_pattern url = true.
Proof.
  rewrite replace_pattern_groups. unfold normalizeURL.
  destruct (test bare_host url).
  - destruct (url_groups url) as [[[g1 g2] g3]|] eqn:Eg.
    + split; [auto|]. intros _ E.
      destruct (url_groups_some _ Eg) as (_ & Hurl & _).
      apply (f_equal (@length N)) in E. rewrite Hurl in E.
      rewrite !length_app in E. simpl in E. lia.
    + split; [congruence | intros [_ H]; discriminate H].
  - split; [congruence | intros [H _]; discriminate H].
Qed.

End NormalizeFacts.
